(** * Solem Toolkit: the BLE command client of [api.py]

    A shallow embedding of [custom_components/solem_toolkit/api.py]: the
    command frames built with [struct.pack], device resolution, the
    connection manager, the retried characteristic write, the
    write-and-commit sequence and the diagnostics reader, followed by the
    properties of the specification that are settled on them. *)

From Stdlib Require Import ZArith List String Ascii Bool Lia.
Import ListNotations.

Local Open Scope string_scope.
Local Open Scope list_scope.
Local Open Scope Z_scope.

(** ** Exceptions

    The exception classes that [api.py] raises or lets through.
    [transport_exn] stands for what the platform BLE stack raises, by the
    [except] clause of [_connect_client] that catches it;
    [std_exception] is any other subclass of [Exception], the other
    subclasses of [BleakError] among them. *)

Inductive transport_exn : Type :=
| BleakOutOfConnectionSlotsError
| BleakDBusError
| TimeoutError
| OSError
| std_exception.

Inductive exn : Type :=
| APIConnectionError (msg : string)
| struct_error
| RetryError (last_attempt : exn)
| Transport (e : transport_exn).

Inductive result (A : Type) : Type :=
| Ok (a : A)
| Raise (e : exn).

Arguments Ok {A} a.
Arguments Raise {A} e.

(** What a call into the platform gives back: a value, or an exception of
    the BLE stack. *)
Inductive reply (A : Type) : Type :=
| Returns (a : A)
| Raises (e : transport_exn).

Arguments Returns {A} a.
Arguments Raises {A} e.

Definition of_reply {A} (r : reply A) : result A :=
  match r with
  | Returns a => Ok a
  | Raises e => Raise (Transport e)
  end.

(** ** [struct.pack]

    Only the format characters of the source are modelled: byte order [>]
    (big-endian, no padding), [B] (unsigned char) and [H] (unsigned short).
    A value outside the range of its field makes [struct.pack] raise
    [struct.error]. Bytes are integers in [0, 255]. *)

Module struct.

Inductive format_char : Type := B | H.

Definition pack_field (c : format_char) (v : Z) : result (list Z) :=
  match c with
  | B => if (0 <=? v) && (v <=? 255) then Ok [v] else Raise struct_error
  | H => if (0 <=? v) && (v <=? 65535)
         then Ok [Z.shiftr v 8; Z.land v 255]
         else Raise struct_error
  end.

Fixpoint pack (fmt : list format_char) (vs : list Z) : result (list Z) :=
  match fmt, vs with
  | [], [] => Ok []
  | c :: fmt', v :: vs' =>
      match pack_field c v with
      | Ok bs =>
          match pack fmt' vs' with
          | Ok rest => Ok (bs ++ rest)
          | Raise e => Raise e
          end
      | Raise e => Raise e
      end
  | _, _ => Raise struct_error
  end.

End struct.

Import struct.

(** ** The command frames

    One definition per [command = struct.pack(...)] line of the control
    methods, with the clamping [max(lo, min(x, hi))] that precedes it. *)

Definition HBBBH : list format_char := [H; B; B; B; H].
Definition HBBBBH : list format_char := [H; B; B; B; B; H].

Definition turn_on_command : result (list Z) :=
  pack HBBBH [0x3105; 0x12; 0xFF; 0x00; 0xFFFF].

Definition turn_off_permanent_command : result (list Z) :=
  pack HBBBH [0x3105; 0xC0; 0x00; 0x00; 0x0000].

Definition turn_off_x_days_command (days : Z) : result (list Z) :=
  let days := Z.max 0 (Z.min days 365) in
  pack HBBBH [0x3105; 0x15; 0x00; days; 0xFFFF].

Definition sprinkle_station_x_for_y_minutes_command (station minutes : Z)
  : result (list Z) :=
  let station := Z.max 1 (Z.min station 16) in
  let minutes := Z.max 1 (Z.min minutes 240) in
  pack HBBBBH [0x3105; 0x22; station; 0x00; minutes; 0xFFFF].

Definition sprinkle_all_stations_for_y_minutes_command (minutes : Z)
  : result (list Z) :=
  let minutes := Z.max 1 (Z.min minutes 240) in
  pack HBBBH [0x3105; 0x23; 0x00; minutes; 0xFFFF].

Definition run_program_x_command (program : Z) : result (list Z) :=
  let program := Z.max 1 (Z.min program 3) in
  pack HBBBH [0x3105; 0x21; program; 0x00; 0xFFFF].

Definition stop_manual_sprinkle_command : result (list Z) :=
  pack HBBBH [0x3105; 0x24; 0x00; 0x00; 0xFFFF].

(** The commit frame of [_write_and_commit]:
    [commit = struct.pack(">BB", 0x3B, 0x00)]. *)
Definition commit_command : result (list Z) := pack [B; B] [0x3B; 0x00].

(** The control actions, and the frame each one's method builds. *)
Inductive action : Type :=
| TurnOn
| TurnOffPermanent
| TurnOffXDays (days : Z)
| SprinkleStation (station minutes : Z)
| SprinkleAllStations (minutes : Z)
| RunProgram (program : Z)
| StopManualSprinkle.

Definition encode (a : action) : result (list Z) :=
  match a with
  | TurnOn => turn_on_command
  | TurnOffPermanent => turn_off_permanent_command
  | TurnOffXDays days => turn_off_x_days_command days
  | SprinkleStation station minutes =>
      sprinkle_station_x_for_y_minutes_command station minutes
  | SprinkleAllStations minutes =>
      sprinkle_all_stations_for_y_minutes_command minutes
  | RunProgram program => run_program_x_command program
  | StopManualSprinkle => stop_manual_sprinkle_command
  end.


(** ** Platform objects

    What the platform BLE library hands to [api.py]: scanned devices, the
    GATT topology of a connected client, and the client handle with the
    attributes that [list_characteristics] looks up through [getattr]. *)

Record BLEDevice : Type := {
  address : option string;
  name : option string
}.

Record BleakGATTDescriptor : Type := {
  desc_uuid : string
}.

Record BleakGATTCharacteristic : Type := {
  char_uuid : string;
  properties : list string;
  descriptors : list BleakGATTDescriptor
}.

Record BleakGATTService : Type := {
  svc_uuid : string;
  characteristics : list BleakGATTCharacteristic
}.

(** The wrapped client behind [_client] or [_bleak_client]; [get_services]
    is [None] when [hasattr(inner, "get_services")] is false, and otherwise
    what awaiting it gives. *)
Record InnerClient : Type := {
  get_services : option (result (list BleakGATTService))
}.

Record BleakClient : Type := {
  services : option (list BleakGATTService);
  _client : option InnerClient;
  _bleak_client : option InnerClient
}.

(** ** Events and the platform

    Every call into the platform is recorded, in order, in a history. The
    platform answers each call as a function of the history so far, so a
    theorem quantified over [Platform] holds for every behaviour of the
    radio, the scanner, the connector and the device. Each call but the
    reading of [is_connected] may raise. Exceptions are the subclasses of
    [Exception]; the cancellation of a task is not part of the model. *)

Inductive event : Type :=
| EvAcquire
| EvRelease
| EvFind (addr : string) (timeout : Z)
| EvDiscover (timeout : Z)
| EvConnect (device : BLEDevice) (timeout : Z)
| EvIsConnected (connected : bool)
| EvWrite (uuid : string) (payload : list Z) (response : bool)
          (raised : option transport_exn)
| EvSleep (ms : Z)
| EvGetServices
| EvDisconnect (raised : option transport_exn).

Definition history : Type := list event.

(** One call of [bleak_retry_connector.establish_connection], which is
    not code of this repository: the number of tries that the connector
    made on the device it was given, and the client it returned or the
    exception it raised in the end. How many tries it makes for a given
    [max_attempts], and which exception it raises for which failure of
    the radio, is the connector's own matter. *)
Record connector_run : Type := {
  tries : nat;
  concluded : reply BleakClient
}.

Record Platform : Type := {
  on_find_device_by_address : history -> string -> reply (option BLEDevice);
  on_discover : history -> reply (list BLEDevice);
  on_establish_connection : history -> BLEDevice -> string -> Z -> nat
                            -> connector_run;
  on_is_connected : history -> BleakClient -> bool;
  on_write_gatt_char : history -> BleakClient -> string -> list Z
                       -> option transport_exn;
  on_disconnect : history -> BleakClient -> option transport_exn
}.

(** ** The monad of the asynchronous methods

    A coroutine of [api.py] is a function from the history to a result
    (a value or a raised exception) and the extended history. *)

Definition M (A : Type) : Type := history -> result A * history.

Definition ret {A} (a : A) : M A := fun h => (Ok a, h).

Definition raise {A} (e : exn) : M A := fun h => (Raise e, h).

Definition bind {A B} (m : M A) (k : A -> M B) : M B :=
  fun h => match m h with
           | (Ok a, h1) => k a h1
           | (Raise e, h1) => (Raise e, h1)
           end.

Definition lift {A} (r : result A) : M A := fun h => (r, h).

Definition emit (e : event) : M unit := fun h => (Ok tt, h ++ [e]).

(** [try: m except Exception as exc: handler exc] *)
Definition try_except {A} (m : M A) (handler : exn -> M A) : M A :=
  fun h => match m h with
           | (Ok a, h1) => (Ok a, h1)
           | (Raise e, h1) => handler e h1
           end.

(** [try: m finally: cleanup]: the cleanup always runs; the result of [m]
    stands unless the cleanup itself raises. *)
Definition try_finally {A} (m : M A) (cleanup : M unit) : M A :=
  fun h => match m h with
           | (r, h1) =>
               match cleanup h1 with
               | (Ok _, h2) => (r, h2)
               | (Raise e, h2) => (Raise e, h2)
               end
           end.

Declare Scope api_scope.
Delimit Scope api_scope with api.
Notation "x <- m ;; k" := (bind m (fun x => k))
  (at level 61, m at next level, right associativity) : api_scope.
Notation "m ;; k" := (bind m (fun _ => k))
  (at level 61, right associativity) : api_scope.
Local Open Scope api_scope.

(** [async with lock: body]: the lock is released on every exit of the body. *)
Definition async_with_lock {A} (body : M A) : M A :=
  emit EvAcquire ;; try_finally body (emit EvRelease).

(** ** [str.lower] on byte strings (the addresses are ASCII) *)

Definition ascii_lower (c : ascii) : ascii :=
  let n := N_of_ascii c in
  if ((65 <=? n) && (n <=? 90))%N then ascii_of_N (n + 32) else c.

Fixpoint lower (s : string) : string :=
  match s with
  | EmptyString => EmptyString
  | String c s' => String (ascii_lower c) (lower s')
  end.

(** [x or ""] for an optional string: [None] and the empty string are both
    falsy. *)
Definition or_empty (x : option string) : string :=
  match x with
  | Some s => if String.eqb s "" then "" else s
  | None => ""
  end.

(** ** [tenacity]

    [@retry(stop=stop_after_attempt(n), wait=wait_exponential(...))] with
    the library's defaults: every [Exception] raised by the wrapped call is
    retried, and when the stop condition holds the call raises
    [RetryError] around the last attempt. Delays are in milliseconds. *)

Module tenacity.

Definition wait_exponential (multiplier min max : Z) (attempt_number : nat)
  : Z :=
  Z.max (Z.max 0 min)
        (Z.min (multiplier * 2 ^ (Z.of_nat attempt_number - 1)) max).

Fixpoint retrying {A} (wait : nat -> Z) (remaining attempt_number : nat)
         (f : M A) : M A :=
  fun h =>
    match f h with
    | (Ok a, h1) => (Ok a, h1)
    | (Raise e, h1) =>
        match remaining with
        | O => (Raise (RetryError e), h1)
        | S remaining' =>
            retrying wait remaining' (S attempt_number) f
                     (h1 ++ [EvSleep (wait attempt_number)])
        end
    end.

Definition retry {A} (stop_after_attempt : nat) (wait : nat -> Z) (f : M A)
  : M A :=
  retrying wait (stop_after_attempt - 1) 1 f.

End tenacity.

(** ** [bleak_retry_connector.establish_connection]

    [establish_connection(BleakClient, device, name=..., timeout=...,
    max_attempts=...)]: one call of the platform's connector. Every client
    that the connector creates for a try is built on [device] with the
    [timeout] keyword. *)

Definition establish_connection (p : Platform) (device : BLEDevice)
           (name : string) (timeout : Z) (max_attempts : nat)
  : M BleakClient :=
  fun h =>
    let run := on_establish_connection p h device name timeout max_attempts in
    (of_reply (concluded run),
     h ++ repeat (EvConnect device timeout) (tries run)).

(** ** The dictionary of [list_characteristics] *)

Record char_info : Type := {
  info_uuid : string;
  info_properties : list string;
  info_descriptors : list string
}.

Fixpoint dict_set {V} (k : string) (v : V) (d : list (string * V))
  : list (string * V) :=
  match d with
  | [] => [(k, v)]
  | (k', v') :: rest =>
      if String.eqb k k' then (k, v) :: rest else (k', v') :: dict_set k v rest
  end.

(** ** [const.py] *)

Definition CHARACTERISTIC_UUID : string :=
  "108b0002-eab5-bc09-d0ea-0b8f467ce8ee".
Definition DEFAULT_BLUETOOTH_TIMEOUT : Z := 15.
Definition MIN_BLUETOOTH_TIMEOUT : Z := 5.

(** ** [class SolemAPI] *)

Record SolemAPI : Type := {
  mac_address : string;
  bluetooth_timeout : Z;
  characteristic_uuid : string
}.

(** [SolemAPI.__init__] *)
Definition SolemAPI_init (mac_address : string) (bluetooth_timeout : Z)
  : SolemAPI :=
  {| mac_address := mac_address;
     bluetooth_timeout := bluetooth_timeout;
     characteristic_uuid := CHARACTERISTIC_UUID |}.

Section Methods.

Variable p : Platform.
Variable self : SolemAPI.

(** Calls into the platform. *)

Definition find_device_by_address (addr : string) (timeout : Z)
  : M (option BLEDevice) :=
  fun h => (of_reply (on_find_device_by_address p h addr),
            h ++ [EvFind addr timeout]).

Definition discover (timeout : Z) : M (list BLEDevice) :=
  fun h => (of_reply (on_discover p h), h ++ [EvDiscover timeout]).

Definition is_connected (client : BleakClient) : M bool :=
  fun h => let b := on_is_connected p h client in
           (Ok b, h ++ [EvIsConnected b]).

Definition write_gatt_char (client : BleakClient) (uuid : string)
           (payload : list Z) (response : bool) : M unit :=
  fun h => let r := on_write_gatt_char p h client uuid payload in
           (match r with None => Ok tt | Some e => Raise (Transport e) end,
            h ++ [EvWrite uuid payload response r]).

Definition disconnect (client : BleakClient) : M unit :=
  fun h => let r := on_disconnect p h client in
           (match r with None => Ok tt | Some e => Raise (Transport e) end,
            h ++ [EvDisconnect r]).

(** The [for d in devices] loop of [_resolve_ble_device]. *)
Fixpoint scan_match (devices : list BLEDevice) : option BLEDevice :=
  match devices with
  | [] => None
  | d :: rest =>
      if String.eqb (lower (or_empty (address d))) (lower (mac_address self))
      then Some d
      else scan_match rest
  end.

Definition _resolve_ble_device : M BLEDevice :=
  ble_device <- find_device_by_address (mac_address self) 5 ;;
  match ble_device with
  | Some d => ret d
  | None =>
      devices <- discover 5 ;;
      match scan_match devices with
      | Some d => ret d
      | None => raise (APIConnectionError "Device not found! Failed connecting!")
      end
  end.

(** The [except] clauses of [_connect_client], in their order: the
    exception each one raises in place of the one it caught. *)
Definition connect_error (e : exn) : exn :=
  match e with
  | Transport BleakOutOfConnectionSlotsError =>
      APIConnectionError
        "Bluetooth adapter/proxy out of connection slots or device busy/unreachable"
  | Transport BleakDBusError
  | Transport TimeoutError
  | Transport OSError => APIConnectionError "Timeout connecting to device"
  | _ => APIConnectionError "Unexpected BLE connection error"
  end.

Definition connect_handler (e : exn) : M BleakClient :=
  raise (connect_error e).

Definition _connect_client : M BleakClient :=
  async_with_lock (
    ble_device <- _resolve_ble_device ;;
    try_except
      (establish_connection p ble_device
         ("Solem - " ++ mac_address self) (bluetooth_timeout self) 3)
      connect_handler).

(** The body that [@retry] wraps in [_write_with_auth_retry]. *)
Definition write_attempt (client : BleakClient) (payload : list Z) : M unit :=
  connected <- is_connected client ;;
  if negb connected then raise (APIConnectionError "Client not connected")
  else write_gatt_char client (characteristic_uuid self) payload false.

Definition _write_with_auth_retry (client : BleakClient) (payload : list Z)
  : M unit :=
  tenacity.retry 3 (tenacity.wait_exponential 400 400 2000)
                 (write_attempt client payload).

(** [try: await client.disconnect() except Exception: pass] *)
Definition best_effort_disconnect (client : BleakClient) : M unit :=
  try_except (disconnect client) (fun _ => ret tt).

(** The [try] block of [_write_and_commit]. *)
Definition write_and_commit_body (client : BleakClient) (command : list Z)
  : M unit :=
  connected <- is_connected client ;;
  if negb connected then raise (APIConnectionError "Failed connecting!")
  else
    _write_with_auth_retry client command ;;
    commit <- lift commit_command ;;
    _write_with_auth_retry client commit.

Definition _write_and_commit (command : list Z) : M unit :=
  client <- _connect_client ;;
  try_finally (write_and_commit_body client command)
              (best_effort_disconnect client).

(** The entries of the dictionary that [list_characteristics] returns;
    a Python [dict] keeps the position of a key that is assigned again. *)
Definition characteristic_entry (c : BleakGATTCharacteristic) : char_info :=
  {| info_uuid := char_uuid c;
     info_properties := properties c;
     info_descriptors := map desc_uuid (descriptors c) |}.

Fixpoint topology (svcs : list BleakGATTService)
         (result : list (string * list char_info))
  : list (string * list char_info) :=
  match svcs with
  | [] => result
  | svc :: rest =>
      let chars := map characteristic_entry (characteristics svc) in
      topology rest (dict_set (svc_uuid svc) chars result)
  end.

(** The [try] block of [list_characteristics]. *)
Definition list_characteristics_body (client : BleakClient)
  : M (list (string * list char_info)) :=
  connected <- is_connected client ;;
  if negb connected then raise (APIConnectionError "Failed connecting!")
  else
    svcs <- match services client with
            | Some svcs => ret svcs
            | None =>
                let inner := match _client client with
                             | Some i => Some i
                             | None => _bleak_client client
                             end in
                match inner with
                | Some (Build_InnerClient (Some r)) =>
                    emit EvGetServices ;; lift r
                | _ => raise (APIConnectionError
                         "Services not available on this platform/client")
                end
            end ;;
    ret (topology svcs []).

Definition list_characteristics : M (list (string * list char_info)) :=
  client <- _connect_client ;;
  try_finally (list_characteristics_body client)
              (best_effort_disconnect client).

(** The control methods. *)

Definition turn_on : M unit :=
  command <- lift turn_on_command ;; _write_and_commit command.

Definition turn_off_permanent : M unit :=
  command <- lift turn_off_permanent_command ;; _write_and_commit command.

Definition turn_off_x_days (days : Z) : M unit :=
  command <- lift (turn_off_x_days_command days) ;; _write_and_commit command.

Definition sprinkle_station_x_for_y_minutes (station minutes : Z) : M unit :=
  command <- lift (sprinkle_station_x_for_y_minutes_command station minutes) ;;
  _write_and_commit command.

Definition sprinkle_all_stations_for_y_minutes (minutes : Z) : M unit :=
  command <- lift (sprinkle_all_stations_for_y_minutes_command minutes) ;;
  _write_and_commit command.

Definition run_program_x (program : Z) : M unit :=
  command <- lift (run_program_x_command program) ;; _write_and_commit command.

Definition stop_manual_sprinkle : M unit :=
  command <- lift stop_manual_sprinkle_command ;; _write_and_commit command.

(** The method that carries out a control action. *)
Definition perform (a : action) : M unit :=
  match a with
  | TurnOn => turn_on
  | TurnOffPermanent => turn_off_permanent
  | TurnOffXDays days => turn_off_x_days days
  | SprinkleStation station minutes =>
      sprinkle_station_x_for_y_minutes station minutes
  | SprinkleAllStations minutes => sprinkle_all_stations_for_y_minutes minutes
  | RunProgram program => run_program_x program
  | StopManualSprinkle => stop_manual_sprinkle
  end.

End Methods.


(** ** Concurrent callers of [_connect_client]

    [asyncio] runs the callers of one [SolemAPI] as tasks of a single
    thread: a task runs alone until it awaits something that suspends it,
    and another task may run before it is resumed. *)

Module asyncio.

(** [asyncio.Lock]: [_locked], and [_waiters] with, for each waiting task,
    whether its future has been set (no task is cancelled here). *)
Record Lock : Type := {
  locked : bool;
  waiters : list (nat * bool)
}.

Definition new_lock : Lock := {| locked := false; waiters := [] |}.

(** The test of [Lock.acquire] that lets the caller take the lock at once. *)
Definition free (l : Lock) : bool :=
  negb (locked l) && match waiters l with [] => true | _ :: _ => false end.

(** [Lock._wake_up_first] *)
Definition wake_up_first (ws : list (nat * bool)) : list (nat * bool) :=
  match ws with
  | (t, false) :: rest => (t, true) :: rest
  | _ => ws
  end.

(** [Lock.release]; [None] is its [RuntimeError] on a lock not acquired. *)
Definition release (l : Lock) : option Lock :=
  if locked l
  then Some {| locked := false; waiters := wake_up_first (waiters l) |}
  else None.

(** The task [t] has a future in the queue. *)
Definition is_waiter (t : nat) (ws : list (nat * bool)) : bool :=
  existsb (fun w => Nat.eqb (fst w) t) ws.

(** The waiter [t] has been woken: its future is set. *)
Definition woken (t : nat) (ws : list (nat * bool)) : bool :=
  existsb (fun w => Nat.eqb (fst w) t && snd w) ws.

(** [self._waiters.remove(fut)] for the future of task [t]. *)
Definition remove_waiter (t : nat) (ws : list (nat * bool))
  : list (nat * bool) :=
  filter (fun w => negb (Nat.eqb (fst w) t)) ws.

End asyncio.

Fixpoint update {X} (l : list X) (t : nat) (x : X) : list X :=
  match l, t with
  | [], _ => []
  | _ :: rest, O => x :: rest
  | y :: rest, S t' => y :: update rest t' x
  end.

(** What resumes a suspended task: the event loop alone, or the return of
    the call into the platform that the task awaits. *)
Inductive answer : Type :=
| Go
| Found (r : reply (option BLEDevice))
| Scanned (r : reply (list BLEDevice))
| Established (run : connector_run).

(** To follow several callers, [_resolve_ble_device] and [_connect_client]
    are written here as coroutines: the code of the two methods again, as
    a value that shows each of its awaits, so that a run can stop there
    and another task can go on. [sequential] runs such a coroutine in one
    go against a platform; [step] runs one task among others up to its
    next suspension. *)

Module Coroutine.

Inductive coro (A : Type) : Type :=
| Finished (r : result A)
| Acquire (k : coro A)
| Release (k : coro A)
| FindDeviceByAddress (addr : string) (timeout : Z)
                      (k : reply (option BLEDevice) -> coro A)
| Discover (timeout : Z) (k : reply (list BLEDevice) -> coro A)
| EstablishConnection (device : BLEDevice) (name : string) (timeout : Z)
                      (max_attempts : nat) (k : reply BleakClient -> coro A).

Arguments Finished {A} r.
Arguments Acquire {A} k.
Arguments Release {A} k.
Arguments FindDeviceByAddress {A} addr timeout k.
Arguments Discover {A} timeout k.
Arguments EstablishConnection {A} device name timeout max_attempts k.

Definition ret {A} (a : A) : coro A := Finished (Ok a).

Definition raise {A} (e : exn) : coro A := Finished (Raise e).

Fixpoint bind {A B} (c : coro A) (f : A -> coro B) : coro B :=
  match c with
  | Finished (Ok a) => f a
  | Finished (Raise e) => Finished (Raise e)
  | Acquire k => Acquire (bind k f)
  | Release k => Release (bind k f)
  | FindDeviceByAddress addr timeout k =>
      FindDeviceByAddress addr timeout (fun r => bind (k r) f)
  | Discover timeout k => Discover timeout (fun r => bind (k r) f)
  | EstablishConnection device name timeout max_attempts k =>
      EstablishConnection device name timeout max_attempts
                          (fun r => bind (k r) f)
  end.

(** [try: c except Exception as exc: handler exc] *)
Fixpoint try_except {A} (c : coro A) (handler : exn -> coro A) : coro A :=
  match c with
  | Finished (Ok a) => Finished (Ok a)
  | Finished (Raise e) => handler e
  | Acquire k => Acquire (try_except k handler)
  | Release k => Release (try_except k handler)
  | FindDeviceByAddress addr timeout k =>
      FindDeviceByAddress addr timeout (fun r => try_except (k r) handler)
  | Discover timeout k => Discover timeout (fun r => try_except (k r) handler)
  | EstablishConnection device name timeout max_attempts k =>
      EstablishConnection device name timeout max_attempts
                          (fun r => try_except (k r) handler)
  end.

(** The cleanup of a [finally], run after the block has ended with [r]:
    [r] stands unless the cleanup itself raises. *)
Fixpoint ending {A} (cleanup : coro unit) (r : result A) : coro A :=
  match cleanup with
  | Finished (Ok _) => Finished r
  | Finished (Raise e) => Finished (Raise e)
  | Acquire k => Acquire (ending k r)
  | Release k => Release (ending k r)
  | FindDeviceByAddress addr timeout k =>
      FindDeviceByAddress addr timeout (fun x => ending (k x) r)
  | Discover timeout k => Discover timeout (fun x => ending (k x) r)
  | EstablishConnection device name timeout max_attempts k =>
      EstablishConnection device name timeout max_attempts
                          (fun x => ending (k x) r)
  end.

(** [try: c finally: cleanup] *)
Fixpoint try_finally {A} (c : coro A) (cleanup : coro unit) : coro A :=
  match c with
  | Finished r => ending cleanup r
  | Acquire k => Acquire (try_finally k cleanup)
  | Release k => Release (try_finally k cleanup)
  | FindDeviceByAddress addr timeout k =>
      FindDeviceByAddress addr timeout (fun r => try_finally (k r) cleanup)
  | Discover timeout k =>
      Discover timeout (fun r => try_finally (k r) cleanup)
  | EstablishConnection device name timeout max_attempts k =>
      EstablishConnection device name timeout max_attempts
                          (fun r => try_finally (k r) cleanup)
  end.

Declare Scope coro_scope.
Delimit Scope coro_scope with coro.
Notation "x <- m ;; k" := (bind m (fun x => k))
  (at level 61, m at next level, right associativity) : coro_scope.

(** [async with lock: body]: [await lock.acquire()] on the way in,
    [lock.release()] on every way out. *)
Definition async_with_lock {A} (body : coro A) : coro A :=
  Acquire (try_finally body (Release (Finished (Ok tt)))).

(** The awaited calls into the platform. *)

Definition find_device_by_address (addr : string) (timeout : Z)
  : coro (option BLEDevice) :=
  FindDeviceByAddress addr timeout (fun r => Finished (of_reply r)).

Definition discover (timeout : Z) : coro (list BLEDevice) :=
  Discover timeout (fun r => Finished (of_reply r)).

Definition establish_connection (device : BLEDevice) (name : string)
           (timeout : Z) (max_attempts : nat) : coro BleakClient :=
  EstablishConnection device name timeout max_attempts
                      (fun r => Finished (of_reply r)).

Section Methods.

Variable self : SolemAPI.

Definition _resolve_ble_device : coro BLEDevice :=
  (ble_device <- find_device_by_address (mac_address self) 5 ;;
   match ble_device with
   | Some d => ret d
   | None =>
       devices <- discover 5 ;;
       match scan_match self devices with
       | Some d => ret d
       | None => raise (APIConnectionError "Device not found! Failed connecting!")
       end
   end)%coro.

Definition connect_handler (e : exn) : coro BleakClient :=
  raise (connect_error e).

Definition _connect_client : coro BleakClient :=
  async_with_lock (
    ble_device <- _resolve_ble_device ;;
    try_except
      (establish_connection ble_device
         ("Solem - " ++ mac_address self) (bluetooth_timeout self) 3)
      connect_handler)%coro.

End Methods.

(** *** One caller, run in one go *)

Fixpoint sequential {A} (p : Platform) (c : coro A) : M A :=
  fun h =>
    match c with
    | Finished r => (r, h)
    | Acquire k => sequential p k (h ++ [EvAcquire])
    | Release k => sequential p k (h ++ [EvRelease])
    | FindDeviceByAddress addr timeout k =>
        sequential p (k (on_find_device_by_address p h addr))
                   (h ++ [EvFind addr timeout])
    | Discover timeout k =>
        sequential p (k (on_discover p h)) (h ++ [EvDiscover timeout])
    | EstablishConnection device name timeout max_attempts k =>
        let run :=
          on_establish_connection p h device name timeout max_attempts in
        sequential p (k (concluded run))
                   (h ++ repeat (EvConnect device timeout) (tries run))
    end.

(** *** Several callers, run by the event loop

    The lock of the instance, the tasks, and the calls made so far, each
    with the task that made it. *)

Record state (A : Type) : Type := {
  lock : asyncio.Lock;
  tasks : list (coro A);
  trace : list (nat * event)
}.

Arguments lock {A} s.
Arguments tasks {A} s.
Arguments trace {A} s.

(** A task runs on until it has to wait. [Lock.acquire] returns at once
    on a free lock and otherwise queues a future and waits for it;
    [Lock.release] never waits. *)
Fixpoint advance {A} (t : nat) (l : asyncio.Lock) (c : coro A)
  : option (asyncio.Lock * coro A * list event) :=
  match c with
  | Acquire k =>
      if asyncio.free l
      then match advance t {| asyncio.locked := true;
                              asyncio.waiters := asyncio.waiters l |} k with
           | Some (l', c', evs) => Some (l', c', EvAcquire :: evs)
           | None => None
           end
      else Some ({| asyncio.locked := asyncio.locked l;
                    asyncio.waiters := asyncio.waiters l ++ [(t, false)] |},
                 Acquire k, [])
  | Release k =>
      match asyncio.release l with
      | Some l' =>
          match advance t l' k with
          | Some (l'', c', evs) => Some (l'', c', EvRelease :: evs)
          | None => None
          end
      | None => None
      end
  | _ => Some (l, c, [])
  end.

(** Task [t] goes on from [c] with the lock in state [l], after the calls
    [evs] that resumed it. *)
Definition resume {A} (s : state A) (t : nat) (l : asyncio.Lock)
           (c : coro A) (evs : list event) : option (state A) :=
  match advance t l c with
  | Some (l', c', evs') =>
      Some {| lock := l';
              tasks := update (tasks s) t c';
              trace := trace s ++ map (pair t) (evs ++ evs') |}
  | None => None
  end.

(** One run of task [t], from where it is suspended to its next
    suspension; [a] is what resumes it. A task in the queue of the lock
    is resumed only once its future has been set, and then takes the
    lock. *)
Definition step {A} (t : nat) (a : answer) (s : state A)
  : option (state A) :=
  match nth_error (tasks s) t, a with
  | Some (Acquire k), Go =>
      if asyncio.is_waiter t (asyncio.waiters (lock s))
      then if asyncio.woken t (asyncio.waiters (lock s))
           then resume s t
                  {| asyncio.locked := true;
                     asyncio.waiters :=
                       asyncio.remove_waiter t (asyncio.waiters (lock s)) |}
                  k [EvAcquire]
           else None
      else resume s t (lock s) (Acquire k) []
  | Some (Release k), Go => resume s t (lock s) (Release k) []
  | Some (FindDeviceByAddress addr timeout k), Found r =>
      resume s t (lock s) (k r) [EvFind addr timeout]
  | Some (Discover timeout k), Scanned r =>
      resume s t (lock s) (k r) [EvDiscover timeout]
  | Some (EstablishConnection device name timeout max_attempts k),
    Established run =>
      resume s t (lock s) (k (concluded run))
             (repeat (EvConnect device timeout) (tries run))
  | _, _ => None
  end.

(** [n] tasks that have not started, each about to run [c], on a fresh
    lock. *)
Definition spawn {A} (n : nat) (c : coro A) : state A :=
  {| lock := asyncio.new_lock; tasks := repeat c n; trace := [] |}.

Fixpoint run {A} (schedule : list (nat * answer)) (s : state A)
  : option (state A) :=
  match schedule with
  | [] => Some s
  | (t, a) :: rest =>
      match step t a s with
      | Some s' => run rest s'
      | None => None
      end
  end.

(** The answer of the platform to what a task awaits, after the calls of
    the history [h]. *)
Definition platform_answer {A} (p : Platform) (h : history) (c : coro A)
  : answer :=
  match c with
  | FindDeviceByAddress addr _ _ => Found (on_find_device_by_address p h addr)
  | Discover _ _ => Scanned (on_discover p h)
  | EstablishConnection device name timeout max_attempts _ =>
      Established
        (on_establish_connection p h device name timeout max_attempts)
  | _ => Go
  end.

(** The tasks of [schedule] are resumed in turn, each with the answer of
    the platform; [h] is the history before the tasks were started. *)
Fixpoint platform_run {A} (p : Platform) (h : history) (schedule : list nat)
         (s : state A) : option (state A) :=
  match schedule with
  | [] => Some s
  | t :: rest =>
      match nth_error (tasks s) t with
      | Some c =>
          match step t (platform_answer p (h ++ map snd (trace s)) c) s with
          | Some s' => platform_run p h rest s'
          | None => None
          end
      | None => None
      end
  end.

End Coroutine.

(** ** Python dictionaries read by key *)

(** [d.get(k)] on a dictionary kept as an association list. *)
Fixpoint dict_get {V} (k : string) (d : list (string * V)) : option V :=
  match d with
  | [] => None
  | (k', v) :: rest => if String.eqb k k' then Some v else dict_get k rest
  end.

(** ** [services.py]

    The service handlers of the host. A call carries [device_mac], the
    required string field, and the other fields of its payload as Python
    values. The handlers read the address with
    [call.data.get("device_mac")] and hand it to [SolemAPI], whose
    signature takes a [str]: a call without a string under that key is
    not a value of [ServiceCall], and what the handlers do on one is not
    described here. The host's logger is not part of the model. *)

(** What [int(x)] does on an object. *)
Inductive int_outcome : Type :=
| IntValue (z : Z)
| IntTypeError
| IntValueError
| IntOverflowError.

(** The values of a payload: [None], booleans, integers, strings, and any
    other object, given by what [int] does on it. *)
Inductive pyvalue : Type :=
| PyNone
| PyBool (b : bool)
| PyInt (z : Z)
| PyStr (s : string)
| PyObject (as_int : int_outcome).

(** The exceptions that leave a handler: the host's error, the errors of
    [int], and whatever the API raised that the handler does not catch. *)
Inductive host_exn : Type :=
| HomeAssistantError (msg : string)
| TypeError
| ValueError
| OverflowError
| Uncaught (e : exn).

Inductive hresult (A : Type) : Type :=
| Return (a : A)
| HRaise (e : host_exn).

Arguments Return {A} a.
Arguments HRaise {A} e.

Record ServiceCall : Type := {
  device_mac : string;
  data : list (string * pyvalue)
}.

Definition DOMAIN : string := "solem_toolkit".

(** [d.get(k, default)] *)
Definition get {V} (d : list (string * V)) (k : string) (default : V) : V :=
  match dict_get k d with
  | Some v => v
  | None => default
  end.

(** A handler is a coroutine whose exceptions are the host's. *)
Definition HM (A : Type) : Type := history -> hresult A * history.

Definition hpure {A} (r : hresult A) : HM A := fun h => (r, h).

Definition hbind {A B} (m : HM A) (k : A -> HM B) : HM B :=
  fun h => match m h with
           | (Return a, h1) => k a h1
           | (HRaise e, h1) => (HRaise e, h1)
           end.

Declare Scope host_scope.
Delimit Scope host_scope with host.
Notation "x <- m ;; k" := (hbind m (fun x => k))
  (at level 61, m at next level, right associativity) : host_scope.

(** [try: await m except APIConnectionError as exc:
          raise HomeAssistantError(str(exc)) from exc] *)
Definition api_try {A} (m : M A) : HM A :=
  fun h => match m h with
           | (Ok a, h1) => (Return a, h1)
           | (Raise (APIConnectionError msg), h1) =>
               (HRaise (HomeAssistantError msg), h1)
           | (Raise e, h1) => (HRaise (Uncaught e), h1)
           end.

Section Services.

Variable p : Platform.

(** [int(s)] for a string [s]: its value, or [None] for [ValueError]. *)
Variable str_to_int : string -> option Z.

Definition py_int (v : pyvalue) : hresult Z :=
  match v with
  | PyNone => HRaise TypeError
  | PyBool b => Return (if b then 1 else 0)
  | PyInt z => Return z
  | PyStr s =>
      match str_to_int s with
      | Some z => Return z
      | None => HRaise ValueError
      end
  | PyObject (IntValue z) => Return z
  | PyObject IntTypeError => HRaise TypeError
  | PyObject IntValueError => HRaise ValueError
  | PyObject IntOverflowError => HRaise OverflowError
  end.

Definition _get_timeout (call : ServiceCall) : hresult Z :=
  let timeout := get (data call) "bluetooth_timeout"
                     (PyInt DEFAULT_BLUETOOTH_TIMEOUT) in
  match py_int timeout with
  | Return timeout_int => Return (Z.max MIN_BLUETOOTH_TIMEOUT timeout_int)
  | HRaise TypeError | HRaise ValueError =>
      HRaise (HomeAssistantError "Invalid bluetooth_timeout")
  | HRaise e => HRaise e
  end.

(** [api = SolemAPI(hass, device_mac, bluetooth_timeout=_get_timeout(call))] *)
Definition new_api (call : ServiceCall) : HM SolemAPI :=
  (timeout <- hpure (_get_timeout call) ;;
   hpure (Return (SolemAPI_init (device_mac call) timeout)))%host.

Definition async_list_characteristics (call : ServiceCall) : HM unit :=
  (api <- new_api call ;;
   result <- api_try (list_characteristics p api) ;;
   hpure (Return tt))%host.

Definition async_turn_off_permanent (call : ServiceCall) : HM unit :=
  (api <- new_api call ;; api_try (turn_off_permanent p api))%host.

Definition async_turn_off_x_days (call : ServiceCall) : HM unit :=
  (days <- hpure (py_int (get (data call) "days" (PyInt 1))) ;;
   api <- new_api call ;;
   api_try (turn_off_x_days p api days))%host.

Definition async_turn_on (call : ServiceCall) : HM unit :=
  (api <- new_api call ;; api_try (turn_on p api))%host.

Definition async_sprinkle_station_x_for_y_minutes (call : ServiceCall)
  : HM unit :=
  (station <- hpure (py_int (get (data call) "station" (PyInt 1))) ;;
   minutes <- hpure (py_int (get (data call) "minutes" (PyInt 1))) ;;
   api <- new_api call ;;
   api_try (sprinkle_station_x_for_y_minutes p api station minutes))%host.

Definition async_sprinkle_all_stations_for_y_minutes (call : ServiceCall)
  : HM unit :=
  (minutes <- hpure (py_int (get (data call) "minutes" (PyInt 1))) ;;
   api <- new_api call ;;
   api_try (sprinkle_all_stations_for_y_minutes p api minutes))%host.

Definition async_run_program_x (call : ServiceCall) : HM unit :=
  (program <- hpure (py_int (get (data call) "program" (PyInt 1))) ;;
   api <- new_api call ;;
   api_try (run_program_x p api program))%host.

Definition async_stop_manual_sprinkle (call : ServiceCall) : HM unit :=
  (api <- new_api call ;; api_try (stop_manual_sprinkle p api))%host.

(** The registrations of [async_setup_services], in their order: domain,
    service name, handler. *)
Definition async_setup_services
  : list (string * string * (ServiceCall -> HM unit)) :=
  [(DOMAIN, "list_characteristics", async_list_characteristics);
   (DOMAIN, "turn_off_permanent", async_turn_off_permanent);
   (DOMAIN, "turn_off_x_days", async_turn_off_x_days);
   (DOMAIN, "turn_on", async_turn_on);
   (DOMAIN, "sprinkle_station_x_for_y_minutes",
    async_sprinkle_station_x_for_y_minutes);
   (DOMAIN, "sprinkle_all_stations_for_y_minutes",
    async_sprinkle_all_stations_for_y_minutes);
   (DOMAIN, "run_program_x", async_run_program_x);
   (DOMAIN, "stop_manual_sprinkle", async_stop_manual_sprinkle)].

End Services.

(** ** [SolemAPI.scan_bluetooth] and [bluetooth.py] *)

Section Scanning.

Variable p : Platform.

(** [SolemAPI.scan_bluetooth] *)
Definition scan_bluetooth : M (list BLEDevice) := discover p 5.

(** [async_scan_devices]. [host_discovery] is what the host's
    [async_discovered_devices(hass)] gives, [None] when importing or
    calling it raises. *)
Definition async_scan_devices (host_discovery : option (list BLEDevice))
           (timeout : Z) : M (list BLEDevice) :=
  match host_discovery with
  | Some devices => ret devices
  | None => discover p timeout
  end.

End Scanning.

(** * Vocabulary of the properties *)

(** ** The encoding table of the specification

    The frame the table gives for an action, byte by byte, with the
    parameters clamped to the ranges of its last column. *)

Definition clamp (lo hi x : Z) : Z := Z.max lo (Z.min x hi).

Definition frame_table (a : action) : list Z :=
  match a with
  | TurnOn => [0x31; 0x05; 0x12; 0xFF; 0x00; 0xFF; 0xFF]
  | TurnOffPermanent => [0x31; 0x05; 0xC0; 0x00; 0x00; 0x00; 0x00]
  | TurnOffXDays days => [0x31; 0x05; 0x15; 0x00; clamp 0 365 days; 0xFF; 0xFF]
  | SprinkleStation station minutes =>
      [0x31; 0x05; 0x22; clamp 1 16 station; 0x00; clamp 1 240 minutes;
       0xFF; 0xFF]
  | SprinkleAllStations minutes =>
      [0x31; 0x05; 0x23; 0x00; clamp 1 240 minutes; 0xFF; 0xFF]
  | RunProgram program => [0x31; 0x05; 0x21; clamp 1 3 program; 0x00; 0xFF; 0xFF]
  | StopManualSprinkle => [0x31; 0x05; 0x24; 0x00; 0x00; 0xFF; 0xFF]
  end.

Definition is_byte (b : Z) : Prop := 0 <= b <= 255.

(** ** Histories

    Every computation only appends to the history; [new_events m h] is
    what a run of [m] from [h] appends, and [outcome m h] what it returns
    or raises. *)

Definition new_events {A} (m : M A) (h : history) : list event :=
  skipn (List.length h) (snd (m h)).

Definition outcome {A} (m : M A) (h : history) : result A := fst (m h).

(** [only P m]: whatever the history, [m] appends events that satisfy [P]
    and nothing else. *)
Definition only {A} (P : event -> Prop) (m : M A) : Prop :=
  forall h, exists evs, snd (m h) = h ++ evs /\ Forall P evs.

(** Classes of events. *)

Definition is_disconnect (e : event) : bool :=
  match e with EvDisconnect _ => true | _ => false end.

Definition is_write (e : event) : bool :=
  match e with EvWrite _ _ _ _ => true | _ => false end.

Definition is_find (e : event) : bool :=
  match e with EvFind _ _ => true | _ => false end.

Definition is_discover (e : event) : bool :=
  match e with EvDiscover _ => true | _ => false end.

Definition is_connect (e : event) : bool :=
  match e with EvConnect _ _ => true | _ => false end.

Definition count (f : event -> bool) (evs : list event) : nat :=
  List.length (filter f evs).

(** The events of connection establishment: the lock, the scanner and the
    connector. *)
Definition connecting (e : event) : Prop :=
  match e with
  | EvAcquire | EvRelease | EvFind _ _ | EvDiscover _ | EvConnect _ _ => True
  | _ => False
  end.

(** The events of a retried write of [payload] to [uuid]. *)
Definition writing (uuid : string) (payload : list Z) (e : event) : Prop :=
  match e with
  | EvIsConnected _ | EvSleep _ => True
  | EvWrite u pl response _ => u = uuid /\ pl = payload /\ response = false
  | _ => False
  end.

(** The comparison of the fallback scan, as a proposition. *)
Definition address_matches (self : SolemAPI) (d : BLEDevice) : Prop :=
  lower (or_empty (address d)) = lower (mac_address self).

Definition device_not_found : exn :=
  APIConnectionError "Device not found! Failed connecting!".

(** The events of a session on a connected client, before the cleanup. *)
Definition in_session (e : event) : Prop :=
  match e with
  | EvIsConnected _ | EvWrite _ _ _ _ | EvSleep _ | EvGetServices => True
  | _ => False
  end.

(** ** The failure classes of the specification

    The message the specification gives for each kind of failure of the
    connector: slot exhaustion or a busy device, a timeout or an OS-level
    transport error, anything else. *)

Definition connection_error_message (e : transport_exn) : string :=
  match e with
  | BleakOutOfConnectionSlotsError =>
      "Bluetooth adapter/proxy out of connection slots or device busy/unreachable"
  | BleakDBusError | TimeoutError | OSError => "Timeout connecting to device"
  | std_exception => "Unexpected BLE connection error"
  end.

(** The one call of the connector that [_connect_client] makes once the
    device [d] is resolved, after the history [h1]. *)
Definition connector_call (p : Platform) (self : SolemAPI) (d : BLEDevice)
           (h1 : history) : connector_run :=
  on_establish_connection p h1 d ("Solem - " ++ mac_address self)
                          (bluetooth_timeout self) 3.

(** ** A fresh resolution before every connection try

    The reading of the specification in which the connect operation
    resolves the device again for each try of the connector: between two
    tries of a history there is an address lookup. *)

Definition resolution_before_every_try (evs : list event) : Prop :=
  forall pre d t mid d' t' post,
    evs = pre ++ EvConnect d t :: mid ++ EvConnect d' t' :: post ->
    Exists (fun e => is_find e = true) mid.

(** ** Scenarios

    Concrete platforms and API instances on which the methods are run. *)

Definition solem_device : BLEDevice :=
  {| address := Some "C8:B9:61:AA:BB:CC"; name := Some "BL-IP" |}.

Definition plain_client : BleakClient :=
  {| services := Some []; _client := None; _bleak_client := None |}.

Definition api0 : SolemAPI := SolemAPI_init "c8:b9:61:aa:bb:cc" 15.

(** A healthy radio: the direct lookup finds the controller, the first try
    connects, the client stays connected and every write goes through. *)
Definition healthy : Platform :=
  {| on_find_device_by_address := fun _ _ => Returns (Some solem_device);
     on_discover := fun _ => Returns [solem_device];
     on_establish_connection := fun _ _ _ _ _ =>
       {| tries := 1; concluded := Returns plain_client |};
     on_is_connected := fun _ _ => true;
     on_write_gatt_char := fun _ _ _ _ => None;
     on_disconnect := fun _ _ => None |}.

(** The controller is found but cannot be reached: the connector makes
    three tries and gives up with its own error. *)
Definition unreachable : Platform :=
  {| on_find_device_by_address := fun _ _ => Returns (Some solem_device);
     on_discover := fun _ => Returns [solem_device];
     on_establish_connection := fun _ _ _ _ _ =>
       {| tries := 3; concluded := Raises std_exception |};
     on_is_connected := fun _ _ => false;
     on_write_gatt_char := fun _ _ _ _ => Some std_exception;
     on_disconnect := fun _ _ => None |}.

(** The adapter has no free connection slot. *)
Definition out_of_slots : Platform :=
  {| on_find_device_by_address := fun _ _ => Returns (Some solem_device);
     on_discover := fun _ => Returns [solem_device];
     on_establish_connection := fun _ _ _ _ _ =>
       {| tries := 1; concluded := Raises BleakOutOfConnectionSlotsError |};
     on_is_connected := fun _ _ => false;
     on_write_gatt_char := fun _ _ _ _ => Some std_exception;
     on_disconnect := fun _ _ => None |}.

(** The adapter is not ready: the scanner raises the error of the bus on
    the address lookup and on the scan. *)
Definition adapter_not_ready : Platform :=
  {| on_find_device_by_address := fun _ _ => Raises BleakDBusError;
     on_discover := fun _ => Raises BleakDBusError;
     on_establish_connection := fun _ _ _ _ _ =>
       {| tries := 1; concluded := Returns plain_client |};
     on_is_connected := fun _ _ => true;
     on_write_gatt_char := fun _ _ _ _ => None;
     on_disconnect := fun _ _ => None |}.

(** ** The guaranteed-release block

    What holds of a call that connects, runs [body] on the client and
    disconnects in its [finally]: once the client is there, the call
    returns or raises what the body did, and its history is that of the
    connect, then that of the body, then one disconnect, whatever the
    disconnect itself did; when the connect raises, the call raises the
    same exception and its history is that of the connect. *)

Definition released_once {A} (p : Platform) (connect : M BleakClient)
           (body : BleakClient -> M A) (call : M A) (h : history) : Prop :=
  match connect h with
  | (Ok client, h1) =>
      outcome call h = outcome (body client) h1 /\
      new_events call h =
        new_events connect h ++ new_events (body client) h1
          ++ [EvDisconnect (on_disconnect p (snd (body client h1)) client)] /\
      count is_disconnect (new_events call h) = 1%nat
  | (Raise e, _) =>
      outcome call h = Raise e /\
      new_events call h = new_events connect h /\
      count is_disconnect (new_events call h) = 0%nat
  end.

(** A run in which the first write fails once and every later write goes
    through (the end-to-end scenario of the specification). *)
Definition first_write_fails : Platform :=
  {| on_find_device_by_address := fun _ _ => Returns (Some solem_device);
     on_discover := fun _ => Returns [solem_device];
     on_establish_connection := fun _ _ _ _ _ =>
       {| tries := 1; concluded := Returns plain_client |};
     on_is_connected := fun _ _ => true;
     on_write_gatt_char := fun h _ _ _ =>
       if existsb is_write h then None else Some std_exception;
     on_disconnect := fun _ _ => None |}.

(** What that run records up to its commit write: one failed and one
    successful write of the frame of station 3 for 15 minutes. *)
Definition scenario_before_commit : list event :=
  [EvAcquire; EvFind "c8:b9:61:aa:bb:cc" 5; EvConnect solem_device 15;
   EvRelease; EvIsConnected true;
   EvIsConnected true;
   EvWrite CHARACTERISTIC_UUID [0x31; 0x05; 0x22; 3; 0; 15; 0xFF; 0xFF]
           false (Some std_exception);
   EvSleep 400;
   EvIsConnected true;
   EvWrite CHARACTERISTIC_UUID [0x31; 0x05; 0x22; 3; 0; 15; 0xFF; 0xFF]
           false None;
   EvIsConnected true].

(** The connection drops right after the first successful write: the
    client reports connected until a write has gone through, and not
    connected from then on. *)
Definition is_written (e : event) : bool :=
  match e with EvWrite _ _ _ None => true | _ => false end.

Definition drops_after_first_write : Platform :=
  {| on_find_device_by_address := fun _ _ => Returns (Some solem_device);
     on_discover := fun _ => Returns [solem_device];
     on_establish_connection := fun _ _ _ _ _ =>
       {| tries := 1; concluded := Returns plain_client |};
     on_is_connected := fun h _ => negb (existsb is_written h);
     on_write_gatt_char := fun _ _ _ _ => None;
     on_disconnect := fun _ _ => None |}.

(** A scan that also reports a device without an address; the direct
    lookup finds nothing. *)
Definition addressless_device : BLEDevice :=
  {| address := None; name := Some "unknown" |}.

Definition addressless_scan : Platform :=
  {| on_find_device_by_address := fun _ _ => Returns None;
     on_discover := fun _ => Returns [addressless_device; solem_device];
     on_establish_connection := fun _ _ _ _ _ =>
       {| tries := 1; concluded := Returns plain_client |};
     on_is_connected := fun _ _ => true;
     on_write_gatt_char := fun _ _ _ _ => None;
     on_disconnect := fun _ _ => None |}.

Definition has_address (d : BLEDevice) : bool :=
  match address d with Some _ => true | None => false end.

(** ** Concurrent callers

    The control points of [_connect_client]: where a caller is between
    two runs of its task. They are used to state the invariant of the
    lock and to prove it; [code_at] gives the coroutine that a task at a
    control point still has to run. *)

Inductive pc : Type :=
| Idle
| WaitLock
| Resolving
| Scanning
| Connecting (device : BLEDevice)
| Done (r : result BleakClient).

Record tasks_state : Type := {
  _conn_lock : asyncio.Lock;
  tasks : list pc
}.

(** The task leaves the [async with] block with result [r]. *)
Definition leave (s : tasks_state) (t : nat) (r : result BleakClient)
  : option tasks_state :=
  match asyncio.release (_conn_lock s) with
  | Some l => Some {| _conn_lock := l; tasks := update (tasks s) t (Done r) |}
  | None => None
  end.

(** The move of task [t] from its control point when it is resumed by
    [a]. *)
Definition move (self : SolemAPI) (t : nat) (a : answer) (s : tasks_state)
  : option tasks_state :=
  let l := _conn_lock s in
  match nth_error (tasks s) t, a with
  | Some Idle, Go =>
      if asyncio.free l
      then Some {| _conn_lock := {| asyncio.locked := true;
                                    asyncio.waiters := asyncio.waiters l |};
                   tasks := update (tasks s) t Resolving |}
      else Some {| _conn_lock := {| asyncio.locked := asyncio.locked l;
                                    asyncio.waiters :=
                                      asyncio.waiters l ++ [(t, false)] |};
                   tasks := update (tasks s) t WaitLock |}
  | Some WaitLock, Go =>
      if asyncio.woken t (asyncio.waiters l)
      then Some {| _conn_lock := {| asyncio.locked := true;
                                    asyncio.waiters :=
                                      asyncio.remove_waiter t (asyncio.waiters l) |};
                   tasks := update (tasks s) t Resolving |}
      else None
  | Some Resolving, Found (Returns (Some d)) =>
      Some {| _conn_lock := l; tasks := update (tasks s) t (Connecting d) |}
  | Some Resolving, Found (Returns None) =>
      Some {| _conn_lock := l; tasks := update (tasks s) t Scanning |}
  | Some Resolving, Found (Raises e) => leave s t (Raise (Transport e))
  | Some Scanning, Scanned (Returns devices) =>
      match scan_match self devices with
      | Some d =>
          Some {| _conn_lock := l; tasks := update (tasks s) t (Connecting d) |}
      | None =>
          leave s t (Raise (APIConnectionError
                              "Device not found! Failed connecting!"))
      end
  | Some Scanning, Scanned (Raises e) => leave s t (Raise (Transport e))
  | Some (Connecting d), Established run =>
      leave s t (match concluded run with
                 | Returns client => Ok client
                 | Raises e => Raise (connect_error (Transport e))
                 end)
  | _, _ => None
  end.

(** [n] callers that have not started, on a fresh lock. *)
Definition idle (n : nat) : tasks_state :=
  {| _conn_lock := asyncio.new_lock; tasks := repeat Idle n |}.

(** What is left of [_connect_client] once the lock is held: the rest
    [body] of the resolution, the connector, and the release. *)
Definition holding (self : SolemAPI) (body : Coroutine.coro BLEDevice)
  : Coroutine.coro BleakClient :=
  Coroutine.try_finally
    (Coroutine.bind body (fun ble_device =>
       Coroutine.try_except
         (Coroutine.establish_connection ble_device
            ("Solem - " ++ mac_address self) (bluetooth_timeout self) 3)
         (Coroutine.connect_handler)))
    (Coroutine.Release (Coroutine.Finished (Ok tt))).

(** The fallback scan of [_resolve_ble_device]. *)
Definition fallback_scan (self : SolemAPI) : Coroutine.coro BLEDevice :=
  Coroutine.bind (Coroutine.discover 5) (fun devices =>
    match scan_match self devices with
    | Some d => Coroutine.ret d
    | None => Coroutine.raise device_not_found
    end).

Definition code_at (self : SolemAPI) (c : pc) : Coroutine.coro BleakClient :=
  match c with
  | Idle | WaitLock => Coroutine._connect_client self
  | Resolving => holding self (Coroutine._resolve_ble_device self)
  | Scanning => holding self (fallback_scan self)
  | Connecting d => holding self (Coroutine.ret d)
  | Done r => Coroutine.Finished r
  end.

(** The task is inside the resolve-plus-connect critical section. *)
Definition in_cs (c : pc) : bool :=
  match c with
  | Resolving | Scanning | Connecting _ => true
  | _ => false
  end.

Definition is_done (c : pc) : bool :=
  match c with Done _ => true | _ => false end.

(** How many suspensions a task still has before it is done, at most. *)
Definition remaining_steps (c : pc) : nat :=
  match c with
  | Idle => 5
  | WaitLock => 4
  | Resolving => 3
  | Scanning => 2
  | Connecting _ => 1
  | Done _ => 0
  end.

Definition total_remaining (s : tasks_state) : nat :=
  list_sum (map remaining_steps (tasks s)).

Definition b2n (b : bool) : nat := if b then 1%nat else 0%nat.

Definition count_cs (l : list pc) : nat := List.length (filter in_cs l).

(** The invariant of the lock and the tasks. *)
Record lock_invariant (s : tasks_state) : Prop := {
  inv_holder :
    count_cs (tasks s) =
    if asyncio.locked (_conn_lock s) then 1%nat else 0%nat;
  inv_waiting :
    Forall (fun w => nth_error (tasks s) (fst w) = Some WaitLock)
           (asyncio.waiters (_conn_lock s));
  inv_queued :
    forall t, nth_error (tasks s) t = Some WaitLock ->
              In t (map fst (asyncio.waiters (_conn_lock s)));
  inv_woken :
    if asyncio.locked (_conn_lock s)
    then Forall (fun w => snd w = false) (asyncio.waiters (_conn_lock s))
    else match asyncio.waiters (_conn_lock s) with
         | [] => True
         | w :: rest => snd w = true /\ Forall (fun w' => snd w' = false) rest
         end
}.

(** The state of the event loop whose tasks are at the control points of
    [s]. *)
Definition at_points (self : SolemAPI) (s : tasks_state)
           (c : Coroutine.state BleakClient) : Prop :=
  Coroutine.lock c = _conn_lock s /\
  Coroutine.tasks c = map (code_at self) (tasks s).

(** The task awaits the scanner or the connector: it is between the
    start of its resolution and the end of its connect. *)
Definition in_flight {A} (c : Coroutine.coro A) : bool :=
  match c with
  | Coroutine.FindDeviceByAddress _ _ _ | Coroutine.Discover _ _
  | Coroutine.EstablishConnection _ _ _ _ _ => true
  | _ => false
  end.

Definition is_finished {A} (c : Coroutine.coro A) : bool :=
  match c with Coroutine.Finished _ => true | _ => false end.

(** The task is in the queue of the lock. *)
Definition queued {A} (t : nat) (s : Coroutine.state A) : bool :=
  asyncio.is_waiter t (asyncio.waiters (Coroutine.lock s)).

(** The states that the callers can reach from [s0]. *)
Inductive reachable {A} (s0 : Coroutine.state A) : Coroutine.state A -> Prop :=
| reachable_start : reachable s0 s0
| reachable_step s t a s' :
    reachable s0 s -> Coroutine.step t a s = Some s' -> reachable s0 s'.

(** The calls of a trace come in sections that follow one another: a
    section is opened by the acquire of a task and closed by its release,
    in between only that task makes calls (lookups, scans and tries of
    the connector), and nothing is called outside a section.
    [sections holder tr] is the task whose section is open after [tr]
    when [holder] is the one whose section is open before it, and [None]
    when the trace is not of that shape. *)
Fixpoint sections (holder : option nat) (tr : list (nat * event))
  : option (option nat) :=
  match tr with
  | [] => Some holder
  | (t, e) :: rest =>
      match holder, e with
      | None, EvAcquire => sections (Some t) rest
      | Some t', EvRelease =>
          if Nat.eqb t t' then sections None rest else None
      | Some t', EvFind _ _ | Some t', EvDiscover _ | Some t', EvConnect _ _ =>
          if Nat.eqb t t' then sections holder rest else None
      | _, _ => None
      end
  end.

(** The calls that a move between control points makes. *)
Definition move_events (self : SolemAPI) (t : nat) (a : answer)
           (s : tasks_state) : list event :=
  match nth_error (tasks s) t, a with
  | Some Idle, Go => if asyncio.free (_conn_lock s) then [EvAcquire] else []
  | Some WaitLock, Go => [EvAcquire]
  | Some Resolving, Found (Returns _) => [EvFind (mac_address self) 5]
  | Some Resolving, Found (Raises _) =>
      [EvFind (mac_address self) 5; EvRelease]
  | Some Scanning, Scanned (Returns devices) =>
      match scan_match self devices with
      | Some _ => [EvDiscover 5]
      | None => [EvDiscover 5; EvRelease]
      end
  | Some Scanning, Scanned (Raises _) => [EvDiscover 5; EvRelease]
  | Some (Connecting d), Established run =>
      repeat (EvConnect d (bluetooth_timeout self)) (tries run) ++ [EvRelease]
  | _, _ => []
  end.

(** The task whose section is open, at the control points. *)
Definition section_open (l : list pc) (holder : option nat) : Prop :=
  match holder with
  | Some t => exists c, nth_error l t = Some c /\ in_cs c = true
  | None => count_cs l = 0%nat
  end.

(** Two callers of one instance: the first is inside, awaiting the
    lookup of the device; the second has arrived since and waits for the
    lock. *)
Definition two_callers : Coroutine.state BleakClient :=
  {| Coroutine.lock := {| asyncio.locked := true;
                          asyncio.waiters := [(1%nat, false)] |};
     Coroutine.tasks := [holding api0 (Coroutine._resolve_ble_device api0);
                         Coroutine._connect_client api0];
     Coroutine.trace := [(0%nat, EvAcquire)] |}.

(** Everything works but the disconnect, which raises. *)
Definition disconnect_raises : Platform :=
  {| on_find_device_by_address := fun _ _ => Returns (Some solem_device);
     on_discover := fun _ => Returns [solem_device];
     on_establish_connection := fun _ _ _ _ _ =>
       {| tries := 1; concluded := Returns plain_client |};
     on_is_connected := fun _ _ => true;
     on_write_gatt_char := fun _ _ _ _ => None;
     on_disconnect := fun _ _ => Some OSError |}.

(** ** The platform calls of the API

    The arguments with which the methods of one [SolemAPI] call the
    platform: the lookup is by the configured address, lookup and scan
    take 5 seconds, the connector gets the configured timeout, a write
    goes to the command characteristic without response, and the back-off
    sleeps are the first two delays of the retry policy. *)

Definition api_event (self : SolemAPI) (e : event) : Prop :=
  match e with
  | EvFind addr timeout => addr = mac_address self /\ timeout = 5
  | EvDiscover timeout => timeout = 5
  | EvConnect _ timeout => timeout = bluetooth_timeout self
  | EvWrite uuid _ response _ =>
      uuid = characteristic_uuid self /\ response = false
  | EvSleep ms => ms = 400 \/ ms = 800
  | _ => True
  end.

Definition is_sleep (e : event) : bool :=
  match e with EvSleep _ => true | _ => false end.

(** The back-off time that a history asks for, in milliseconds. *)
Fixpoint total_sleep (evs : list event) : Z :=
  match evs with
  | [] => 0
  | EvSleep ms :: rest => ms + total_sleep rest
  | _ :: rest => total_sleep rest
  end.

(** The longest back-off of a retried call that has [remaining] more
    attempts after attempt [n]. *)
Fixpoint backoff (wait : nat -> Z) (remaining n : nat) : Z :=
  match remaining with
  | O => 0
  | S remaining' => Z.max 0 (wait n) + backoff wait remaining' (S n)
  end.

(** The messages of the [APIConnectionError]s that a control method can
    raise: those of the connect, and that of the check before the write. *)
Definition control_messages : list string :=
  ["Device not found! Failed connecting!";
   "Bluetooth adapter/proxy out of connection slots or device busy/unreachable";
   "Timeout connecting to device";
   "Unexpected BLE connection error";
   "Failed connecting!"].

(** The exceptions of a retried write: the retry library's error around
    the last attempt's. *)
Definition retry_failure (e : exn) : Prop :=
  e = RetryError (APIConnectionError "Client not connected") \/
  exists t, e = RetryError (Transport t).

(** The exception [e] is what the scanner raised in the resolution of a
    connect that started after the history [h]: on the address lookup, or
    on the scan that follows a lookup without result. *)
Definition scanner_raised (p : Platform) (addr : string) (h : history)
           (e : exn) : Prop :=
  exists t,
    e = Transport t /\
    (on_find_device_by_address p (h ++ [EvAcquire]) addr = Raises t \/
     (on_find_device_by_address p (h ++ [EvAcquire]) addr = Returns None /\
      on_discover p (h ++ [EvAcquire; EvFind addr 5]) = Raises t)).

(** The tries that the connector makes in a connect that starts after the
    history [h]: those of its one call, and none when the resolution
    fails. *)
Definition connector_tries (p : Platform) (self : SolemAPI) (h : history)
  : nat :=
  match _resolve_ble_device p self (h ++ [EvAcquire]) with
  | (Ok d, h1) => tries (connector_call p self d h1)
  | (Raise _, _) => 0%nat
  end.

(** The radio is lost right after the connect: the client never reports
    connected. *)
Definition lost_after_connect : Platform :=
  {| on_find_device_by_address := fun _ _ => Returns (Some solem_device);
     on_discover := fun _ => Returns [solem_device];
     on_establish_connection := fun _ _ _ _ _ =>
       {| tries := 1; concluded := Returns plain_client |};
     on_is_connected := fun _ _ => false;
     on_write_gatt_char := fun _ _ _ _ => Some std_exception;
     on_disconnect := fun _ _ => None |}.

(** ** Actions up to clamping *)

(** The action with its parameters clamped as its method clamps them. *)
Definition normalize (a : action) : action :=
  match a with
  | TurnOffXDays days => TurnOffXDays (Z.max 0 (Z.min days 365))
  | SprinkleStation station minutes =>
      SprinkleStation (Z.max 1 (Z.min station 16))
                      (Z.max 1 (Z.min minutes 240))
  | SprinkleAllStations minutes =>
      SprinkleAllStations (Z.max 1 (Z.min minutes 240))
  | RunProgram program => RunProgram (Z.max 1 (Z.min program 3))
  | _ => a
  end.

(** ** The topology dictionary *)

(** The last service of the list with the given uuid, the one whose entry
    survives in a dictionary keyed by uuid. *)
Fixpoint last_service (k : string) (svcs : list BleakGATTService)
  : option BleakGATTService :=
  match svcs with
  | [] => None
  | svc :: rest =>
      match last_service k rest with
      | Some s => Some s
      | None => if String.eqb k (svc_uuid svc) then Some svc else None
      end
  end.

(** The services that [list_characteristics] reads from a client: the
    [services] attribute, or else what [get_services] returns on the first
    of [_client] and [_bleak_client] that is there. *)
Definition client_services (c : BleakClient)
  : option (list BleakGATTService) :=
  match services c with
  | Some svcs => Some svcs
  | None =>
      match (match _client c with Some i => Some i
                                | None => _bleak_client c end) with
      | Some (Build_InnerClient (Some (Ok svcs))) => Some svcs
      | _ => None
      end
  end.

Definition is_get_services (e : event) : bool :=
  match e with EvGetServices => true | _ => false end.

(** A client whose two services carry the same uuid. *)
Definition battery_char : BleakGATTCharacteristic :=
  {| char_uuid := "2a19"; properties := ["read"]; descriptors := [] |}.

Definition command_char : BleakGATTCharacteristic :=
  {| char_uuid := CHARACTERISTIC_UUID;
     properties := ["write-without-response"];
     descriptors := [{| desc_uuid := "2902" |}] |}.

Definition twin_services : list BleakGATTService :=
  [{| svc_uuid := "180f"; characteristics := [battery_char] |};
   {| svc_uuid := "108b0001"; characteristics := [] |};
   {| svc_uuid := "180f"; characteristics := [command_char] |}].

Definition twin_client : BleakClient :=
  {| services := Some twin_services; _client := None; _bleak_client := None |}.

Definition twin_platform : Platform :=
  {| on_find_device_by_address := fun _ _ => Returns (Some solem_device);
     on_discover := fun _ => Returns [solem_device];
     on_establish_connection := fun _ _ _ _ _ =>
       {| tries := 1; concluded := Returns twin_client |};
     on_is_connected := fun _ _ => true;
     on_write_gatt_char := fun _ _ _ _ => None;
     on_disconnect := fun _ _ => None |}.

(** ** The service handlers *)

Definition host_outcome {A} (m : HM A) (h : history) : hresult A := fst (m h).

Definition host_events {A} (m : HM A) (h : history) : list event :=
  skipn (List.length h) (snd (m h)).

(** The exceptions with which a handler turns a payload down. *)
Definition rejected (e : host_exn) : Prop :=
  e = TypeError \/ e = ValueError \/ e = OverflowError \/
  e = HomeAssistantError "Invalid bluetooth_timeout".

(** The control action that a service name stands for. *)
Definition serves (name : string) (a : action) : Prop :=
  match a with
  | TurnOn => name = "turn_on"
  | TurnOffPermanent => name = "turn_off_permanent"
  | TurnOffXDays _ => name = "turn_off_x_days"
  | SprinkleStation _ _ => name = "sprinkle_station_x_for_y_minutes"
  | SprinkleAllStations _ => name = "sprinkle_all_stations_for_y_minutes"
  | RunProgram _ => name = "run_program_x"
  | StopManualSprinkle => name = "stop_manual_sprinkle"
  end.

(** The arguments of the platform calls made on behalf of a service call. *)
Definition service_event (call : ServiceCall) (e : event) : Prop :=
  match e with
  | EvFind addr timeout => addr = device_mac call /\ timeout = 5
  | EvDiscover timeout => timeout = 5
  | EvConnect _ timeout => 5 <= timeout
  | EvWrite uuid _ response _ =>
      uuid = CHARACTERISTIC_UUID /\ response = false
  | _ => True
  end.

(** The value that each optional field of a payload defaults to. *)
Definition service_defaults : list (string * pyvalue) :=
  [("days", PyInt 1); ("station", PyInt 1); ("minutes", PyInt 1);
   ("program", PyInt 1); ("bluetooth_timeout", PyInt 15)].

(** The call with one more field in front of its payload. *)
Definition with_field (k : string) (v : pyvalue) (call : ServiceCall)
  : ServiceCall :=
  {| device_mac := device_mac call; data := (k, v) :: data call |}.

(** A conversion of strings for the examples: two literals, and
    [ValueError] for the rest. *)
Definition two_literals (s : string) : option Z :=
  if String.eqb s "3" then Some 3
  else if String.eqb s "30" then Some 30
  else None.

Definition station_call : ServiceCall :=
  {| device_mac := "c8:b9:61:aa:bb:cc";
     data := [("station", PyStr "3"); ("minutes", PyInt 500);
              ("bluetooth_timeout", PyInt 2)] |}.

Definition pause_call : ServiceCall :=
  {| device_mac := "c8:b9:61:aa:bb:cc"; data := [("days", PyInt 300)] |}.

(** ** The topology reader *)

(** The wrapped client that [list_characteristics] falls back to. *)
Definition wrapped_client (c : BleakClient) : option InnerClient :=
  match _client c with
  | Some i => Some i
  | None => _bleak_client c
  end.

(** A client without the [services] attribute whose [_client] has no
    [get_services], although its [_bleak_client] has one. *)
Definition shadowed_client : BleakClient :=
  {| services := None;
     _client := Some {| get_services := None |};
     _bleak_client := Some {| get_services := Some (Ok twin_services) |} |}.

Definition shadowed_platform : Platform :=
  {| on_find_device_by_address := fun _ _ => Returns (Some solem_device);
     on_discover := fun _ => Returns [solem_device];
     on_establish_connection := fun _ _ _ _ _ =>
       {| tries := 1; concluded := Returns shadowed_client |};
     on_is_connected := fun _ _ => true;
     on_write_gatt_char := fun _ _ _ _ => None;
     on_disconnect := fun _ _ => None |}.

(** ** The lock and the session *)

Definition is_release (e : event) : bool :=
  match e with EvRelease => true | _ => false end.

(** The events of a session and of its cleanup. *)
Definition after_release (e : event) : Prop :=
  match e with
  | EvIsConnected _ | EvWrite _ _ _ _ | EvSleep _ | EvGetServices
  | EvDisconnect _ => True
  | _ => False
  end.

(** The events made while the lock is held. *)
Definition under_lock (e : event) : Prop :=
  match e with
  | EvAcquire | EvFind _ _ | EvDiscover _ | EvConnect _ _ => True
  | _ => False
  end.

(** * Properties *)

(** ** The command encoder *)

Lemma pack_field_B_in_range v :
  0 <= v <= 255 -> pack_field B v = Ok [v].
Proof.
  intros [Hlo Hhi]. unfold pack_field.
  apply Z.leb_le in Hlo. apply Z.leb_le in Hhi.
  now rewrite Hlo, Hhi.
Qed.

Lemma pack_field_B_out_of_range v :
  255 < v -> pack_field B v = Raise struct_error.
Proof.
  intros Hv. unfold pack_field.
  replace (v <=? 255) with false by (symmetry; apply Z.leb_gt; lia).
  now rewrite andb_false_r.
Qed.

Lemma clamp_range lo hi x : lo <= hi -> lo <= clamp lo hi x <= hi.
Proof. unfold clamp. lia. Qed.

Lemma clamp_inside lo hi x : lo <= x <= hi -> clamp lo hi x = x.
Proof. unfold clamp. lia. Qed.

Lemma clamp_below lo hi x : lo <= hi -> x <= lo -> clamp lo hi x = lo.
Proof. unfold clamp. lia. Qed.

Lemma clamp_above lo hi x : lo <= hi -> hi <= x -> clamp lo hi x = hi.
Proof. unfold clamp. lia. Qed.

(** Every action but a pause of more than 255 days is encoded as the table
    says; a pause of more than 255 days makes [struct.pack] raise. *)
Lemma encode_table_or_error (a : action) :
  (encode a = Ok (frame_table a) /\ Forall is_byte (frame_table a)) \/
  (exists days, a = TurnOffXDays days /\ 255 < days /\
                encode a = Raise struct_error).
Proof.
  destruct a as [| | days | station minutes | minutes | program |].
  - left. split; [reflexivity | repeat constructor; unfold is_byte; lia].
  - left. split; [reflexivity | repeat constructor; unfold is_byte; lia].
  - destruct (Z_le_gt_dec days 255) as [Hle | Hgt].
    + left.
      assert (Hr : 0 <= clamp 0 365 days <= 255) by (unfold clamp; lia).
      split.
      * cbn [encode frame_table]. unfold turn_off_x_days_command, HBBBH.
        fold (clamp 0 365 days).
        cbn [pack]. rewrite (pack_field_B_in_range _ Hr). reflexivity.
      * cbn [frame_table]. repeat constructor; unfold is_byte; lia.
    + right. exists days. split; [reflexivity | split; [lia |]].
      cbn [encode]. unfold turn_off_x_days_command, HBBBH.
      cbn [pack].
      rewrite (pack_field_B_out_of_range (Z.max 0 (Z.min days 365))) by lia.
      reflexivity.
  - left.
    assert (Hs : 0 <= clamp 1 16 station <= 255) by (unfold clamp; lia).
    assert (Hm : 0 <= clamp 1 240 minutes <= 255) by (unfold clamp; lia).
    split.
    + cbn [encode frame_table].
      unfold sprinkle_station_x_for_y_minutes_command, HBBBBH.
      fold (clamp 1 16 station). fold (clamp 1 240 minutes).
      cbn [pack]. rewrite (pack_field_B_in_range _ Hs).
      rewrite (pack_field_B_in_range _ Hm). reflexivity.
    + cbn [frame_table]. repeat constructor; unfold is_byte; lia.
  - left.
    assert (Hm : 0 <= clamp 1 240 minutes <= 255) by (unfold clamp; lia).
    split.
    + cbn [encode frame_table].
      unfold sprinkle_all_stations_for_y_minutes_command, HBBBH.
      fold (clamp 1 240 minutes).
      cbn [pack]. rewrite (pack_field_B_in_range _ Hm). reflexivity.
    + cbn [frame_table]. repeat constructor; unfold is_byte; lia.
  - left.
    assert (Hp : 0 <= clamp 1 3 program <= 255) by (unfold clamp; lia).
    split.
    + cbn [encode frame_table]. unfold run_program_x_command, HBBBH.
      fold (clamp 1 3 program).
      cbn [pack]. rewrite (pack_field_B_in_range _ Hp). reflexivity.
    + cbn [frame_table]. repeat constructor; unfold is_byte; lia.
  - left. split; [reflexivity | repeat constructor; unfold is_byte; lia].
Qed.

(** ** Histories *)

Lemma skipn_length_app {X} (l l' : list X) : skipn (List.length l) (l ++ l') = l'.
Proof. induction l; simpl; auto. Qed.

Lemma only_new_events {A} P (m : M A) h :
  only P m -> snd (m h) = h ++ new_events m h /\ Forall P (new_events m h).
Proof.
  intros Hm. destruct (Hm h) as (evs & Heq & Hall).
  unfold new_events. rewrite Heq, skipn_length_app. auto.
Qed.

Lemma only_weaken {A} (P Q : event -> Prop) (m : M A) :
  (forall e, P e -> Q e) -> only P m -> only Q m.
Proof.
  intros HPQ Hm h. destruct (Hm h) as (evs & Heq & Hall).
  exists evs. split; [assumption |].
  eapply Forall_impl; eauto.
Qed.

Section Only.

Variable P : event -> Prop.

Lemma only_ret {A} (a : A) : only P (ret a).
Proof. intros h. exists []. rewrite app_nil_r. auto. Qed.

Lemma only_raise {A} e : only P (@raise A e).
Proof. intros h. exists []. rewrite app_nil_r. auto. Qed.

Lemma only_lift {A} (r : result A) : only P (lift r).
Proof. intros h. exists []. rewrite app_nil_r. auto. Qed.

Lemma only_emit e : P e -> only P (emit e).
Proof. intros He h. exists [e]. auto. Qed.

Lemma only_bind {A B} (m : M A) (k : A -> M B) :
  only P m -> (forall a, only P (k a)) -> only P (bind m k).
Proof.
  intros Hm Hk h. unfold bind.
  destruct (Hm h) as (evs & Heq & Hall).
  destruct (m h) as [[a | e] h1]; simpl in Heq; subst h1.
  - destruct (Hk a (h ++ evs)) as (evs' & Heq' & Hall').
    exists (evs ++ evs'). rewrite Heq', app_assoc.
    split; [reflexivity | apply Forall_app; auto].
  - exists evs. auto.
Qed.

Lemma only_try_except {A} (m : M A) handler :
  only P m -> (forall e, only P (handler e)) -> only P (try_except m handler).
Proof.
  intros Hm Hk h. unfold try_except.
  destruct (Hm h) as (evs & Heq & Hall).
  destruct (m h) as [[a | e] h1]; simpl in Heq; subst h1.
  - exists evs. auto.
  - destruct (Hk e (h ++ evs)) as (evs' & Heq' & Hall').
    exists (evs ++ evs'). rewrite Heq', app_assoc.
    split; [reflexivity | apply Forall_app; auto].
Qed.

Lemma only_try_finally {A} (m : M A) cleanup :
  only P m -> only P cleanup -> only P (try_finally m cleanup).
Proof.
  intros Hm Hc h. unfold try_finally.
  destruct (Hm h) as (evs & Heq & Hall).
  destruct (m h) as [r h1]; simpl in Heq; subst h1.
  destruct (Hc (h ++ evs)) as (evs' & Heq' & Hall').
  exists (evs ++ evs').
  destruct (cleanup (h ++ evs)) as [[u | e] h2]; simpl in Heq'; subst h2;
    simpl; rewrite app_assoc; (split; [reflexivity | apply Forall_app; auto]).
Qed.

Lemma only_async_with_lock {A} (body : M A) :
  P EvAcquire -> P EvRelease -> only P body -> only P (async_with_lock body).
Proof.
  intros Ha Hr Hb. unfold async_with_lock.
  apply only_bind; [now apply only_emit |]. intros _.
  apply only_try_finally; [assumption | now apply only_emit].
Qed.

Lemma only_retrying {A} wait (f : M A) remaining :
  only P f -> (forall ms, P (EvSleep ms)) ->
  forall attempt_number,
    only P (tenacity.retrying wait remaining attempt_number f).
Proof.
  intros Hf Hs. induction remaining as [| remaining IH]; intros n h; simpl.
  - destruct (Hf h) as (evs & Heq & Hall).
    destruct (f h) as [[a | e] h1]; simpl in Heq; subst h1;
      exists evs; auto.
  - destruct (Hf h) as (evs & Heq & Hall).
    destruct (f h) as [[a | e] h1]; simpl in Heq; subst h1.
    + exists evs; auto.
    + destruct (IH (S n) ((h ++ evs) ++ [EvSleep (wait n)]))
        as (evs' & Heq' & Hall').
      exists (evs ++ EvSleep (wait n) :: evs').
      rewrite Heq'. rewrite <- !app_assoc. simpl.
      split; [reflexivity |].
      apply Forall_app. split; [assumption |]. constructor; auto.
Qed.

Lemma only_establish_connection p device name timeout max_attempts :
  P (EvConnect device timeout) ->
  only P (establish_connection p device name timeout max_attempts).
Proof.
  intros Hc h. unfold establish_connection.
  eexists. split; [reflexivity |].
  apply Forall_forall. intros e He. apply repeat_spec in He. now subst e.
Qed.

End Only.

Lemma new_events_eq {A} (m : M A) h evs :
  snd (m h) = h ++ evs -> new_events m h = evs.
Proof. intros Heq. unfold new_events. now rewrite Heq, skipn_length_app. Qed.

Lemma count_app f evs evs' : count f (evs ++ evs') = (count f evs + count f evs')%nat.
Proof. unfold count. now rewrite filter_app, length_app. Qed.

Lemma count_none f evs : Forall (fun e => f e = false) evs -> count f evs = 0%nat.
Proof.
  unfold count. induction 1 as [| e evs He _ IH]; simpl; [reflexivity |].
  now rewrite He.
Qed.

Section MethodEvents.

Variable p : Platform.
Variable self : SolemAPI.

Lemma only_find_device_by_address (P : event -> Prop) addr timeout :
  P (EvFind addr timeout) -> only P (find_device_by_address p addr timeout).
Proof. intros H h. exists [EvFind addr timeout]. simpl. auto. Qed.

Lemma only_discover (P : event -> Prop) timeout :
  P (EvDiscover timeout) -> only P (discover p timeout).
Proof. intros H h. exists [EvDiscover timeout]. simpl. auto. Qed.

Lemma only_is_connected (P : event -> Prop) client :
  (forall b, P (EvIsConnected b)) -> only P (is_connected p client).
Proof.
  intros H h. exists [EvIsConnected (on_is_connected p h client)].
  simpl. auto.
Qed.

Lemma only_write_gatt_char (P : event -> Prop) client uuid payload response :
  (forall r, P (EvWrite uuid payload response r)) ->
  only P (write_gatt_char p client uuid payload response).
Proof.
  intros H h.
  exists [EvWrite uuid payload response
                  (on_write_gatt_char p h client uuid payload)].
  simpl. auto.
Qed.

Lemma only_disconnect (P : event -> Prop) client :
  (forall r, P (EvDisconnect r)) -> only P (disconnect p client).
Proof.
  intros H h. exists [EvDisconnect (on_disconnect p h client)]. simpl. auto.
Qed.

Lemma only_resolve (P : event -> Prop) :
  (forall a t, P (EvFind a t)) -> (forall t, P (EvDiscover t)) ->
  only P (_resolve_ble_device p self).
Proof.
  intros Hf Hd. unfold _resolve_ble_device.
  apply only_bind; [now apply only_find_device_by_address |].
  intros [d |]; [apply only_ret |].
  apply only_bind; [now apply only_discover |].
  intros devices. destruct (scan_match self devices);
    [apply only_ret | apply only_raise].
Qed.

Lemma only_connect_handler (P : event -> Prop) e : only P (connect_handler e).
Proof. apply only_raise. Qed.

Lemma connecting_connect_client : only connecting (_connect_client p self).
Proof.
  unfold _connect_client.
  apply only_async_with_lock; try exact I.
  apply only_bind; [apply only_resolve; simpl; auto |].
  intros d. apply only_try_except; [| apply only_connect_handler].
  apply only_establish_connection. exact I.
Qed.

Lemma writing_write_attempt client payload :
  only (writing (characteristic_uuid self) payload)
       (write_attempt p self client payload).
Proof.
  unfold write_attempt.
  apply only_bind; [apply only_is_connected; simpl; auto |].
  intros b. destruct (negb b); [apply only_raise |].
  apply only_write_gatt_char. simpl. auto.
Qed.

Lemma writing_write_with_auth_retry client payload :
  only (writing (characteristic_uuid self) payload)
       (_write_with_auth_retry p self client payload).
Proof.
  unfold _write_with_auth_retry, tenacity.retry.
  apply only_retrying; [apply writing_write_attempt | simpl; auto].
Qed.

End MethodEvents.

(** ** Device resolution *)

(** Lower-casing changes the case of letters only once: two addresses
    that differ in case alone have the same lower-cased form. *)
Lemma ascii_lower_idempotent c : ascii_lower (ascii_lower c) = ascii_lower c.
Proof. destruct c as [[] [] [] [] [] [] [] []]; reflexivity. Qed.

Lemma lower_idempotent s : lower (lower s) = lower s.
Proof.
  induction s as [| c s IH]; simpl; [reflexivity |].
  now rewrite ascii_lower_idempotent, IH.
Qed.

Lemma lower_mac_example : lower "C8:B9:61:AA:BB:CC" = "c8:b9:61:aa:bb:cc".
Proof. reflexivity. Qed.

Section Resolution.

Variable p : Platform.
Variable self : SolemAPI.

Lemma scan_match_some devices d :
  scan_match self devices = Some d ->
  exists pre post,
    devices = pre ++ d :: post /\
    Forall (fun d' => ~ address_matches self d') pre /\
    address_matches self d.
Proof.
  induction devices as [| d0 rest IH]; simpl; [discriminate |].
  destruct (String.eqb_spec (lower (or_empty (address d0)))
                            (lower (mac_address self))) as [Heq | Hne].
  - intros [= <-]. exists [], rest. repeat split; auto.
  - intros Hrest. destruct (IH Hrest) as (pre & post & -> & Hpre & Hd).
    exists (d0 :: pre), post. repeat split; auto.
Qed.

Lemma scan_match_none devices :
  scan_match self devices = None ->
  Forall (fun d' => ~ address_matches self d') devices.
Proof.
  induction devices as [| d0 rest IH]; simpl; [constructor |].
  destruct (String.eqb_spec (lower (or_empty (address d0)))
                            (lower (mac_address self))) as [Heq | Hne].
  - discriminate.
  - intros Hrest. constructor; auto.
Qed.

Lemma resolve_unfold h :
  _resolve_ble_device p self h =
  let h1 := h ++ [EvFind (mac_address self) 5] in
  match on_find_device_by_address p h (mac_address self) with
  | Returns (Some d) => (Ok d, h1)
  | Returns None =>
      (match on_discover p h1 with
       | Returns devices =>
           match scan_match self devices with
           | Some d => Ok d
           | None => Raise device_not_found
           end
       | Raises e => Raise (Transport e)
       end, h1 ++ [EvDiscover 5])
  | Raises e => (Raise (Transport e), h1)
  end.
Proof.
  unfold _resolve_ble_device, bind, find_device_by_address, discover, ret,
    raise. simpl.
  destruct (on_find_device_by_address p h (mac_address self)) as [[d |] | e];
    try reflexivity.
  simpl. destruct (on_discover p _) as [devices | e]; [| reflexivity].
  simpl. destruct (scan_match self devices); reflexivity.
Qed.

(** C5. Resolution tries the direct address lookup first; a match is
    returned at once and the history then holds the lookup alone, no scan.
    Otherwise one discovery scan follows and the result is the first
    device of the scan whose address equals the configured address after
    lower-casing both (a missing address being compared as the empty
    string); with no such device the call raises the device-not-found
    error. An exception of the lookup or of the scan itself ends the
    resolution there and is passed on as it is. *)
Theorem resolve_direct_lookup_then_first_scan_match h :
  let mac := mac_address self in
  let h1 := h ++ [EvFind mac 5] in
  match on_find_device_by_address p h mac with
  | Returns (Some d) => _resolve_ble_device p self h = (Ok d, h1)
  | Returns None =>
      match on_discover p h1 with
      | Returns devices =>
          exists r,
            _resolve_ble_device p self h = (r, h1 ++ [EvDiscover 5]) /\
            ((exists pre d post,
                 devices = pre ++ d :: post /\
                 Forall (fun d' => ~ address_matches self d') pre /\
                 address_matches self d /\ r = Ok d)
             \/ (Forall (fun d' => ~ address_matches self d') devices /\
                 r = Raise (APIConnectionError
                              "Device not found! Failed connecting!")))
      | Raises e =>
          _resolve_ble_device p self h =
            (Raise (Transport e), h1 ++ [EvDiscover 5])
      end
  | Raises e => _resolve_ble_device p self h = (Raise (Transport e), h1)
  end.
Proof.
  intros mac h1. rewrite resolve_unfold. cbv zeta. subst mac h1.
  destruct (on_find_device_by_address p h (mac_address self)) as [[d |] | e];
    try reflexivity.
  destruct (on_discover p _) as [devices | e]; [| reflexivity].
  destruct (scan_match self devices) as [d |] eqn:Hscan.
  - exists (Ok d). split; [reflexivity |]. left.
    destruct (scan_match_some _ _ Hscan) as (pre & post & Hsplit & Hpre & Hd).
    exists pre, d, post. auto.
  - exists (Raise device_not_found). split; [reflexivity |]. right.
    split; [now apply scan_match_none | reflexivity].
Qed.

(** The resolver makes one lookup and at most one scan, whatever happens. *)
Lemma resolve_events h :
  let evs := new_events (_resolve_ble_device p self) h in
  snd (_resolve_ble_device p self h) = h ++ evs /\
  (evs = [EvFind (mac_address self) 5] \/
   evs = [EvFind (mac_address self) 5; EvDiscover 5]).
Proof.
  cbv zeta.
  assert (H : exists evs, snd (_resolve_ble_device p self h) = h ++ evs /\
              (evs = [EvFind (mac_address self) 5] \/
               evs = [EvFind (mac_address self) 5; EvDiscover 5])).
  { rewrite resolve_unfold. cbv zeta.
    destruct (on_find_device_by_address p h (mac_address self)) as [[d |] | e];
      simpl.
    - eexists. split; [reflexivity | auto].
    - eexists. rewrite <- app_assoc. split; [reflexivity | auto].
    - eexists. split; [reflexivity | auto]. }
  destruct H as (evs & Heq & Hevs).
  rewrite (new_events_eq _ _ _ Heq). auto.
Qed.

End Resolution.

(** C5, on a scan: the direct lookup finds nothing, the scan reports a
    device without an address and then the controller, whose address
    differs from the configured one in case only. *)
Lemma resolve_falls_back_to_scan :
  exists r,
    _resolve_ble_device addressless_scan api0 [] =
      (r, [EvFind "c8:b9:61:aa:bb:cc" 5; EvDiscover 5]) /\
    r = Ok solem_device.
Proof.
  destruct (resolve_direct_lookup_then_first_scan_match addressless_scan api0 [])
    as (r & Hrun & _).
  exists r. split; [exact Hrun |].
  vm_compute in Hrun. now injection Hrun as <-.
Defined.


(** ** The connection manager *)

Section Connection.

Variable p : Platform.
Variable self : SolemAPI.

Lemma connect_handler_raises e h :
  exists msg, connect_handler e h = (Raise (APIConnectionError msg), h).
Proof.
  unfold connect_handler, raise.
  destruct e as [msg | | last | []]; simpl; eauto.
Qed.

Lemma connect_handler_transport t h :
  connect_handler (Transport t) h =
  (Raise (APIConnectionError (connection_error_message t)), h).
Proof. destruct t; reflexivity. Qed.

Lemma connect_client_unfold h :
  _connect_client p self h =
  match _resolve_ble_device p self (h ++ [EvAcquire]) with
  | (Raise e, h1) => (Raise e, h1 ++ [EvRelease])
  | (Ok d, h1) =>
      match establish_connection p d ("Solem - " ++ mac_address self)
                                 (bluetooth_timeout self) 3 h1 with
      | (Ok c, h2) => (Ok c, h2 ++ [EvRelease])
      | (Raise e, h2) => (fst (connect_handler e h2), h2 ++ [EvRelease])
      end
  end.
Proof.
  unfold _connect_client, async_with_lock, bind, emit, try_finally, try_except.
  destruct (_resolve_ble_device p self (h ++ [EvAcquire])) as [[d | e] h1];
    [| reflexivity].
  destruct (establish_connection p d _ _ 3 h1) as [[c | e] h2]; [reflexivity |].
  destruct (connect_handler_raises e h2) as (msg & ->). reflexivity.
Qed.

(** What [_connect_client] returns or raises, case by case. *)
Lemma connect_client_outcome h :
  outcome (_connect_client p self) h =
  match _resolve_ble_device p self (h ++ [EvAcquire]) with
  | (Raise e, _) => Raise e
  | (Ok d, h1) =>
      match concluded (connector_call p self d h1) with
      | Returns c => Ok c
      | Raises t => Raise (APIConnectionError (connection_error_message t))
      end
  end.
Proof.
  unfold outcome. rewrite connect_client_unfold.
  destruct (_resolve_ble_device p self (h ++ [EvAcquire])) as [[d | e] h1];
    [| reflexivity].
  unfold establish_connection, connector_call.
  destruct (concluded (on_establish_connection p h1 d _ _ 3)) as [c | t];
    simpl; [reflexivity |].
  now destruct t.
Qed.

(** The shape of every run of [_connect_client]. *)
Lemma connect_client_events h :
  exists connects,
    snd (_connect_client p self h) =
      h ++ EvAcquire :: new_events (_resolve_ble_device p self) (h ++ [EvAcquire])
        ++ connects ++ [EvRelease] /\
    match _resolve_ble_device p self (h ++ [EvAcquire]) with
    | (Ok d, h1) =>
        connects = repeat (EvConnect d (bluetooth_timeout self))
                          (tries (connector_call p self d h1))
    | (Raise _, _) => connects = []
    end.
Proof.
  rewrite connect_client_unfold.
  destruct (resolve_events p self (h ++ [EvAcquire])) as [Hsnd _].
  cbv zeta in Hsnd.
  set (evs := new_events (_resolve_ble_device p self) (h ++ [EvAcquire])) in *.
  destruct (_resolve_ble_device p self (h ++ [EvAcquire])) as [[d | e] h1];
    simpl in Hsnd; subst h1.
  - exists (repeat (EvConnect d (bluetooth_timeout self))
                   (tries (connector_call p self d ((h ++ [EvAcquire]) ++ evs)))).
    split; [| reflexivity].
    unfold establish_connection, connector_call.
    destruct (concluded (on_establish_connection p _ d _ _ 3)) as [c | t];
      simpl; rewrite <- !app_assoc; reflexivity.
  - exists []. split; [| reflexivity]. simpl.
    rewrite <- !app_assoc. reflexivity.
Qed.

Lemma count_repeat_connect f d t k :
  f (EvConnect d t) = false -> count f (repeat (EvConnect d t) k) = 0%nat.
Proof.
  intros Hf. apply count_none. apply Forall_forall.
  intros e He. apply repeat_spec in He. now subst e.
Qed.

(** A failed resolution raises the device-not-found error or what the
    scanner raised. *)
Lemma resolve_raises h e :
  outcome (_resolve_ble_device p self) h = Raise e ->
  e = device_not_found \/
  exists t, e = Transport t /\
    (on_find_device_by_address p h (mac_address self) = Raises t \/
     (on_find_device_by_address p h (mac_address self) = Returns None /\
      on_discover p (h ++ [EvFind (mac_address self) 5]) = Raises t)).
Proof.
  unfold outcome. rewrite resolve_unfold. cbv zeta.
  destruct (on_find_device_by_address p h (mac_address self)) as [[d |] | t];
    simpl.
  - discriminate.
  - destruct (on_discover p _) as [devices | t].
    + destruct (scan_match self devices); [discriminate |].
      intros [= <-]. now left.
    + intros [= <-]. right. eauto.
  - intros [= <-]. right. eauto.
Qed.

End Connection.

(** C6, as the code has it. One call of the connect operation resolves the
    device exactly once (one address lookup, at most one scan, no retry in
    the resolver), and only then hands the resolved device to the
    connector, in one call with an attempt budget of 3: all the tries that
    the connector makes in that call go to that same device with no
    resolution in between; when resolution fails no try is made. *)
Theorem connect_resolves_once_for_all_tries (p : Platform) (self : SolemAPI)
        (h : history) :
  exists connects,
    new_events (_connect_client p self) h =
      EvAcquire :: new_events (_resolve_ble_device p self) (h ++ [EvAcquire])
        ++ connects ++ [EvRelease] /\
    count is_find (new_events (_connect_client p self) h) = 1%nat /\
    (count is_discover (new_events (_connect_client p self) h) <= 1)%nat /\
    count is_find connects = 0%nat /\
    count is_discover connects = 0%nat /\
    match _resolve_ble_device p self (h ++ [EvAcquire]) with
    | (Ok d, h1) =>
        connects =
          repeat (EvConnect d (bluetooth_timeout self))
                 (tries (on_establish_connection p h1 d
                           ("Solem - " ++ mac_address self)
                           (bluetooth_timeout self) 3))
    | (Raise _, _) => connects = []
    end.
Proof.
  destruct (connect_client_events p self h) as (connects & Hsnd & Hconnects).
  exists connects.
  assert (Hfind : count is_find connects = 0%nat).
  { destruct (_resolve_ble_device p self (h ++ [EvAcquire])) as [[d | e] h1].
    - rewrite Hconnects. now apply count_repeat_connect.
    - now subst connects. }
  assert (Hdisc : count is_discover connects = 0%nat).
  { destruct (_resolve_ble_device p self (h ++ [EvAcquire])) as [[d | e] h1].
    - rewrite Hconnects. now apply count_repeat_connect.
    - now subst connects. }
  rewrite (new_events_eq _ _ _ Hsnd).
  split; [reflexivity |].
  change (EvAcquire :: ?l) with ([EvAcquire] ++ l).
  rewrite !count_app, Hfind, Hdisc.
  destruct (resolve_events p self (h ++ [EvAcquire])) as [_ [-> | ->]];
    repeat split; auto.
Qed.

(** C6, counterexample. When the connector makes three tries, the three
    tries follow a single address lookup: no resolution separates one try
    from the next. *)
Lemma three_tries_after_one_resolution :
  new_events (_connect_client unreachable api0) [] =
    [EvAcquire; EvFind "c8:b9:61:aa:bb:cc" 5;
     EvConnect solem_device 15; EvConnect solem_device 15;
     EvConnect solem_device 15; EvRelease] /\
  ~ resolution_before_every_try
      (new_events (_connect_client unreachable api0) []).
Proof.
  assert (Hev : new_events (_connect_client unreachable api0) [] =
    [EvAcquire; EvFind "c8:b9:61:aa:bb:cc" 5;
     EvConnect solem_device 15; EvConnect solem_device 15;
     EvConnect solem_device 15; EvRelease]) by reflexivity.
  split; [exact Hev |].
  rewrite Hev. intros Hres.
  specialize (Hres [EvAcquire; EvFind "c8:b9:61:aa:bb:cc" 5]
                   solem_device 15 [] solem_device 15
                   [EvConnect solem_device 15; EvRelease] eq_refl).
  inversion Hres.
Qed.

(** When the connect raises, the write-and-commit call raises the same
    exception and writes nothing. *)
Lemma failed_connect_writes_nothing (p : Platform) (self : SolemAPI)
      (command : list Z) (h : history) (e : exn) :
  outcome (_connect_client p self) h = Raise e ->
  outcome (_write_and_commit p self command) h = Raise e /\
  new_events (_write_and_commit p self command) h =
    new_events (_connect_client p self) h /\
  count is_write (new_events (_write_and_commit p self command) h) = 0%nat.
Proof.
  intros Hout.
  destruct (only_new_events _ _ h (connecting_connect_client p self))
    as [Hsnd Hall].
  assert (Hrun : _write_and_commit p self command h =
                 (Raise e, h ++ new_events (_connect_client p self) h)).
  { unfold _write_and_commit, bind. unfold outcome in Hout.
    destruct (_connect_client p self h) as [[c | e0] h1] eqn:Hc;
      simpl in Hout; [discriminate |].
    injection Hout as ->. f_equal. exact Hsnd. }
  unfold outcome. rewrite Hrun. split; [reflexivity |].
  rewrite (new_events_eq _ _ _ (f_equal snd Hrun)).
  split; [reflexivity |].
  apply count_none. eapply Forall_impl; [| exact Hall].
  intros [] Hc; simpl in Hc; try contradiction; reflexivity.
Qed.

(** X17. Once the device is resolved, a failure of the connector always
    surfaces as [APIConnectionError], with the message of the class of
    the exception that the connector raised: slot exhaustion or busy
    device for [BleakOutOfConnectionSlotsError], the timeout message for
    [BleakDBusError], [TimeoutError] and [OSError], the unexpected-error
    message for anything else. The write-and-commit call then raises that
    same error and its history holds no write. *)
Theorem connector_failure_is_classified (p : Platform) (self : SolemAPI)
        (command : list Z) (h : history) (d : BLEDevice) (h1 : history)
        (t : transport_exn) :
  _resolve_ble_device p self (h ++ [EvAcquire]) = (Ok d, h1) ->
  concluded (on_establish_connection p h1 d ("Solem - " ++ mac_address self)
               (bluetooth_timeout self) 3) = Raises t ->
  outcome (_connect_client p self) h =
    Raise (APIConnectionError (connection_error_message t)) /\
  outcome (_write_and_commit p self command) h =
    Raise (APIConnectionError (connection_error_message t)) /\
  count is_write (new_events (_write_and_commit p self command) h) = 0%nat.
Proof.
  intros Hres Hrun.
  assert (Hout : outcome (_connect_client p self) h =
                 Raise (APIConnectionError (connection_error_message t))).
  { rewrite connect_client_outcome, Hres. unfold connector_call.
    now rewrite Hrun. }
  split; [exact Hout |].
  destruct (failed_connect_writes_nothing p self command h _ Hout)
    as (Hw & _ & Hc).
  auto.
Qed.

(** X17, on the scenario of the specification: the adapter is out of
    slots. *)
Lemma connector_failure_is_classified_out_of_slots :
  outcome (_write_and_commit out_of_slots api0 [0x31; 0x05]) [] =
    Raise (APIConnectionError
      "Bluetooth adapter/proxy out of connection slots or device busy/unreachable")
  /\ count is_write
       (new_events (_write_and_commit out_of_slots api0 [0x31; 0x05]) []) = 0%nat.
Proof.
  exact (proj2 (connector_failure_is_classified out_of_slots api0 [0x31; 0x05]
                  [] solem_device [EvAcquire; EvFind "c8:b9:61:aa:bb:cc" 5]
                  BleakOutOfConnectionSlotsError eq_refl eq_refl)).
Defined.

(** C8, at the failing input. The adapter is not ready and the address
    lookup raises: the exception leaves [_connect_client] as it is, not
    as an [APIConnectionError], because the resolution is awaited before
    the [try] block whose handlers do the classification; the control
    method passes it on unchanged, with no connection try and no write.
    Had the connector raised the same exception, the handlers would have
    turned it into the timeout message. *)
Theorem scanner_error_is_not_classified :
  _connect_client adapter_not_ready api0 [] =
    (Raise (Transport BleakDBusError),
     [EvAcquire; EvFind "c8:b9:61:aa:bb:cc" 5; EvRelease]) /\
  perform adapter_not_ready api0 TurnOn [] =
    (Raise (Transport BleakDBusError),
     [EvAcquire; EvFind "c8:b9:61:aa:bb:cc" 5; EvRelease]) /\
  (forall msg, Transport BleakDBusError <> APIConnectionError msg) /\
  connect_error (Transport BleakDBusError) =
    APIConnectionError "Timeout connecting to device".
Proof. repeat split. discriminate. Qed.

(** ** The write pipeline *)

Section Pipeline.

Variable p : Platform.
Variable self : SolemAPI.

Lemma best_effort_disconnect_run client h :
  best_effort_disconnect p client h =
  (Ok tt, h ++ [EvDisconnect (on_disconnect p h client)]).
Proof.
  unfold best_effort_disconnect, try_except, disconnect, ret.
  destruct (on_disconnect p h client); reflexivity.
Qed.

Lemma connecting_not_disconnect evs :
  Forall connecting evs -> count is_disconnect evs = 0%nat.
Proof.
  intros Hall. apply count_none. eapply Forall_impl; [| exact Hall].
  intros [] Hc; simpl in Hc; try contradiction; reflexivity.
Qed.

Lemma in_session_not_disconnect evs :
  Forall in_session evs -> count is_disconnect evs = 0%nat.
Proof.
  intros Hall. apply count_none. eapply Forall_impl; [| exact Hall].
  intros [] Hc; simpl in Hc; try contradiction; reflexivity.
Qed.

(** Connect, run the body, disconnect in the [finally]. *)
Lemma scoped_session {A} (body : BleakClient -> M A) h :
  (forall c, only in_session (body c)) ->
  released_once p (_connect_client p self) body
    (bind (_connect_client p self)
          (fun client => try_finally (body client)
                                     (best_effort_disconnect p client)))
    h.
Proof.
  intros Hbody. unfold released_once.
  destruct (only_new_events _ _ h (connecting_connect_client p self))
    as [Hsnd Hall].
  set (evsC := new_events (_connect_client p self) h) in *.
  assert (HC : count is_disconnect evsC = 0%nat)
    by now apply connecting_not_disconnect.
  destruct (_connect_client p self h) as [[c | e] h1] eqn:Hconn;
    simpl in Hsnd; subst h1.
  - destruct (only_new_events _ _ (h ++ evsC) (Hbody c)) as [HsndB HallB].
    set (evsB := new_events (body c) (h ++ evsC)) in *.
    assert (HB : count is_disconnect evsB = 0%nat)
      by now apply in_session_not_disconnect.
    assert (Hrun : bind (_connect_client p self)
              (fun client => try_finally (body client)
                               (best_effort_disconnect p client)) h =
            (fst (body c (h ++ evsC)),
             h ++ evsC ++ evsB
               ++ [EvDisconnect (on_disconnect p (snd (body c (h ++ evsC))) c)])).
    { unfold bind, try_finally. rewrite Hconn.
      destruct (body c (h ++ evsC)) as [r h2] eqn:Hb. simpl in HsndB.
      rewrite best_effort_disconnect_run. simpl. subst h2.
      now rewrite <- !app_assoc. }
    unfold outcome at 1. rewrite Hrun. simpl fst.
    rewrite (new_events_eq _ _ _ (f_equal snd Hrun)).
    repeat split.
    rewrite !count_app, HC, HB. reflexivity.
  - assert (Hrun : bind (_connect_client p self)
              (fun client => try_finally (body client)
                               (best_effort_disconnect p client)) h =
            (Raise e, h ++ evsC)).
    { unfold bind. now rewrite Hconn. }
    unfold outcome. rewrite Hrun. simpl fst.
    rewrite (new_events_eq _ _ _ (f_equal snd Hrun)). auto.
Qed.

Lemma writing_in_session uuid payload e : writing uuid payload e -> in_session e.
Proof. destruct e; simpl; auto. Qed.

Lemma in_session_write_and_commit_body client command :
  only in_session (write_and_commit_body p self client command).
Proof.
  unfold write_and_commit_body.
  apply only_bind; [apply only_is_connected; simpl; auto |].
  intros b. destruct (negb b); [apply only_raise |].
  apply only_bind.
  { eapply only_weaken; [| apply writing_write_with_auth_retry].
    apply writing_in_session. }
  intros _. apply only_bind; [apply only_lift |].
  intros commit.
  eapply only_weaken; [| apply writing_write_with_auth_retry].
  apply writing_in_session.
Qed.

Lemma in_session_list_characteristics_body client :
  only in_session (list_characteristics_body p client).
Proof.
  unfold list_characteristics_body.
  apply only_bind; [apply only_is_connected; simpl; auto |].
  intros b. destruct (negb b); [apply only_raise |].
  apply only_bind; [| intros svcs; apply only_ret].
  destruct (services client); [apply only_ret |].
  destruct (_client client) as [[[r |]] |].
  - apply only_bind; [now apply only_emit | intros _; apply only_lift].
  - apply only_raise.
  - destruct (_bleak_client client) as [[[r |]] |].
    + apply only_bind; [now apply only_emit | intros _; apply only_lift].
    + apply only_raise.
    + apply only_raise.
Qed.

End Pipeline.

(** C7, as the code has it. Once the connection has been established, a
    write-and-commit call and a diagnostics topology call attempt the
    disconnect exactly once, as their last step, whether the body returned
    or raised, and the call returns or raises what its body did whatever
    the disconnect did (an exception of the disconnect is discarded).
    When the connect itself raises, the call raises that exception and
    attempts no disconnect. *)
Theorem disconnect_once_after_connect (p : Platform) (self : SolemAPI)
        (command : list Z) (h : history) :
  released_once p (_connect_client p self)
    (fun client => write_and_commit_body p self client command)
    (_write_and_commit p self command) h /\
  released_once p (_connect_client p self)
    (list_characteristics_body p)
    (list_characteristics p self) h.
Proof.
  split.
  - apply (scoped_session p self
             (fun client => write_and_commit_body p self client command)).
    intros c. apply in_session_write_and_commit_body.
  - apply (scoped_session p self (list_characteristics_body p)).
    intros c. apply in_session_list_characteristics_body.
Qed.

(** C7, on a run in which every step works and the
    disconnect raises: the call still returns, with one disconnect as its
    last event. *)
Lemma disconnect_error_is_discarded :
  outcome (_write_and_commit disconnect_raises api0
             [0x31; 0x05; 0x24; 0x00; 0x00; 0xFF; 0xFF]) [] = Ok tt /\
  count is_disconnect
    (new_events (_write_and_commit disconnect_raises api0
                   [0x31; 0x05; 0x24; 0x00; 0x00; 0xFF; 0xFF]) []) = 1%nat /\
  exists evs,
    new_events (_write_and_commit disconnect_raises api0
                  [0x31; 0x05; 0x24; 0x00; 0x00; 0xFF; 0xFF]) []
    = evs ++ [EvDisconnect (Some OSError)].
Proof.
  pose proof (proj1 (disconnect_once_after_connect disconnect_raises api0
                       [0x31; 0x05; 0x24; 0x00; 0x00; 0xFF; 0xFF] []))
    as Hrel.
  unfold released_once in Hrel.
  change (_connect_client disconnect_raises api0 [])
    with (@Ok BleakClient plain_client,
          [EvAcquire; EvFind "c8:b9:61:aa:bb:cc" 5;
           EvConnect solem_device 15; EvRelease]) in Hrel.
  destruct Hrel as (Hout & Hnew & Hcount).
  split; [exact Hout |]. split; [exact Hcount |].
  eexists. rewrite Hnew, app_assoc. reflexivity.
Defined.

(** C7, counterexample. With the adapter out of slots the connect raises:
    the write-and-commit call and the topology call end with that error
    and never attempt a disconnect. *)
Lemma no_disconnect_when_connect_fails :
  (outcome (_write_and_commit out_of_slots api0 [0x31; 0x05]) [] =
     Raise (APIConnectionError
       "Bluetooth adapter/proxy out of connection slots or device busy/unreachable")
   /\ count is_disconnect
        (new_events (_write_and_commit out_of_slots api0 [0x31; 0x05]) [])
      = 0%nat) /\
  (outcome (list_characteristics out_of_slots api0) [] =
     Raise (APIConnectionError
       "Bluetooth adapter/proxy out of connection slots or device busy/unreachable")
   /\ count is_disconnect (new_events (list_characteristics out_of_slots api0) [])
      = 0%nat).
Proof. repeat split. Qed.

(** ** The commit frame *)

Section Commit.

Variable p : Platform.
Variable self : SolemAPI.

(** A retried call that returns has had a last attempt that returned. *)
Lemma retrying_ok {A} (P : event -> Prop) wait (f : M A) :
  only P f -> (forall ms, P (EvSleep ms)) ->
  forall remaining n h a h',
    tenacity.retrying wait remaining n f h = (Ok a, h') ->
    exists evs0, Forall P evs0 /\ f (h ++ evs0) = (Ok a, h').
Proof.
  intros Hf Hs. induction remaining as [| remaining IH]; intros n h a h'; simpl.
  - destruct (f h) as [[a0 | e] h1] eqn:Hfh; intros [= <- <-].
    exists []. rewrite app_nil_r. auto.
  - destruct (Hf h) as (evs & Heq & Hall).
    destruct (f h) as [[a0 | e] h1] eqn:Hfh; simpl in Heq; subst h1.
    + intros [= <- <-]. exists []. rewrite app_nil_r. auto.
    + intros Hrec. destruct (IH _ _ _ _ Hrec) as (evs0 & Hall0 & Hlast).
      exists (evs ++ EvSleep (wait n) :: evs0). split.
      * apply Forall_app. split; [assumption |]. constructor; auto.
      * rewrite <- Hlast. f_equal. rewrite <- !app_assoc. reflexivity.
Qed.

Lemma write_attempt_ok client payload h u h' :
  write_attempt p self client payload h = (Ok u, h') ->
  h' = h ++ [EvIsConnected true;
             EvWrite (characteristic_uuid self) payload false None].
Proof.
  unfold write_attempt, bind, is_connected, write_gatt_char, raise.
  destruct (on_is_connected p h client); simpl; [| discriminate].
  destruct (on_write_gatt_char p _ client _ payload); [discriminate |].
  intros [= _ <-]. now rewrite <- app_assoc.
Qed.

(** A retried write that returns has written its payload successfully. *)
Lemma write_with_auth_retry_ok client payload h u :
  outcome (_write_with_auth_retry p self client payload) h = Ok u ->
  In (EvWrite (characteristic_uuid self) payload false None)
     (new_events (_write_with_auth_retry p self client payload) h).
Proof.
  unfold outcome. intros Hout.
  destruct (_write_with_auth_retry p self client payload h) as [r h'] eqn:Hrun.
  simpl in Hout. subst r.
  unfold _write_with_auth_retry, tenacity.retry in Hrun.
  destruct (retrying_ok (writing (characteristic_uuid self) payload) _ _
              (writing_write_attempt p self client payload)
              (fun _ => I) _ _ _ _ _ Hrun) as (evs0 & _ & Hlast).
  apply write_attempt_ok in Hlast.
  assert (Heq : snd (_write_with_auth_retry p self client payload h) =
                h ++ evs0 ++ [EvIsConnected true;
                  EvWrite (characteristic_uuid self) payload false None]).
  { unfold _write_with_auth_retry, tenacity.retry. rewrite Hrun. simpl.
    now rewrite Hlast, <- app_assoc. }
  rewrite (new_events_eq _ _ _ Heq).
  apply in_or_app. right. simpl. auto.
Qed.

Lemma write_and_commit_body_unfold client command h :
  write_and_commit_body p self client command h =
  let b := on_is_connected p h client in
  let h0 := h ++ [EvIsConnected b] in
  if b then
    match _write_with_auth_retry p self client command h0 with
    | (Ok _, h2) => _write_with_auth_retry p self client [0x3B; 0x00] h2
    | (Raise e, h2) => (Raise e, h2)
    end
  else (Raise (APIConnectionError "Failed connecting!"), h0).
Proof.
  unfold write_and_commit_body, bind, is_connected, raise. cbv zeta.
  destruct (on_is_connected p h client); cbn [negb]; cbv beta iota;
    [| reflexivity].
  destruct (_write_with_auth_retry p self client command _) as [[u | e] h2];
    reflexivity.
Qed.

(** The history of the [try] block of [_write_and_commit]: the check of
    the connection, the writes of the command, then the writes of the
    commit frame, which exist only when the command was written. *)
Lemma write_and_commit_body_events client command h :
  exists b evs1 evs2,
    new_events (write_and_commit_body p self client command) h =
      EvIsConnected b :: evs1 ++ evs2 /\
    Forall (writing (characteristic_uuid self) command) evs1 /\
    Forall (writing (characteristic_uuid self) [0x3B; 0x00]) evs2 /\
    (evs2 <> [] ->
     In (EvWrite (characteristic_uuid self) command false None) evs1).
Proof.
  pose proof (write_and_commit_body_unfold client command h) as Hrun.
  cbv zeta in Hrun.
  destruct (on_is_connected p h client).
  - set (h0 := h ++ [EvIsConnected true]) in *.
    destruct (only_new_events _ _ h0
                (writing_write_with_auth_retry p self client command))
      as [Hsnd1 Hall1].
    pose proof (write_with_auth_retry_ok client command h0) as Hok1.
    unfold outcome in Hok1.
    set (evs1 := new_events (_write_with_auth_retry p self client command) h0)
      in *.
    destruct (_write_with_auth_retry p self client command h0)
      as [[u | e] h2]; simpl in Hsnd1; subst h2.
    + destruct (only_new_events _ _ (h0 ++ evs1)
                  (writing_write_with_auth_retry p self client [0x3B; 0x00]))
        as [Hsnd2 Hall2].
      set (evs2 := new_events
                     (_write_with_auth_retry p self client [0x3B; 0x00])
                     (h0 ++ evs1)) in *.
      exists true, evs1, evs2. repeat split; auto.
      * apply new_events_eq. rewrite Hrun, Hsnd2.
        unfold h0. now rewrite <- !app_assoc.
      * intros _. now apply (Hok1 u).
    + exists true, evs1, []. repeat split; auto.
      * apply new_events_eq. rewrite Hrun. simpl.
        unfold h0. now rewrite app_nil_r, <- !app_assoc.
      * intros Hne. now contradiction Hne.
  - exists false, [], []. repeat split; auto.
    + apply new_events_eq. now rewrite Hrun.
    + intros Hne. now contradiction Hne.
Qed.

End Commit.

Lemma split_at_app {X} (pre post A B' : list X) (e : X) :
  pre ++ e :: post = A ++ B' ->
  (exists post', A = pre ++ e :: post' /\ post = post' ++ B') \/
  (exists pre', pre = A ++ pre' /\ B' = pre' ++ e :: post).
Proof.
  revert pre. induction A as [| a A IH]; intros pre Heq.
  - right. exists pre. auto.
  - destruct pre as [| x pre]; simpl in Heq; injection Heq as <- Heq.
    + left. exists A. auto.
    + destruct (IH pre Heq) as [(post' & -> & ->) | (pre' & -> & ->)].
      * left. exists post'. auto.
      * right. exists pre'. auto.
Qed.

Lemma perform_unfold p self a h :
  perform p self a h =
  match encode a with
  | Ok frame => _write_and_commit p self frame h
  | Raise e => (Raise e, h)
  end.
Proof.
  destruct a; cbn [perform encode];
    unfold turn_on, turn_off_permanent, turn_off_x_days,
      sprinkle_station_x_for_y_minutes, sprinkle_all_stations_for_y_minutes,
      run_program_x, stop_manual_sprinkle, bind, lift;
    match goal with |- context [match ?r with Ok _ => _ | Raise _ => _ end] =>
      destruct r end; reflexivity.
Qed.

Lemma frame_is_not_commit a frame :
  encode a = Ok frame -> frame <> [0x3B; 0x00].
Proof.
  intros Henc.
  destruct (encode_table_or_error a) as [[Hok _] | (d & _ & _ & Herr)];
    [| congruence].
  rewrite Hok in Henc. injection Henc as <-.
  destruct a; discriminate.
Qed.

(** The writes of a write-and-commit call: each is a write of the command,
    or a write of the commit frame that comes after a successful write of
    the command. *)
Lemma write_and_commit_writes p self command h pre u pl resp r post :
  new_events (_write_and_commit p self command) h
    = pre ++ EvWrite u pl resp r :: post ->
  u = characteristic_uuid self /\ resp = false /\
  (pl = command \/
   (pl = [0x3B; 0x00] /\
    In (EvWrite (characteristic_uuid self) command false None) pre)).
Proof.
  intros Hsplit.
  pose proof (scoped_session p self
                (fun client => write_and_commit_body p self client command) h
                (fun c => in_session_write_and_commit_body p self c command))
    as Hrel.
  unfold released_once in Hrel.
  fold (_write_and_commit p self command) in Hrel.
  destruct (only_new_events _ _ h (connecting_connect_client p self))
    as [_ HallC].
  set (evsC := new_events (_connect_client p self) h) in *.
  assert (HnotC : forall post', evsC <> pre ++ EvWrite u pl resp r :: post').
  { intros post' Heq. rewrite Heq in HallC.
    apply Forall_app in HallC as [_ HallC]. inversion HallC as [| ? ? Hc _].
    exact Hc. }
  destruct (_connect_client p self h) as [[c | e] h1].
  - destruct Hrel as (_ & Hnew & _).
    destruct (write_and_commit_body_events p self c command h1)
      as (b & evs1 & evs2 & HevB & Hall1 & Hall2 & Hcommit).
    rewrite HevB in Hnew. rewrite Hnew in Hsplit. clear Hnew HevB.
    symmetry in Hsplit.
    apply split_at_app in Hsplit
      as [(post' & Heq & _) | (pre1 & -> & Hsplit)];
      [now apply HnotC in Heq |].
    change ((EvIsConnected b :: evs1 ++ evs2) ++ ?l)
      with ([EvIsConnected b] ++ (evs1 ++ evs2) ++ l) in Hsplit.
    symmetry in Hsplit.
    apply split_at_app in Hsplit as [(post' & Heq & _) | (pre2 & -> & Hsplit)].
    { destruct pre1 as [| x [| y pre1]]; discriminate. }
    rewrite <- app_assoc in Hsplit. symmetry in Hsplit.
    apply split_at_app in Hsplit as [(post' & Heq & _) | (pre3 & -> & Hsplit)].
    { rewrite Heq in Hall1. apply Forall_app in Hall1 as [_ Hall1].
      inversion Hall1 as [| ? ? Hw _]. simpl in Hw.
      destruct Hw as (-> & -> & ->). auto. }
    symmetry in Hsplit.
    apply split_at_app in Hsplit as [(post' & Heq & _) | (pre4 & -> & Hsplit)].
    + assert (Hne : evs2 <> []) by (rewrite Heq; now destruct pre3).
      rewrite Heq in Hall2. apply Forall_app in Hall2 as [_ Hall2].
      inversion Hall2 as [| ? ? Hw _]. simpl in Hw.
      destruct Hw as (-> & -> & ->).
      repeat split; auto. right. split; [reflexivity |].
      apply in_or_app. right. apply in_or_app. right.
      apply in_or_app. left. auto.
    + destruct pre4 as [| x [| y pre4]]; discriminate.
  - destruct Hrel as (_ & Hnew & _). rewrite Hnew in Hsplit.
    now apply HnotC in Hsplit.
Qed.

(** C3. The commit frame is the constant two bytes 0x3B 0x00. In every run
    of every control action, each write goes to the command
    characteristic without response and carries either the action's
    primary frame or the commit frame, and a write of the commit frame
    comes only after a write of the primary frame that succeeded. *)
Theorem commit_frame_only_after_primary_write (p : Platform) (self : SolemAPI)
        (a : action) (h : history) :
  commit_command = Ok [0x3B; 0x00] /\
  forall pre u pl resp r post,
    new_events (perform p self a) h = pre ++ EvWrite u pl resp r :: post ->
    exists frame,
      encode a = Ok frame /\ frame <> [0x3B; 0x00] /\
      u = characteristic_uuid self /\ resp = false /\
      (pl = frame \/
       (pl = [0x3B; 0x00] /\
        In (EvWrite (characteristic_uuid self) frame false None) pre)).
Proof.
  split; [reflexivity |].
  intros pre u pl resp r post Hsplit.
  pose proof (perform_unfold p self a) as Hrun.
  destruct (encode a) as [frame | e] eqn:Henc.
  - exists frame. split; [reflexivity |].
    split; [now apply (frame_is_not_commit a) |].
    apply (write_and_commit_writes p self frame h pre u pl resp r post).
    rewrite <- Hsplit. unfold new_events. now rewrite Hrun.
  - exfalso.
    assert (Hnil : new_events (perform p self a) h = []).
    { apply new_events_eq. rewrite Hrun. simpl. now rewrite app_nil_r. }
    rewrite Hnil in Hsplit. now destruct pre.
Qed.

(** C3, on the end-to-end scenario of the specification: station 3 for 15
    minutes, the first write attempt fails. The commit write is the last
    write and the successful primary write is before it. *)
Lemma commit_frame_only_after_primary_write_scenario :
  new_events (perform first_write_fails api0 (SprinkleStation 3 15)) [] =
    scenario_before_commit
      ++ [EvWrite CHARACTERISTIC_UUID [0x3B; 0x00] false None;
          EvDisconnect None] /\
  exists frame,
    encode (SprinkleStation 3 15) = Ok frame /\ frame <> [0x3B; 0x00] /\
    In (EvWrite CHARACTERISTIC_UUID frame false None) scenario_before_commit.
Proof.
  split; [reflexivity |].
  destruct (proj2 (commit_frame_only_after_primary_write
                     first_write_fails api0 (SprinkleStation 3 15) [])
                  scenario_before_commit CHARACTERISTIC_UUID [0x3B; 0x00]
                  false None [EvDisconnect None] eq_refl)
    as (frame & Henc & Hne & _ & _ & [Hpl | [_ Hin]]).
  - exfalso. injection Henc as <-. discriminate Hpl.
  - exists frame. auto.
Defined.

(** ** Parameters out of range *)

(** C1, at the failing input. A pause of 300 days is inside the clamp
    range of the table, yet the method builds no frame: [struct.pack]
    raises [struct.error] on the one-byte days field, and the method ends
    with that error before any connection is made. *)
Theorem turn_off_300_days_builds_no_frame (p : Platform) (self : SolemAPI)
        (h : history) :
  clamp 0 365 300 = 300 /\
  encode (TurnOffXDays 300) = Raise struct_error /\
  perform p self (TurnOffXDays 300) h = (Raise struct_error, h).
Proof. repeat split. Qed.

(** C2, at the failing input. 1000 days are clamped to 365, and 365 does
    not fit the one-byte days field: [turn_off_x_days(1000)] raises
    [struct.error] instead of encoding 365 days. *)
Theorem turn_off_1000_days_is_rejected (p : Platform) (self : SolemAPI)
        (h : history) :
  Z.max 0 (Z.min 1000 365) = 365 /\
  turn_off_x_days_command 1000 = Raise struct_error /\
  turn_off_x_days p self 1000 h = (Raise struct_error, h).
Proof. repeat split. Qed.

(** The other examples of the clamping rule hold as the specification
    gives them. *)
Lemma clamping_examples :
  encode (SprinkleStation 99 500) =
    Ok [0x31; 0x05; 0x22; 16; 0x00; 240; 0xFF; 0xFF] /\
  encode (SprinkleStation 0 0) =
    Ok [0x31; 0x05; 0x22; 1; 0x00; 1; 0xFF; 0xFF] /\
  encode (TurnOffXDays (-5)) = Ok [0x31; 0x05; 0x15; 0x00; 0; 0xFF; 0xFF].
Proof. repeat split. Qed.

(** X2. Station, minutes and program always reach the wire inside their
    ranges, whatever integer the caller passes; so do the days, up to the
    255 that the days byte can hold. *)
Lemma clamped_parameters_on_the_wire (station minutes program days : Z) :
  (exists s m, sprinkle_station_x_for_y_minutes_command station minutes =
                 Ok [0x31; 0x05; 0x22; s; 0x00; m; 0xFF; 0xFF] /\
               s = clamp 1 16 station /\ m = clamp 1 240 minutes /\
               1 <= s <= 16 /\ 1 <= m <= 240) /\
  (exists m, sprinkle_all_stations_for_y_minutes_command minutes =
               Ok [0x31; 0x05; 0x23; 0x00; m; 0xFF; 0xFF] /\
             m = clamp 1 240 minutes /\ 1 <= m <= 240) /\
  (exists g, run_program_x_command program =
               Ok [0x31; 0x05; 0x21; g; 0x00; 0xFF; 0xFF] /\
             g = clamp 1 3 program /\ 1 <= g <= 3) /\
  (days <= 255 ->
   exists d, turn_off_x_days_command days =
               Ok [0x31; 0x05; 0x15; 0x00; d; 0xFF; 0xFF] /\
             d = clamp 0 365 days /\ 0 <= d <= 255).
Proof.
  pose proof (encode_table_or_error (SprinkleStation station minutes)) as Hs.
  pose proof (encode_table_or_error (SprinkleAllStations minutes)) as Ha.
  pose proof (encode_table_or_error (RunProgram program)) as Hp.
  pose proof (encode_table_or_error (TurnOffXDays days)) as Hd.
  cbn [encode frame_table] in *.
  repeat split.
  - destruct Hs as [[Hs _] | (d & Hd' & _)]; [| discriminate].
    eexists _, _. split; [exact Hs |]. unfold clamp. repeat split; lia.
  - destruct Ha as [[Ha _] | (d & Hd' & _)]; [| discriminate].
    eexists. split; [exact Ha |]. unfold clamp. repeat split; lia.
  - destruct Hp as [[Hp _] | (d & Hd' & _)]; [| discriminate].
    eexists. split; [exact Hp |]. unfold clamp. repeat split; lia.
  - intros Hle. destruct Hd as [[Hd _] | (d & [= <-] & Hgt & _)]; [| lia].
    eexists. split; [exact Hd |]. unfold clamp. repeat split; lia.
Qed.

(** ** A write on a client that is not connected *)

Lemma write_attempt_not_connected (p : Platform) (self : SolemAPI)
      (client : BleakClient) (payload : list Z) (h : history) :
  on_is_connected p h client = false ->
  write_attempt p self client payload h =
  (Raise (APIConnectionError "Client not connected"),
   h ++ [EvIsConnected false]).
Proof.
  intros Hoff. unfold write_attempt, bind, is_connected, raise.
  now rewrite Hoff.
Qed.

(** Whatever the platform, a write on a client that reports not connected
    is attempted three times, with the two back-off sleeps in between, and
    ends in [RetryError], not in [APIConnectionError]. *)
Lemma not_connected_is_retried (p : Platform) (self : SolemAPI)
      (client : BleakClient) (payload : list Z) (h : history) :
  (forall h', on_is_connected p h' client = false) ->
  _write_with_auth_retry p self client payload h =
  (Raise (RetryError (APIConnectionError "Client not connected")),
   h ++ [EvIsConnected false; EvSleep 400;
         EvIsConnected false; EvSleep 800;
         EvIsConnected false]).
Proof.
  intros Hoff.
  unfold _write_with_auth_retry, tenacity.retry.
  cbn [Nat.sub tenacity.retrying].
  rewrite write_attempt_not_connected by apply Hoff.
  rewrite write_attempt_not_connected by apply Hoff.
  rewrite write_attempt_not_connected by apply Hoff.
  rewrite <- !app_assoc. reflexivity.
Qed.

(** C4, at the failing input. The connection drops after the primary
    write of [turn_on]: the commit write finds the client not connected,
    and the check is made three times with back-off sleeps of 0.4 s and
    0.8 s before the call fails with [RetryError]. *)
Theorem not_connected_write_is_retried :
  _write_with_auth_retry unreachable api0 plain_client [0x3B; 0x00] [] =
    (Raise (RetryError (APIConnectionError "Client not connected")),
     [EvIsConnected false; EvSleep 400;
      EvIsConnected false; EvSleep 800;
      EvIsConnected false]) /\
  perform drops_after_first_write api0 TurnOn [] =
    (Raise (RetryError (APIConnectionError "Client not connected")),
     [EvAcquire; EvFind "c8:b9:61:aa:bb:cc" 5; EvConnect solem_device 15;
      EvRelease; EvIsConnected true;
      EvIsConnected true;
      EvWrite CHARACTERISTIC_UUID [0x31; 0x05; 0x12; 0xFF; 0x00; 0xFF; 0xFF]
              false None;
      EvIsConnected false; EvSleep 400;
      EvIsConnected false; EvSleep 800;
      EvIsConnected false;
      EvDisconnect None]).
Proof. split; reflexivity. Qed.

(** ** Devices without an address in the fallback scan *)

Lemma lower_empty s : lower s = "" -> s = "".
Proof. destruct s; simpl; [reflexivity | discriminate]. Qed.

Lemma addressless_no_match (self : SolemAPI) (d : BLEDevice) :
  mac_address self <> "" -> address d = None ->
  String.eqb (lower (or_empty (address d))) (lower (mac_address self)) = false.
Proof.
  intros Hmac Hnone. rewrite Hnone. cbn [or_empty lower].
  apply (proj2 (String.eqb_neq _ _)). intros Heq. symmetry in Heq.
  now apply lower_empty in Heq.
Qed.

(** For a configured address that is not empty, a device that matches has
    an address, equal to the configured one up to case. *)
Lemma address_matches_some (self : SolemAPI) (d : BLEDevice) :
  mac_address self <> "" -> address_matches self d ->
  exists a, address d = Some a /\ lower a = lower (mac_address self).
Proof.
  unfold address_matches. intros Hmac Hm.
  destruct (address d) as [a |] eqn:Haddr.
  - exists a. split; [reflexivity |]. simpl in Hm.
    destruct (String.eqb_spec a ""); [| exact Hm]. now subst a.
  - simpl in Hm. symmetry in Hm. now apply lower_empty in Hm.
Qed.

(** C10, as the code has it. For a configured address that is not empty,
    a scanned device with no address is compared as the empty string and
    is never the match: the scan gives the same result with those devices
    removed, and the device it returns has an address. For every
    configured address the resolution ends with a device, with the
    device-not-found error, or with the exception that the lookup or the
    scan itself raised; the comparison raises nothing. *)
Theorem addressless_device_is_skipped (p : Platform) (self : SolemAPI)
        (h : history) :
  mac_address self <> "" ->
  (forall devices,
      scan_match self devices = scan_match self (filter has_address devices)) /\
  (forall devices d, scan_match self devices = Some d -> address d <> None) /\
  ((exists d, outcome (_resolve_ble_device p self) h = Ok d) \/
   outcome (_resolve_ble_device p self) h =
     Raise (APIConnectionError "Device not found! Failed connecting!") \/
   (exists t,
       outcome (_resolve_ble_device p self) h = Raise (Transport t) /\
       (on_find_device_by_address p h (mac_address self) = Raises t \/
        on_discover p (h ++ [EvFind (mac_address self) 5]) = Raises t))).
Proof.
  intros Hmac. split; [| split].
  - induction devices as [| d rest IH]; [reflexivity |].
    simpl. unfold has_address at 1.
    destruct (address d) as [a |] eqn:Haddr.
    + simpl. rewrite Haddr. now rewrite IH.
    + rewrite <- Haddr.
      rewrite (addressless_no_match self d Hmac Haddr). exact IH.
  - induction devices as [| d0 rest IH]; simpl; [discriminate |].
    intros d.
    destruct (String.eqb (lower (or_empty (address d0)))
                         (lower (mac_address self))) eqn:Heqb.
    + intros [= <-] Hnone.
      rewrite (addressless_no_match self d0 Hmac Hnone) in Heqb.
      discriminate.
    + apply IH.
  - destruct (outcome (_resolve_ble_device p self) h) as [d | e] eqn:Hout;
      [left; now exists d | right].
    destruct (resolve_raises p self h e Hout)
      as [-> | (t & -> & [Hfind | [_ Hscan]])];
      [left; reflexivity | right; exists t; auto ..].
Qed.

(** C10, on a scan that reports a device without an
    address before the controller. *)
Lemma addressless_device_is_skipped_scan :
  mac_address api0 <> "" /\
  scan_match api0 [addressless_device; solem_device] = Some solem_device /\
  outcome (_resolve_ble_device addressless_scan api0) [] = Ok solem_device.
Proof.
  assert (Hmac : mac_address api0 <> "") by discriminate.
  split; [exact Hmac |].
  destruct (addressless_device_is_skipped addressless_scan api0 [] Hmac)
    as (Hfilter & _ & _).
  split.
  - rewrite (Hfilter [addressless_device; solem_device]). reflexivity.
  - reflexivity.
Defined.

(** C10, counterexample. With an empty configured address the device
    without an address is the match of the scan: the empty string that
    stands for its address equals the configured one. *)
Lemma addressless_device_matches_empty_address :
  address addressless_device = None /\
  scan_match (SolemAPI_init "" 15) [addressless_device; solem_device]
    = Some addressless_device /\
  outcome (_resolve_ble_device addressless_scan (SolemAPI_init "" 15)) []
    = Ok addressless_device.
Proof. repeat split. Qed.

(** ** Concurrent callers of the connect operation *)

Lemma nth_error_update_same {X} (l : list X) t x :
  nth_error (update l t x) t =
  match nth_error l t with Some _ => Some x | None => None end.
Proof.
  revert t. induction l as [| y l IH]; intros [| t]; simpl; auto.
Qed.

Lemma nth_error_update_other {X} (l : list X) t t' x :
  t <> t' -> nth_error (update l t x) t' = nth_error l t'.
Proof.
  revert t t'. induction l as [| y l IH]; intros [| t] [| t'] Hne; simpl; auto;
    congruence.
Qed.

Lemma count_cs_update l t old x :
  nth_error l t = Some old ->
  (count_cs (update l t x) + b2n (in_cs old) = count_cs l + b2n (in_cs x))%nat.
Proof.
  unfold count_cs. revert t.
  induction l as [| y l IH]; intros [| t]; simpl; try discriminate.
  - intros [= ->]. destruct (in_cs old), (in_cs x); simpl; lia.
  - intros Hnth. specialize (IH t Hnth).
    destruct (in_cs y); simpl; lia.
Qed.

Lemma remaining_update l t old x :
  nth_error l t = Some old ->
  (list_sum (map remaining_steps (update l t x)) + remaining_steps old =
   list_sum (map remaining_steps l) + remaining_steps x)%nat.
Proof.
  revert t. induction l as [| y l IH]; intros [| t]; simpl; try discriminate.
  - intros [= ->]. lia.
  - intros Hnth. specialize (IH t Hnth). lia.
Qed.

Lemma count_cs_member l t c :
  nth_error l t = Some c -> in_cs c = true -> (1 <= count_cs l)%nat.
Proof.
  unfold count_cs. revert t.
  induction l as [| y l IH]; intros [| t]; simpl; try discriminate.
  - intros [= ->] ->. simpl. lia.
  - intros Hnth Hc. specialize (IH t Hnth Hc).
    destruct (in_cs y); simpl; lia.
Qed.

Lemma count_cs_two l t1 t2 c1 c2 :
  nth_error l t1 = Some c1 -> nth_error l t2 = Some c2 ->
  in_cs c1 = true -> in_cs c2 = true -> t1 <> t2 -> (2 <= count_cs l)%nat.
Proof.
  revert t1 t2.
  induction l as [| y l IH]; intros [| t1] [| t2]; simpl; try discriminate;
    intros H1 H2 Hc1 Hc2 Hne.
  - congruence.
  - injection H1 as ->. pose proof (count_cs_member l t2 c2 H2 Hc2) as Hm.
    unfold count_cs in *. simpl. rewrite Hc1. simpl. lia.
  - injection H2 as ->. pose proof (count_cs_member l t1 c1 H1 Hc1) as Hm.
    unfold count_cs in *. simpl. rewrite Hc2. simpl. lia.
  - assert (Hne' : t1 <> t2) by congruence.
    specialize (IH t1 t2 H1 H2 Hc1 Hc2 Hne').
    unfold count_cs in *. simpl. destruct (in_cs y); simpl; lia.
Qed.

Lemma count_cs_witness l :
  (1 <= count_cs l)%nat ->
  exists t c, nth_error l t = Some c /\ in_cs c = true.
Proof.
  unfold count_cs. induction l as [| y l IH]; simpl; [lia |].
  destruct (in_cs y) eqn:Hy.
  - intros _. exists 0%nat, y. auto.
  - intros Hl. destruct (IH Hl) as (t & c & Hnth & Hc).
    exists (S t), c. auto.
Qed.

Lemma not_all_done l :
  forallb is_done l = false ->
  exists t c, nth_error l t = Some c /\ is_done c = false.
Proof.
  induction l as [| y l IH]; simpl; [discriminate |].
  destruct (is_done y) eqn:Hy; simpl.
  - intros Hl. destruct (IH Hl) as (t & c & Hnth & Hc).
    exists (S t), c. auto.
  - intros _. exists 0%nat, y. auto.
Qed.

(** A task that is not waiting for the lock is not in the queue, so its
    move leaves the queue's tasks where they were. *)
Lemma waiting_update l (ws : list (nat * bool)) t old x :
  nth_error l t = Some old -> old <> WaitLock ->
  Forall (fun w => nth_error l (fst w) = Some WaitLock) ws ->
  Forall (fun w => nth_error (update l t x) (fst w) = Some WaitLock) ws.
Proof.
  intros Hnth Hold Hall. eapply Forall_impl; [| exact Hall].
  intros w Hw. cbv beta in *.
  rewrite nth_error_update_other; [exact Hw |].
  intros Heq. rewrite <- Heq in Hw. congruence.
Qed.

Lemma queued_update l (ids : list nat) t x :
  x <> WaitLock ->
  (forall t', nth_error l t' = Some WaitLock -> In t' ids) ->
  forall t', nth_error (update l t x) t' = Some WaitLock -> In t' ids.
Proof.
  intros Hx Hq t' Hnth.
  destruct (Nat.eq_dec t t') as [<- | Hne].
  - rewrite nth_error_update_same in Hnth.
    destruct (nth_error l t); congruence.
  - rewrite nth_error_update_other in Hnth by assumption. auto.
Qed.

Lemma wake_up_first_ids ws :
  map fst (asyncio.wake_up_first ws) = map fst ws.
Proof. destruct ws as [| [t []] rest]; reflexivity. Qed.

Lemma Forall_on_ids (Q : nat -> Prop) (ws ws' : list (nat * bool)) :
  map fst ws = map fst ws' ->
  Forall (fun w => Q (fst w)) ws' -> Forall (fun w => Q (fst w)) ws.
Proof.
  intros Hids Hall.
  rewrite <- (Forall_map fst Q) in *. now rewrite Hids.
Qed.

Lemma idle_invariant n : lock_invariant (idle n).
Proof.
  assert (Hcs : count_cs (repeat Idle n) = 0%nat).
  { unfold count_cs. induction n; simpl; auto. }
  split; simpl; auto.
  intros t Hnth. apply nth_error_In in Hnth. apply repeat_spec in Hnth.
  discriminate.
Qed.

Section LockInvariant.

Variable self : SolemAPI.

Lemma holder_locked s t c :
  lock_invariant s -> nth_error (tasks s) t = Some c -> in_cs c = true ->
  asyncio.locked (_conn_lock s) = true.
Proof.
  intros [Hh _ _ _] Hnth Hc.
  pose proof (count_cs_member _ _ _ Hnth Hc) as Hm.
  destruct (asyncio.locked (_conn_lock s)); [reflexivity | lia].
Qed.

(** A move that neither enters nor leaves the critical section, by a task
    that is not waiting. *)
Lemma inner_move_invariant s t old x :
  lock_invariant s -> nth_error (tasks s) t = Some old ->
  old <> WaitLock -> x <> WaitLock -> in_cs old = in_cs x ->
  lock_invariant {| _conn_lock := _conn_lock s;
                    tasks := update (tasks s) t x |}.
Proof.
  intros [Hh Hw Hq Hk] Hnth Hold Hx Hcs. split; simpl.
  - pose proof (count_cs_update _ _ _ x Hnth) as Hc.
    rewrite Hcs in Hc. rewrite <- Hh. lia.
  - now apply (waiting_update _ _ _ old).
  - now apply queued_update.
  - exact Hk.
Qed.

(** Leaving the [async with] block releases the lock and wakes the first
    waiter. *)
Lemma leave_invariant s t old r s' :
  lock_invariant s -> nth_error (tasks s) t = Some old -> in_cs old = true ->
  leave s t r = Some s' -> lock_invariant s'.
Proof.
  intros Hinv Hnth Hcs Hleave.
  pose proof (holder_locked s t old Hinv Hnth Hcs) as Hlocked.
  destruct Hinv as [Hh Hw Hq Hk].
  unfold leave, asyncio.release in Hleave. rewrite Hlocked in *.
  injection Hleave as <-.
  assert (Hold : old <> WaitLock) by (intros ->; discriminate).
  split; simpl.
  - pose proof (count_cs_update _ _ _ (Done r) Hnth) as Hc.
    rewrite Hcs in Hc. simpl in Hc. lia.
  - apply (Forall_on_ids
             (fun id => nth_error (update (tasks s) t (Done r)) id
                        = Some WaitLock)
             _ (asyncio.waiters (_conn_lock s)) (wake_up_first_ids _)).
    now apply (waiting_update _ _ _ old).
  - rewrite wake_up_first_ids. apply queued_update; [discriminate | exact Hq].
  - destruct (asyncio.waiters (_conn_lock s)) as [| [t' b] rest];
      [exact I |].
    inversion Hk as [| ? ? Hb Hrest]. simpl in Hb. subst b. simpl. auto.
Qed.

Lemma leave_enabled s t old r :
  lock_invariant s -> nth_error (tasks s) t = Some old -> in_cs old = true ->
  exists s', leave s t r = Some s'.
Proof.
  intros Hinv Hnth Hcs.
  pose proof (holder_locked s t old Hinv Hnth Hcs) as Hlocked.
  unfold leave, asyncio.release. rewrite Hlocked. eauto.
Qed.

(** A woken waiter is the head of the queue of a lock that is not held. *)
Lemma woken_head s t :
  lock_invariant s ->
  asyncio.woken t (asyncio.waiters (_conn_lock s)) = true ->
  asyncio.locked (_conn_lock s) = false /\
  exists rest,
    asyncio.waiters (_conn_lock s) = (t, true) :: rest /\
    Forall (fun w => snd w = false) rest.
Proof.
  intros [_ _ _ Hk] Hwoken.
  unfold asyncio.woken in Hwoken. apply existsb_exists in Hwoken.
  destruct Hwoken as ([t0 b0] & Hin & Hb). simpl in Hb.
  apply andb_true_iff in Hb as [Ht Hb]. apply Nat.eqb_eq in Ht.
  subst t0 b0.
  destruct (asyncio.locked (_conn_lock s)).
  - rewrite Forall_forall in Hk. specialize (Hk _ Hin). discriminate.
  - split; [reflexivity |].
    destruct (asyncio.waiters (_conn_lock s)) as [| [t' b'] rest];
      [contradiction |].
    destruct Hk as [Hb' Hrest]. simpl in Hb'. subst b'.
    destruct Hin as [[= ->] | Hin].
    + exists rest. auto.
    + rewrite Forall_forall in Hrest. specialize (Hrest _ Hin). discriminate.
Qed.

Lemma move_invariant s t a s' :
  lock_invariant s -> move self t a s = Some s' -> lock_invariant s'.
Proof.
  intros Hinv Hstep. unfold move in Hstep.
  destruct (nth_error (tasks s) t) as [c |] eqn:Hnth; [| discriminate].
  destruct c as [| | | | d | r];
    destruct a as [| [o | e] | [devices | e] | cr]; try discriminate.
  - (* Idle: acquire *)
    destruct (asyncio.free (_conn_lock s)) eqn:Hfree;
      injection Hstep as <-; destruct Hinv as [Hh Hw Hq Hk];
      unfold asyncio.free in Hfree.
    + apply andb_true_iff in Hfree as [Hl Hws].
      apply negb_true_iff in Hl.
      destruct (asyncio.waiters (_conn_lock s)) eqn:Hwaiters;
        [| discriminate].
      rewrite Hl in *.
      split; cbn [tasks _conn_lock asyncio.locked asyncio.waiters].
      * pose proof (count_cs_update _ _ _ Resolving Hnth) as Hc.
        simpl in Hc. lia.
      * constructor.
      * apply queued_update; [discriminate | exact Hq].
      * constructor.
    + split; simpl.
      * pose proof (count_cs_update _ _ _ WaitLock Hnth) as Hc.
        simpl in Hc. rewrite <- Hh. lia.
      * apply Forall_app. split.
        -- apply (waiting_update _ _ _ Idle); [assumption | discriminate |
                                                assumption].
        -- constructor; [| constructor]. simpl.
           now rewrite nth_error_update_same, Hnth.
      * intros t' Hn. rewrite map_app. apply in_or_app.
        destruct (Nat.eq_dec t t') as [<- | Hne]; [right; simpl; auto |].
        left. apply Hq. now rewrite nth_error_update_other in Hn.
      * destruct (asyncio.locked (_conn_lock s)).
        -- apply Forall_app. split; [assumption |]. constructor; auto.
        -- destruct (asyncio.waiters (_conn_lock s)) as [| w rest];
             [discriminate |].
           destruct Hk as [Hb Hrest]. split; [assumption |].
           apply Forall_app. split; [assumption |]. constructor; auto.
  - (* WaitLock: the woken waiter takes the lock *)
    destruct (asyncio.woken t (asyncio.waiters (_conn_lock s))) eqn:Hwoken;
      [| discriminate].
    injection Hstep as <-.
    destruct (woken_head s t Hinv Hwoken) as (Hl & rest & Hws & Hrest).
    destruct Hinv as [Hh Hw Hq Hk]. rewrite Hl, Hws in *.
    assert (Hrm : forall w, In w (asyncio.remove_waiter t ((t, true) :: rest))
                            -> In w rest /\ fst w <> t).
    { intros w Hin. unfold asyncio.remove_waiter in Hin.
      apply filter_In in Hin as [Hin Hne].
      apply negb_true_iff, Nat.eqb_neq in Hne.
      destruct Hin as [<- | Hin]; [now contradiction Hne | auto]. }
    split; cbn [tasks _conn_lock asyncio.locked asyncio.waiters].
    + pose proof (count_cs_update _ _ _ Resolving Hnth) as Hc.
      simpl in Hc. lia.
    + apply Forall_forall. intros w Hin. destruct (Hrm w Hin) as [Hin' Hne].
      rewrite nth_error_update_other by congruence.
      inversion Hw as [| ? ? _ Hw']. rewrite Forall_forall in Hw'. auto.
    + intros t' Hn.
      destruct (Nat.eq_dec t t') as [<- | Hne].
      { rewrite nth_error_update_same, Hnth in Hn. discriminate. }
      rewrite nth_error_update_other in Hn by assumption.
      specialize (Hq t' Hn). apply in_map_iff in Hq as (w & Hfst & Hin).
      apply in_map_iff. exists w. split; [assumption |].
      unfold asyncio.remove_waiter. apply filter_In. split; [assumption |].
      apply negb_true_iff, Nat.eqb_neq. congruence.
    + apply Forall_forall. intros w Hin. destruct (Hrm w Hin) as [Hin' _].
      rewrite Forall_forall in Hrest. auto.
  - (* Resolving: the direct lookup returned *)
    destruct o as [d |]; injection Hstep as <-;
      apply (inner_move_invariant s t Resolving); auto; discriminate.
  - (* Resolving: the direct lookup raised *)
    eapply (leave_invariant s t Resolving); eauto.
  - (* Scanning: the discovery scan returned *)
    destruct (scan_match self devices) as [d |].
    + injection Hstep as <-.
      apply (inner_move_invariant s t Scanning); auto; discriminate.
    + eapply (leave_invariant s t Scanning); eauto.
  - (* Scanning: the discovery scan raised *)
    eapply (leave_invariant s t Scanning); eauto.
  - (* Connecting: the connector returned or raised *)
    eapply (leave_invariant s t (Connecting d)); eauto.
Qed.

Lemma move_progress s :
  lock_invariant s -> forallb is_done (tasks s) = false ->
  exists t a s', move self t a s = Some s'.
Proof.
  intros Hinv Hnd.
  destruct (not_all_done _ Hnd) as (t & c & Hnth & Hc).
  destruct (asyncio.locked (_conn_lock s)) eqn:Hl.
  - (* the lock is held: its holder can go on *)
    pose proof (inv_holder s Hinv) as Hh. rewrite Hl in Hh.
    destruct (count_cs_witness (tasks s)) as (t0 & c0 & Hnth0 & Hc0); [lia |].
    destruct c0 as [| | | | d | r]; try discriminate.
    + exists t0, (Found (Returns None)). unfold move. rewrite Hnth0. eauto.
    + destruct (leave_enabled s t0 Scanning
                  (Raise (APIConnectionError
                            "Device not found! Failed connecting!"))
                  Hinv Hnth0 eq_refl) as (s' & Hs').
      exists t0, (Scanned (Returns [])), s'. unfold move. rewrite Hnth0.
      exact Hs'.
    + destruct (leave_enabled s t0 (Connecting d) (Ok plain_client)
                  Hinv Hnth0 eq_refl) as (s' & Hs').
      exists t0, (Established {| tries := 1;
                                 concluded := Returns plain_client |}), s'.
      unfold move. rewrite Hnth0. exact Hs'.
  - destruct (asyncio.waiters (_conn_lock s)) as [| w rest] eqn:Hws.
    + (* the lock is free and nobody waits: a caller that has not started *)
      destruct c as [| | | | d | r]; try discriminate.
      * exists t, Go. unfold move, asyncio.free. rewrite Hnth, Hl, Hws.
        simpl. eauto.
      * pose proof (inv_queued s Hinv t Hnth) as Hin. rewrite Hws in Hin.
        destruct Hin.
      * pose proof (holder_locked s t _ Hinv Hnth eq_refl). congruence.
      * pose proof (holder_locked s t _ Hinv Hnth eq_refl). congruence.
      * pose proof (holder_locked s t _ Hinv Hnth eq_refl). congruence.
    + (* the lock is free and the head of the queue has been woken *)
      pose proof (inv_woken s Hinv) as Hk. rewrite Hl, Hws in Hk.
      destruct Hk as [Hb _].
      pose proof (inv_waiting s Hinv) as Hw. rewrite Hws in Hw.
      inversion Hw as [| ? ? Hhead _].
      exists (fst w), Go. unfold move. rewrite Hhead, Hws.
      unfold asyncio.woken. simpl. rewrite Nat.eqb_refl, Hb. simpl. eauto.
Qed.

Lemma move_decreases s t a s' :
  move self t a s = Some s' -> (total_remaining s' < total_remaining s)%nat.
Proof.
  unfold move, leave, total_remaining. intros Hstep.
  destruct (nth_error (tasks s) t) as [c |] eqn:Hnth; [| discriminate].
  destruct c as [| | | | d | r];
    destruct a as [| [[d0 |] | e] | [devices | e] | cr];
    try discriminate;
    repeat match type of Hstep with
      | context [if ?b then _ else _] => destruct b
      | context [match asyncio.release ?l with _ => _ end] =>
          destruct (asyncio.release l)
      | context [match scan_match ?s ?d with _ => _ end] =>
          destruct (scan_match s d)
      end;
    try discriminate; injection Hstep as <-; simpl;
    match goal with
    | |- context [update (tasks s) t ?x] =>
        pose proof (remaining_update _ _ _ x Hnth) as Hrem
    end; simpl in Hrem; lia.
Qed.

End LockInvariant.

(** *** The coroutine and the method *)

Section Sequential.

Variable p : Platform.

Lemma sequential_bind {A B} (c : Coroutine.coro A) (f : A -> Coroutine.coro B) :
  forall h,
    Coroutine.sequential p (Coroutine.bind c f) h =
    bind (Coroutine.sequential p c)
         (fun a => Coroutine.sequential p (f a)) h.
Proof.
  unfold bind.
  induction c as [[a | e] | k IH | k IH | addr timeout k IH | timeout k IH
                  | d name timeout m k IH]; intros h; simpl; auto.
Qed.

Lemma sequential_try_except {A} (c : Coroutine.coro A) handler :
  forall h,
    Coroutine.sequential p (Coroutine.try_except c handler) h =
    try_except (Coroutine.sequential p c)
               (fun e => Coroutine.sequential p (handler e)) h.
Proof.
  unfold try_except.
  induction c as [[a | e] | k IH | k IH | addr timeout k IH | timeout k IH
                  | d name timeout m k IH]; intros h; simpl; auto.
Qed.

Lemma sequential_ending {A} (cleanup : Coroutine.coro unit) (r : result A) :
  forall h,
    Coroutine.sequential p (Coroutine.ending cleanup r) h =
    match Coroutine.sequential p cleanup h with
    | (Ok _, h2) => (r, h2)
    | (Raise e, h2) => (Raise e, h2)
    end.
Proof.
  induction cleanup as [[a | e] | k IH | k IH | addr timeout k IH
                        | timeout k IH | d name timeout m k IH];
    intros h; simpl; auto.
Qed.

Lemma sequential_try_finally {A} (c : Coroutine.coro A) cleanup :
  forall h,
    Coroutine.sequential p (Coroutine.try_finally c cleanup) h =
    try_finally (Coroutine.sequential p c)
                (Coroutine.sequential p cleanup) h.
Proof.
  unfold try_finally.
  induction c as [r | k IH | k IH | addr timeout k IH | timeout k IH
                  | d name timeout m k IH]; intros h; simpl; auto.
  apply sequential_ending.
Qed.

(** Run in one go, the coroutines are the methods. *)
Lemma sequential_resolve self h :
  Coroutine.sequential p (Coroutine._resolve_ble_device self) h =
  _resolve_ble_device p self h.
Proof.
  rewrite resolve_unfold. cbv zeta. simpl.
  destruct (on_find_device_by_address p h (mac_address self)) as [[d |] | e];
    simpl; try reflexivity.
  destruct (on_discover p _) as [devices | e]; simpl; [| reflexivity].
  destruct (scan_match self devices); reflexivity.
Qed.

Lemma sequential_connect_client self h :
  Coroutine.sequential p (Coroutine._connect_client self) h =
  _connect_client p self h.
Proof.
  unfold Coroutine._connect_client, Coroutine.async_with_lock.
  cbn [Coroutine.sequential].
  rewrite sequential_try_finally. unfold try_finally.
  rewrite sequential_bind. unfold bind.
  rewrite sequential_resolve, connect_client_unfold.
  destruct (_resolve_ble_device p self (h ++ [EvAcquire])) as [[d | e] h1];
    [| reflexivity].
  rewrite sequential_try_except. unfold try_except.
  unfold establish_connection. simpl.
  destruct (concluded (on_establish_connection p h1 d _ _ 3)) as [c | t];
    simpl; [reflexivity |].
  now destruct t.
Qed.

End Sequential.

(** *** The event loop and the control points *)

Lemma update_map {X Y} (f : X -> Y) (l : list X) t x :
  update (map f l) t (f x) = map f (update l t x).
Proof.
  revert t. induction l as [| y l IH]; intros [| t]; simpl; auto.
  now rewrite IH.
Qed.

Lemma is_waiter_in t ws :
  asyncio.is_waiter t ws = true <-> In t (map fst ws).
Proof.
  unfold asyncio.is_waiter. rewrite existsb_exists, in_map_iff.
  split.
  - intros (w & Hin & Heq). apply Nat.eqb_eq in Heq. eauto.
  - intros (w & Heq & Hin). exists w. split; [assumption |].
    now apply Nat.eqb_eq.
Qed.

Section Simulation.

Variable self : SolemAPI.

Lemma in_flight_code c : in_flight (code_at self c) = in_cs c.
Proof. destruct c; reflexivity. Qed.

Lemma is_finished_code c : is_finished (code_at self c) = is_done c.
Proof. destruct c; reflexivity. Qed.

Lemma code_at_start c :
  code_at self c = Coroutine._connect_client self -> c = Idle \/ c = WaitLock.
Proof. destruct c; simpl; auto; discriminate. Qed.

Lemma not_waiting s t c :
  lock_invariant s -> nth_error (tasks s) t = Some c -> c <> WaitLock ->
  asyncio.is_waiter t (asyncio.waiters (_conn_lock s)) = false.
Proof.
  intros [_ Hw _ _] Hnth Hc.
  destruct (asyncio.is_waiter t (asyncio.waiters (_conn_lock s))) eqn:Hq;
    [| reflexivity].
  apply is_waiter_in, in_map_iff in Hq as (w & Hfst & Hin).
  rewrite Forall_forall in Hw. specialize (Hw w Hin).
  rewrite Hfst in Hw. congruence.
Qed.

Lemma waiting s t :
  lock_invariant s -> nth_error (tasks s) t = Some WaitLock ->
  asyncio.is_waiter t (asyncio.waiters (_conn_lock s)) = true.
Proof.
  intros [_ _ Hq _] Hnth. apply is_waiter_in. now apply Hq.
Qed.

(** A run of a task in the event loop is the move of the task between
    its control points, and the other way round. *)
Lemma simulation s c t a :
  at_points self s c -> lock_invariant s ->
  match Coroutine.step t a c, move self t a s with
  | Some c', Some s' => at_points self s' c'
  | None, None => True
  | _, _ => False
  end.
Proof.
  destruct c as [l ts tr]. intros [Hlock Htasks] Hinv.
  cbn [Coroutine.lock Coroutine.tasks] in Hlock, Htasks. subst l ts.
  unfold Coroutine.step, move, at_points.
  cbn [Coroutine.lock Coroutine.tasks Coroutine.trace].
  rewrite nth_error_map.
  destruct (nth_error (tasks s) t) as [pt |] eqn:Hnth; [| exact I].
  destruct pt as [| | | | d | r]; cbn [option_map code_at].
  - (* Idle *)
    unfold Coroutine._connect_client, Coroutine.async_with_lock.
    destruct a; try exact I.
    rewrite (not_waiting s t Idle Hinv Hnth) by discriminate.
    unfold Coroutine.resume. cbn [Coroutine.advance].
    destruct (asyncio.free (_conn_lock s)).
    + cbn. split; [reflexivity |].
      apply (update_map (code_at self) (tasks s) t Resolving).
    + cbn. split; [reflexivity |].
      apply (update_map (code_at self) (tasks s) t WaitLock).
  - (* WaitLock *)
    unfold Coroutine._connect_client, Coroutine.async_with_lock.
    destruct a; try exact I.
    rewrite (waiting s t Hinv Hnth).
    destruct (asyncio.woken t (asyncio.waiters (_conn_lock s))); [| exact I].
    unfold Coroutine.resume. cbn. split; [reflexivity |].
    apply (update_map (code_at self) (tasks s) t Resolving).
  - (* Resolving *)
    destruct a as [| [[d |] | e] | |]; try exact I;
      unfold Coroutine.resume, leave; cbn.
    + split; [reflexivity |].
      apply (update_map (code_at self) (tasks s) t (Connecting d)).
    + split; [reflexivity |].
      apply (update_map (code_at self) (tasks s) t Scanning).
    + destruct (asyncio.release (_conn_lock s)); [| exact I].
      split; [reflexivity |].
      apply (update_map (code_at self) (tasks s) t
               (Done (Raise (Transport e)))).
  - (* Scanning *)
    destruct a as [| | [devices | e] |]; try exact I;
      unfold Coroutine.resume, leave; cbn.
    + destruct (scan_match self devices) as [d |]; cbn.
      * split; [reflexivity |].
        apply (update_map (code_at self) (tasks s) t (Connecting d)).
      * destruct (asyncio.release (_conn_lock s)); [| exact I].
        split; [reflexivity |].
        apply (update_map (code_at self) (tasks s) t
                 (Done (Raise device_not_found))).
    + destruct (asyncio.release (_conn_lock s)); [| exact I].
      split; [reflexivity |].
      apply (update_map (code_at self) (tasks s) t
               (Done (Raise (Transport e)))).
  - (* Connecting *)
    destruct a as [| | | [k [client | e]]]; try exact I;
      unfold Coroutine.resume, leave; cbn;
      (destruct (asyncio.release (_conn_lock s)); [| exact I]);
      (split; [reflexivity |]).
    + apply (update_map (code_at self) (tasks s) t (Done (Ok client))).
    + apply (update_map (code_at self) (tasks s) t
               (Done (Raise (connect_error (Transport e))))).
  - (* Done *)
    destruct a; exact I.
Qed.

End Simulation.

Section Callers.

Variable self : SolemAPI.

Lemma spawn_at_points n :
  at_points self (idle n) (Coroutine.spawn n (Coroutine._connect_client self)).
Proof.
  split; [reflexivity |]. simpl.
  induction n as [| n IH]; simpl; [reflexivity | now rewrite <- IH].
Qed.

Lemma total_idle n : total_remaining (idle n) = (5 * n)%nat.
Proof.
  unfold total_remaining. simpl.
  induction n as [| n IH]; simpl; [reflexivity | rewrite IH; lia].
Qed.

Lemma all_finished_code l :
  forallb is_finished (map (code_at self) l) = forallb is_done l.
Proof.
  induction l as [| c l IH]; simpl; [reflexivity |].
  now rewrite is_finished_code, IH.
Qed.

Lemma step_of_move s c t a s' :
  at_points self s c -> lock_invariant s -> move self t a s = Some s' ->
  exists c', Coroutine.step t a c = Some c' /\ at_points self s' c'.
Proof.
  intros Hat Hinv Hmove. pose proof (simulation self s c t a Hat Hinv) as Hsim.
  rewrite Hmove in Hsim.
  destruct (Coroutine.step t a c) as [c' |]; [eauto | contradiction].
Qed.

Lemma move_of_step s c t a c' :
  at_points self s c -> lock_invariant s -> Coroutine.step t a c = Some c' ->
  exists s', move self t a s = Some s' /\ at_points self s' c'.
Proof.
  intros Hat Hinv Hstep. pose proof (simulation self s c t a Hat Hinv) as Hsim.
  rewrite Hstep in Hsim.
  destruct (move self t a s) as [s' |]; [eauto | contradiction].
Qed.

(** Every state that the callers reach has its tasks at control points
    that satisfy the invariant. *)
Lemma reachable_points n c :
  reachable (Coroutine.spawn n (Coroutine._connect_client self)) c ->
  exists s, at_points self s c /\ lock_invariant s /\
            (total_remaining s <= 5 * n)%nat.
Proof.
  induction 1 as [| c t a c' _ IH Hstep].
  - exists (idle n). split; [apply spawn_at_points |].
    split; [apply idle_invariant | rewrite total_idle; lia].
  - destruct IH as (s & Hat & Hinv & Hrem).
    destruct (move_of_step s c t a c' Hat Hinv Hstep) as (s' & Hmove & Hat').
    exists s'. split; [exact Hat' |].
    split; [now apply (move_invariant self s t a s') |].
    apply move_decreases in Hmove. lia.
Qed.

(** No schedule is longer than what the tasks have left. *)
Lemma runs_are_bounded schedule :
  forall s c c',
    at_points self s c -> lock_invariant s ->
    Coroutine.run schedule c = Some c' ->
    (List.length schedule <= total_remaining s)%nat.
Proof.
  induction schedule as [| [t a] rest IH]; intros s c c' Hat Hinv Hrun;
    simpl in *; [lia |].
  destruct (Coroutine.step t a c) as [c1 |] eqn:Hstep; [| discriminate].
  destruct (move_of_step s c t a c1 Hat Hinv Hstep) as (s1 & Hmove & Hat1).
  pose proof (move_invariant self s t a s1 Hinv Hmove) as Hinv1.
  specialize (IH s1 c1 c' Hat1 Hinv1 Hrun).
  apply move_decreases in Hmove. lia.
Qed.

(** From every state the callers can be run to completion. *)
Lemma callers_complete k :
  forall s c,
    at_points self s c -> lock_invariant s -> (total_remaining s <= k)%nat ->
    exists schedule c',
      Coroutine.run schedule c = Some c' /\
      forallb is_finished (Coroutine.tasks c') = true.
Proof.
  induction k as [| k IH]; intros s c Hat Hinv Hk;
    destruct (forallb is_done (tasks s)) eqn:Hd.
  - exists [], c. split; [reflexivity |].
    destruct Hat as [_ ->]. now rewrite all_finished_code.
  - destruct (move_progress self s Hinv Hd) as (t & a & s' & Hmove).
    apply move_decreases in Hmove. lia.
  - exists [], c. split; [reflexivity |].
    destruct Hat as [_ ->]. now rewrite all_finished_code.
  - destruct (move_progress self s Hinv Hd) as (t & a & s' & Hmove).
    destruct (step_of_move s c t a s' Hat Hinv Hmove) as (c' & Hstep & Hat').
    pose proof (move_invariant self s t a s' Hinv Hmove) as Hinv'.
    pose proof (move_decreases self s t a s' Hmove) as Hlt.
    destruct (IH s' c' Hat' Hinv') as (schedule & c'' & Hrun & Hdone); [lia |].
    exists ((t, a) :: schedule), c''. simpl. rewrite Hstep. auto.
Qed.

(** The control point of a task of the event loop. *)
Lemma task_point s c t code :
  at_points self s c -> nth_error (Coroutine.tasks c) t = Some code ->
  exists pt, nth_error (tasks s) t = Some pt /\ code = code_at self pt.
Proof.
  intros [_ Htasks] Hnth. rewrite Htasks, nth_error_map in Hnth.
  destruct (nth_error (tasks s) t) as [pt |]; [| discriminate].
  injection Hnth as <-. eauto.
Qed.

End Callers.

(** C9. Any number of callers run [_connect_client] on one instance, as
    tasks of the event loop; the coroutine that they run is the method
    (run in one go, it does what the method does on every platform). In
    every state that the callers can reach: at most one of them is in
    flight, between the start of its resolution and the end of its
    connect; a caller that arrives while another is in flight queues up
    for the lock without making any call, and stays suspended, whatever
    resumes it, as long as the other is in flight; when no caller is in
    flight the lock is not held (it is released after every attempt,
    returned or raised); and the callers never get stuck: while some
    caller is not finished a step is possible, no schedule is longer than
    five steps for each caller, and a schedule exists that finishes all
    of them. *)
Theorem connect_sections_never_overlap (self : SolemAPI) (n : nat)
        (s : Coroutine.state BleakClient) :
  reachable (Coroutine.spawn n (Coroutine._connect_client self)) s ->
  (forall p h,
      Coroutine.sequential p (Coroutine._connect_client self) h =
      _connect_client p self h) /\
  (forall t1 t2 c1 c2,
      nth_error (Coroutine.tasks s) t1 = Some c1 ->
      nth_error (Coroutine.tasks s) t2 = Some c2 ->
      in_flight c1 = true -> in_flight c2 = true -> t1 = t2) /\
  (forall t1 c1 t2,
      nth_error (Coroutine.tasks s) t1 = Some c1 -> in_flight c1 = true ->
      nth_error (Coroutine.tasks s) t2 = Some (Coroutine._connect_client self) ->
      queued t2 s = false ->
      exists s', Coroutine.step t2 Go s = Some s' /\
                 queued t2 s' = true /\
                 nth_error (Coroutine.tasks s') t2 =
                   Some (Coroutine._connect_client self) /\
                 nth_error (Coroutine.tasks s') t1 = Some c1 /\
                 Coroutine.trace s' = Coroutine.trace s) /\
  (forall t1 c1 t2 a,
      nth_error (Coroutine.tasks s) t1 = Some c1 -> in_flight c1 = true ->
      queued t2 s = true ->
      Coroutine.step t2 a s = None) /\
  ((forall t c, nth_error (Coroutine.tasks s) t = Some c ->
                in_flight c = false) ->
   asyncio.locked (Coroutine.lock s) = false) /\
  (forallb is_finished (Coroutine.tasks s) = false ->
   exists t a s', Coroutine.step t a s = Some s') /\
  (forall schedule s',
      Coroutine.run schedule s = Some s' ->
      (List.length schedule <= 5 * n)%nat) /\
  (exists schedule s',
      Coroutine.run schedule s = Some s' /\
      forallb is_finished (Coroutine.tasks s') = true).
Proof.
  intros Hreach.
  destruct (reachable_points self n s Hreach) as (so & Hat & Hinv & Hrem).
  assert (Hflight : forall t c,
             nth_error (Coroutine.tasks s) t = Some c -> in_flight c = true ->
             exists pt, nth_error (tasks so) t = Some pt /\ in_cs pt = true /\
                        c = code_at self pt).
  { intros t c Hnth Hc.
    destruct (task_point self so s t c Hat Hnth) as (pt & Hpt & ->).
    rewrite in_flight_code in Hc. eauto. }
  repeat apply conj.
  - intros p h. apply sequential_connect_client.
  - intros t1 t2 c1 c2 H1 H2 Hc1 Hc2.
    destruct (Hflight t1 c1 H1 Hc1) as (p1 & Hp1 & Hcs1 & _).
    destruct (Hflight t2 c2 H2 Hc2) as (p2 & Hp2 & Hcs2 & _).
    destruct (Nat.eq_dec t1 t2) as [Heq | Hne]; [assumption |].
    pose proof (count_cs_two _ _ _ _ _ Hp1 Hp2 Hcs1 Hcs2 Hne) as Htwo.
    pose proof (inv_holder so Hinv) as Hh.
    destruct (asyncio.locked (_conn_lock so)); lia.
  - intros t1 c1 t2 H1 Hc1 H2 Hq.
    destruct (Hflight t1 c1 H1 Hc1) as (p1 & Hp1 & Hcs1 & ->).
    destruct (task_point self so s t2 _ Hat H2) as (p2 & Hp2 & Hcode).
    pose proof (holder_locked so t1 p1 Hinv Hp1 Hcs1) as Hl.
    assert (Hidle : p2 = Idle).
    { symmetry in Hcode. apply code_at_start in Hcode as [-> | ->];
        [reflexivity |].
      pose proof (waiting so t2 Hinv Hp2) as Hw.
      unfold queued in Hq. destruct Hat as [Hlock _].
      rewrite Hlock in Hq. congruence. }
    subst p2.
    assert (Hmove : move self t2 Go so =
              Some {| _conn_lock :=
                        {| asyncio.locked := asyncio.locked (_conn_lock so);
                           asyncio.waiters :=
                             asyncio.waiters (_conn_lock so) ++ [(t2, false)] |};
                      tasks := update (tasks so) t2 WaitLock |}).
    { unfold move, asyncio.free. now rewrite Hp2, Hl. }
    destruct (step_of_move self so s t2 Go _ Hat Hinv Hmove)
      as (s' & Hstep & [Hlock' Htasks']).
    exists s'. split; [exact Hstep |].
    cbn [_conn_lock tasks] in Hlock', Htasks'.
    split; [| split; [| split]].
    + unfold queued. rewrite Hlock'. cbn [asyncio.waiters].
      apply is_waiter_in. rewrite map_app. apply in_or_app. right.
      simpl. auto.
    + rewrite Htasks', nth_error_map, nth_error_update_same, Hp2.
      reflexivity.
    + rewrite Htasks', nth_error_map, nth_error_update_other, Hp1;
        [reflexivity |].
      intros <-. rewrite Hp1 in Hp2. injection Hp2 as ->. discriminate.
    + unfold Coroutine.step in Hstep. rewrite H2 in Hstep.
      unfold Coroutine._connect_client, Coroutine.async_with_lock in Hstep.
      unfold queued in Hq. rewrite Hq in Hstep.
      unfold Coroutine.resume in Hstep. cbn [Coroutine.advance] in Hstep.
      destruct Hat as [Hlock _].
      unfold asyncio.free in Hstep. rewrite Hlock, Hl in Hstep.
      cbn in Hstep. injection Hstep as <-. cbn. apply app_nil_r.
  - intros t1 c1 t2 a H1 Hc1 Hq.
    destruct (Hflight t1 c1 H1 Hc1) as (p1 & Hp1 & Hcs1 & ->).
    pose proof (holder_locked so t1 p1 Hinv Hp1 Hcs1) as Hl.
    assert (Hp2 : nth_error (tasks so) t2 = Some WaitLock).
    { unfold queued in Hq. destruct Hat as [Hlock _]. rewrite Hlock in Hq.
      apply is_waiter_in, in_map_iff in Hq as (w & Hfst & Hin).
      pose proof (inv_waiting so Hinv) as Hw. rewrite Forall_forall in Hw.
      specialize (Hw w Hin). now rewrite Hfst in Hw. }
    pose proof (simulation self so s t2 a Hat Hinv) as Hsim.
    assert (Hmove : move self t2 a so = None).
    { unfold move. rewrite Hp2. destruct a; try reflexivity.
      destruct (asyncio.woken t2 (asyncio.waiters (_conn_lock so)))
        eqn:Hwoken; [| reflexivity].
      destruct (woken_head so t2 Hinv Hwoken) as [Hfree _]. congruence. }
    rewrite Hmove in Hsim.
    destruct (Coroutine.step t2 a s); [contradiction | reflexivity].
  - intros Hnone. pose proof (inv_holder so Hinv) as Hh.
    destruct Hat as [Hlock Htasks]. rewrite Hlock.
    destruct (asyncio.locked (_conn_lock so)); [| reflexivity].
    destruct (count_cs_witness (tasks so)) as (t & c & Hnth & Hc); [lia |].
    specialize (Hnone t (code_at self c)).
    rewrite Htasks, nth_error_map, Hnth, in_flight_code in Hnone.
    rewrite (Hnone eq_refl) in Hc. discriminate.
  - intros Hnf.
    assert (Hnd : forallb is_done (tasks so) = false).
    { destruct Hat as [_ Htasks]. rewrite Htasks in Hnf.
      now rewrite all_finished_code in Hnf. }
    destruct (move_progress self so Hinv Hnd) as (t & a & s' & Hmove).
    destruct (step_of_move self so s t a s' Hat Hinv Hmove) as (c' & Hstep & _).
    eauto.
  - intros schedule s' Hrun.
    pose proof (runs_are_bounded self schedule so s s' Hat Hinv Hrun). lia.
  - apply (callers_complete self (total_remaining so) so s); auto.
Qed.

(** C9, with two callers: the second queues up while the first is in
    flight, and cannot go on before the first has left. *)
Lemma connect_sections_never_overlap_two_callers :
  Coroutine.run [(0%nat, Go); (1%nat, Go)]
                (Coroutine.spawn 2 (Coroutine._connect_client api0))
    = Some two_callers /\
  Coroutine.step 1 Go two_callers = None /\
  exists schedule s',
    Coroutine.run schedule two_callers = Some s' /\
    forallb is_finished (Coroutine.tasks s') = true.
Proof.
  assert (Hrun : Coroutine.run [(0%nat, Go); (1%nat, Go)]
                   (Coroutine.spawn 2 (Coroutine._connect_client api0))
                 = Some two_callers) by reflexivity.
  assert (Hreach : reachable (Coroutine.spawn 2 (Coroutine._connect_client api0))
                             two_callers).
  { apply (reachable_step _
             {| Coroutine.lock := {| asyncio.locked := true;
                                     asyncio.waiters := [] |};
                Coroutine.tasks :=
                  [holding api0 (Coroutine._resolve_ble_device api0);
                   Coroutine._connect_client api0];
                Coroutine.trace := [(0%nat, EvAcquire)] |} 1 Go);
      [| reflexivity].
    apply (reachable_step _ (Coroutine.spawn 2 (Coroutine._connect_client api0))
             0 Go); [| reflexivity].
    apply reachable_start. }
  destruct (connect_sections_never_overlap api0 2 two_callers Hreach)
    as (_ & _ & _ & Hwait & _ & _ & _ & Hdone).
  split; [exact Hrun |]. split; [| exact Hdone].
  apply (Hwait 0%nat (holding api0 (Coroutine._resolve_ble_device api0))
               1%nat Go); reflexivity.
Defined.

(** *** One caller in the event loop *)

Lemma map_snd_pair {X} (t : nat) (evs : list X) :
  map snd (map (pair t) evs) = evs.
Proof. induction evs as [| e evs IH]; simpl; [reflexivity | now rewrite IH]. Qed.

Section Solo.

Variable p : Platform.
Variable self : SolemAPI.
Variable h : history.

Lemma solo_start rest :
  Coroutine.platform_run p h (0%nat :: rest)
    (Coroutine.spawn 1 (Coroutine._connect_client self)) =
  Coroutine.platform_run p h rest
    {| Coroutine.lock := {| asyncio.locked := true; asyncio.waiters := [] |};
       Coroutine.tasks := [holding self (Coroutine._resolve_ble_device self)];
       Coroutine.trace := [(0%nat, EvAcquire)] |}.
Proof. reflexivity. Qed.

Lemma solo_lookup rest :
  Coroutine.platform_run p h (0%nat :: rest)
    {| Coroutine.lock := {| asyncio.locked := true; asyncio.waiters := [] |};
       Coroutine.tasks := [holding self (Coroutine._resolve_ble_device self)];
       Coroutine.trace := [(0%nat, EvAcquire)] |} =
  let tr := [(0%nat, EvAcquire); (0%nat, EvFind (mac_address self) 5)] in
  match on_find_device_by_address p (h ++ [EvAcquire]) (mac_address self) with
  | Returns (Some d) =>
      Coroutine.platform_run p h rest
        {| Coroutine.lock := {| asyncio.locked := true;
                                asyncio.waiters := [] |};
           Coroutine.tasks := [holding self (Coroutine.ret d)];
           Coroutine.trace := tr |}
  | Returns None =>
      Coroutine.platform_run p h rest
        {| Coroutine.lock := {| asyncio.locked := true;
                                asyncio.waiters := [] |};
           Coroutine.tasks := [holding self (fallback_scan self)];
           Coroutine.trace := tr |}
  | Raises e =>
      Coroutine.platform_run p h rest
        {| Coroutine.lock := asyncio.new_lock;
           Coroutine.tasks := [Coroutine.Finished (Raise (Transport e))];
           Coroutine.trace := tr ++ [(0%nat, EvRelease)] |}
  end.
Proof.
  cbn.
  destruct (on_find_device_by_address p (h ++ [EvAcquire]) (mac_address self))
    as [[d |] | e]; reflexivity.
Qed.

Lemma solo_scan rest :
  let tr := [(0%nat, EvAcquire); (0%nat, EvFind (mac_address self) 5)] in
  Coroutine.platform_run p h (0%nat :: rest)
    {| Coroutine.lock := {| asyncio.locked := true; asyncio.waiters := [] |};
       Coroutine.tasks := [holding self (fallback_scan self)];
       Coroutine.trace := tr |} =
  match on_discover p (h ++ [EvAcquire; EvFind (mac_address self) 5]) with
  | Returns devices =>
      match scan_match self devices with
      | Some d =>
          Coroutine.platform_run p h rest
            {| Coroutine.lock := {| asyncio.locked := true;
                                    asyncio.waiters := [] |};
               Coroutine.tasks := [holding self (Coroutine.ret d)];
               Coroutine.trace := tr ++ [(0%nat, EvDiscover 5)] |}
      | None =>
          Coroutine.platform_run p h rest
            {| Coroutine.lock := asyncio.new_lock;
               Coroutine.tasks := [Coroutine.Finished (Raise device_not_found)];
               Coroutine.trace :=
                 tr ++ [(0%nat, EvDiscover 5); (0%nat, EvRelease)] |}
      end
  | Raises e =>
      Coroutine.platform_run p h rest
        {| Coroutine.lock := asyncio.new_lock;
           Coroutine.tasks := [Coroutine.Finished (Raise (Transport e))];
           Coroutine.trace :=
             tr ++ [(0%nat, EvDiscover 5); (0%nat, EvRelease)] |}
  end.
Proof.
  cbn.
  destruct (on_discover p (h ++ [EvAcquire; EvFind (mac_address self) 5]))
    as [devices | e]; [| reflexivity].
  cbn. destruct (scan_match self devices); reflexivity.
Qed.

Lemma solo_connect rest d evs :
  Coroutine.platform_run p h (0%nat :: rest)
    {| Coroutine.lock := {| asyncio.locked := true; asyncio.waiters := [] |};
       Coroutine.tasks := [holding self (Coroutine.ret d)];
       Coroutine.trace := map (pair 0%nat) evs |} =
  let run := connector_call p self d (h ++ evs) in
  Coroutine.platform_run p h rest
    {| Coroutine.lock := asyncio.new_lock;
       Coroutine.tasks :=
         [Coroutine.Finished
            match concluded run with
            | Returns c => Ok c
            | Raises t => Raise (APIConnectionError (connection_error_message t))
            end];
       Coroutine.trace :=
         map (pair 0%nat)
             (evs ++ repeat (EvConnect d (bluetooth_timeout self)) (tries run)
                  ++ [EvRelease]) |}.
Proof.
  cbn. rewrite map_snd_pair. unfold connector_call.
  destruct (concluded (on_establish_connection p (h ++ evs) d _ _ 3))
    as [c | t]; cbn; rewrite ?map_app; cbn; try reflexivity.
  destruct t; reflexivity.
Qed.

End Solo.

(** X3. A caller alone in the event loop does what the sequential method
    does: resumed each time with the answer that the platform gives after
    the calls made so far, its task finishes in at most four runs with
    the result of [_connect_client] on that platform, its calls are those
    of the method in the same order, and the lock is free again. *)
Theorem solo_caller_agrees (p : Platform) (self : SolemAPI) (h : history) :
  exists k,
    (k <= 4)%nat /\
    Coroutine.platform_run p h (repeat 0%nat k)
      (Coroutine.spawn 1 (Coroutine._connect_client self)) =
    Some {| Coroutine.lock := asyncio.new_lock;
            Coroutine.tasks :=
              [Coroutine.Finished (outcome (_connect_client p self) h)];
            Coroutine.trace :=
              map (pair 0%nat) (new_events (_connect_client p self) h) |}.
Proof.
  rewrite connect_client_outcome.
  destruct (connect_client_events p self h) as (connects & Hsnd & Hconnects).
  rewrite (new_events_eq _ _ _ Hsnd). clear Hsnd.
  pose proof (resolve_unfold p self (h ++ [EvAcquire])) as Hres.
  cbv zeta in Hres.
  assert (Hassoc : (h ++ [EvAcquire]) ++ [EvFind (mac_address self) 5] =
                   h ++ [EvAcquire; EvFind (mac_address self) 5])
    by now rewrite <- app_assoc.
  assert (Hassoc' : ((h ++ [EvAcquire]) ++ [EvFind (mac_address self) 5])
                      ++ [EvDiscover 5] =
                    h ++ [EvAcquire; EvFind (mac_address self) 5; EvDiscover 5])
    by now rewrite <- !app_assoc.
  destruct (on_find_device_by_address p (h ++ [EvAcquire]) (mac_address self))
    as [[d |] | e] eqn:Hfind.
  - rewrite (new_events_eq _ _ _ (f_equal snd Hres)).
    rewrite Hres, Hassoc in *. subst connects.
    exists 3%nat. split; [lia |]. cbn [repeat].
    rewrite solo_start, solo_lookup, Hfind. cbv zeta.
    change [(0%nat, EvAcquire); (0%nat, EvFind (mac_address self) 5)]
      with (map (pair 0%nat) [EvAcquire; EvFind (mac_address self) 5]).
    rewrite solo_connect. reflexivity.
  - assert (Hev : new_events (_resolve_ble_device p self) (h ++ [EvAcquire])
                  = [EvFind (mac_address self) 5; EvDiscover 5]).
    { apply new_events_eq. rewrite Hres. cbn [snd].
      now rewrite <- app_assoc. }
    rewrite Hev. clear Hev.
    rewrite Hres, Hassoc, Hassoc' in *.
    destruct (on_discover p (h ++ [EvAcquire; EvFind (mac_address self) 5]))
      as [devices | e] eqn:Hscan.
    + destruct (scan_match self devices) as [d |] eqn:Hmatch.
      * subst connects.
        exists 4%nat. split; [lia |]. cbn [repeat].
        rewrite solo_start, solo_lookup, Hfind. cbv zeta.
        rewrite solo_scan, Hscan, Hmatch. cbv zeta.
        change ([(0%nat, EvAcquire); (0%nat, EvFind (mac_address self) 5)]
                  ++ [(0%nat, EvDiscover 5)])
          with (map (pair 0%nat)
                    [EvAcquire; EvFind (mac_address self) 5; EvDiscover 5]).
        rewrite solo_connect. reflexivity.
      * subst connects.
        exists 3%nat. split; [lia |]. cbn [repeat].
        rewrite solo_start, solo_lookup, Hfind. cbv zeta.
        rewrite solo_scan, Hscan, Hmatch. reflexivity.
    + subst connects.
      exists 3%nat. split; [lia |]. cbn [repeat].
      rewrite solo_start, solo_lookup, Hfind. cbv zeta.
      rewrite solo_scan, Hscan. reflexivity.
  - rewrite (new_events_eq _ _ _ (f_equal snd Hres)).
    rewrite Hres in *. subst connects.
    exists 2%nat. split; [lia |]. cbn [repeat].
    rewrite solo_start, solo_lookup, Hfind. reflexivity.
Qed.

(** *** The sections in the trace *)

Lemma sections_app holder tr tr' :
  sections holder (tr ++ tr') =
  match sections holder tr with
  | Some holder' => sections holder' tr'
  | None => None
  end.
Proof.
  revert holder. induction tr as [| [t e] tr IH]; intros holder; simpl;
    [reflexivity |].
  destruct holder as [t' |]; destruct e; try reflexivity;
    try (destruct (Nat.eqb t t'); [apply IH | reflexivity]); apply IH.
Qed.

Lemma sections_tries t d timeout k :
  sections (Some t)
           (map (pair t) (repeat (EvConnect d timeout) k ++ [EvRelease]))
  = Some None.
Proof.
  induction k as [| k IH]; simpl; rewrite Nat.eqb_refl; [reflexivity | exact IH].
Qed.

Section Traces.

Variable self : SolemAPI.

(** The calls that a run of a task adds to the trace are those of its
    move. *)
Lemma simulation_trace s c t a c' :
  at_points self s c -> lock_invariant s ->
  Coroutine.step t a c = Some c' ->
  Coroutine.trace c' =
    Coroutine.trace c ++ map (pair t) (move_events self t a s).
Proof.
  destruct c as [l ts tr]. intros [Hlock Htasks] Hinv.
  cbn [Coroutine.lock Coroutine.tasks] in Hlock, Htasks. subst l ts.
  unfold Coroutine.step, move_events.
  cbn [Coroutine.lock Coroutine.tasks Coroutine.trace].
  rewrite nth_error_map.
  destruct (nth_error (tasks s) t) as [pt |] eqn:Hnth; [| discriminate].
  destruct pt as [| | | | d | r]; cbn [option_map code_at].
  - unfold Coroutine._connect_client, Coroutine.async_with_lock.
    destruct a; try discriminate.
    rewrite (not_waiting s t Idle Hinv Hnth) by discriminate.
    unfold Coroutine.resume. cbn [Coroutine.advance].
    destruct (asyncio.free (_conn_lock s)); cbn; intros [= <-]; reflexivity.
  - unfold Coroutine._connect_client, Coroutine.async_with_lock.
    destruct a; try discriminate.
    rewrite (waiting s t Hinv Hnth).
    destruct (asyncio.woken t (asyncio.waiters (_conn_lock s)));
      [| discriminate].
    unfold Coroutine.resume. cbn. intros [= <-]. reflexivity.
  - destruct a as [| [[d |] | e] | |]; try discriminate;
      unfold Coroutine.resume; cbn;
      try (destruct (asyncio.release (_conn_lock s)); [| discriminate]);
      intros [= <-]; reflexivity.
  - destruct a as [| | [devices | e] |]; try discriminate;
      unfold Coroutine.resume; cbn.
    + destruct (scan_match self devices) as [d |]; cbn;
        try (destruct (asyncio.release (_conn_lock s)); [| discriminate]);
        intros [= <-]; reflexivity.
    + destruct (asyncio.release (_conn_lock s)); [| discriminate].
      intros [= <-]. reflexivity.
  - destruct a as [| | | [k [client | e]]]; try discriminate;
      unfold Coroutine.resume; cbn;
      (destruct (asyncio.release (_conn_lock s)); [| discriminate]);
      intros [= <-]; cbn; now rewrite !map_app.
  - destruct a; discriminate.
Qed.

Lemma section_open_unique s t c holder :
  lock_invariant s -> section_open (tasks s) holder ->
  nth_error (tasks s) t = Some c -> in_cs c = true -> holder = Some t.
Proof.
  intros Hinv Hopen Hnth Hc. destruct holder as [t' |]; simpl in Hopen.
  - destruct Hopen as (c' & Hnth' & Hc').
    destruct (Nat.eq_dec t' t) as [-> | Hne]; [reflexivity |].
    pose proof (count_cs_two _ _ _ _ _ Hnth' Hnth Hc' Hc Hne) as Htwo.
    pose proof (inv_holder s Hinv) as Hh.
    destruct (asyncio.locked (_conn_lock s)); lia.
  - pose proof (count_cs_member _ _ _ Hnth Hc). lia.
Qed.

Lemma section_open_free s holder :
  lock_invariant s -> section_open (tasks s) holder ->
  asyncio.locked (_conn_lock s) = false -> holder = None.
Proof.
  intros Hinv Hopen Hl. destruct holder as [t |]; [| reflexivity].
  destruct Hopen as (c & Hnth & Hc).
  pose proof (holder_locked s t c Hinv Hnth Hc). congruence.
Qed.

Lemma section_closed s :
  lock_invariant s -> asyncio.locked (_conn_lock s) = false ->
  section_open (tasks s) None.
Proof. intros [Hh _ _ _] Hl. simpl. now rewrite Hl in Hh. Qed.

Lemma leave_unlocked s t r s' :
  leave s t r = Some s' -> asyncio.locked (_conn_lock s') = false.
Proof.
  unfold leave, asyncio.release.
  destruct (asyncio.locked (_conn_lock s)); [| discriminate].
  intros [= <-]. reflexivity.
Qed.

(** A move extends a trace of sections by a piece of a section of its
    task. *)
Lemma move_sections s t a s' holder :
  lock_invariant s -> move self t a s = Some s' ->
  section_open (tasks s) holder ->
  exists holder',
    sections holder (map (pair t) (move_events self t a s)) = Some holder' /\
    section_open (tasks s') holder'.
Proof.
  intros Hinv Hmove Hopen.
  pose proof (move_invariant self s t a s' Hinv Hmove) as Hinv'.
  assert (Hleave : forall old r evs,
             nth_error (tasks s) t = Some old -> in_cs old = true ->
             leave s t r = Some s' ->
             sections (Some t) (map (pair t) evs) = Some None ->
             exists holder',
               sections holder (map (pair t) evs) = Some holder' /\
               section_open (tasks s') holder').
  { intros old r evs Hnth Hc Hl Hsec.
    rewrite (section_open_unique s t old holder Hinv Hopen Hnth Hc).
    exists None. split; [exact Hsec |].
    apply section_closed; [exact Hinv' | now apply (leave_unlocked s t r)]. }
  assert (Hstay : forall old x e,
             nth_error (tasks s) t = Some old -> in_cs old = true ->
             in_cs x = true ->
             s' = {| _conn_lock := _conn_lock s;
                     tasks := update (tasks s) t x |} ->
             sections (Some t) [(t, e)] = Some (Some t) ->
             exists holder',
               sections holder [(t, e)] = Some holder' /\
               section_open (tasks s') holder').
  { intros old x e Hnth Hc Hx -> Hsec.
    rewrite (section_open_unique s t old holder Hinv Hopen Hnth Hc).
    exists (Some t). split; [exact Hsec |].
    exists x. simpl. now rewrite nth_error_update_same, Hnth. }
  unfold move in Hmove. unfold move_events.
  destruct (nth_error (tasks s) t) as [c |] eqn:Hnth; [| discriminate].
  destruct c as [| | | | d | r];
    destruct a as [| [o | e] | [devices | e] | cr]; try discriminate.
  - (* Idle *)
    destruct (asyncio.free (_conn_lock s)) eqn:Hfree; injection Hmove as <-.
    + assert (Hl : asyncio.locked (_conn_lock s) = false).
      { unfold asyncio.free in Hfree.
        apply andb_true_iff in Hfree as [Hl _]. now apply negb_true_iff. }
      rewrite (section_open_free s holder Hinv Hopen Hl).
      exists (Some t). split; [reflexivity |].
      exists Resolving. simpl. now rewrite nth_error_update_same, Hnth.
    + exists holder. split; [reflexivity |].
      destruct holder as [t' |]; simpl in *.
      * destruct Hopen as (c' & Hnth' & Hc'). exists c'.
        split; [| exact Hc'].
        rewrite nth_error_update_other; [exact Hnth' |].
        intros ->. rewrite Hnth in Hnth'. injection Hnth' as <-.
        discriminate.
      * pose proof (count_cs_update _ _ _ WaitLock Hnth) as Hc.
        simpl in Hc. lia.
  - (* WaitLock *)
    destruct (asyncio.woken t (asyncio.waiters (_conn_lock s))) eqn:Hwoken;
      [| discriminate].
    injection Hmove as <-.
    destruct (woken_head s t Hinv Hwoken) as (Hl & _).
    rewrite (section_open_free s holder Hinv Hopen Hl).
    exists (Some t). split; [reflexivity |].
    exists Resolving. simpl. now rewrite nth_error_update_same, Hnth.
  - (* Resolving: the lookup returned *)
    destruct o as [d |]; injection Hmove as Hs'; symmetry in Hs'.
    + apply (Hstay Resolving (Connecting d) _ eq_refl eq_refl eq_refl Hs').
      simpl. now rewrite Nat.eqb_refl.
    + apply (Hstay Resolving Scanning _ eq_refl eq_refl eq_refl Hs').
      simpl. now rewrite Nat.eqb_refl.
  - (* Resolving: the lookup raised *)
    apply (Hleave Resolving _ [EvFind (mac_address self) 5; EvRelease]
                  eq_refl eq_refl Hmove).
    simpl. now rewrite Nat.eqb_refl.
  - (* Scanning: the scan returned *)
    destruct (scan_match self devices) as [d |].
    + injection Hmove as Hs'. symmetry in Hs'.
      apply (Hstay Scanning (Connecting d) _ eq_refl eq_refl eq_refl Hs').
      simpl. now rewrite Nat.eqb_refl.
    + apply (Hleave Scanning _ [EvDiscover 5; EvRelease] eq_refl eq_refl Hmove).
      simpl. now rewrite Nat.eqb_refl.
  - (* Scanning: the scan raised *)
    apply (Hleave Scanning _ [EvDiscover 5; EvRelease] eq_refl eq_refl Hmove).
    simpl. now rewrite Nat.eqb_refl.
  - (* Connecting *)
    apply (Hleave (Connecting d) _ _ eq_refl eq_refl Hmove).
    apply sections_tries.
Qed.

(** In every state that the callers reach, the trace is made of sections
    that follow one another, and the open section is that of the task in
    the critical section. *)
Lemma reachable_sections n c :
  reachable (Coroutine.spawn n (Coroutine._connect_client self)) c ->
  exists s holder,
    at_points self s c /\ lock_invariant s /\
    sections None (Coroutine.trace c) = Some holder /\
    section_open (tasks s) holder.
Proof.
  induction 1 as [| c t a c' _ IH Hstep].
  - exists (idle n), None.
    split; [apply spawn_at_points |]. split; [apply idle_invariant |].
    split; [reflexivity |].
    apply section_closed; [apply idle_invariant | reflexivity].
  - destruct IH as (s & holder & Hat & Hinv & Hsec & Hopen).
    destruct (move_of_step self s c t a c' Hat Hinv Hstep)
      as (s' & Hmove & Hat').
    destruct (move_sections s t a s' holder Hinv Hmove Hopen)
      as (holder' & Hsec' & Hopen').
    exists s', holder'. split; [exact Hat' |].
    split; [now apply (move_invariant self s t a s') |].
    split; [| exact Hopen'].
    rewrite (simulation_trace s c t a c' Hat Hinv Hstep).
    now rewrite sections_app, Hsec.
Qed.

End Traces.

(** X18. In every state that any number of concurrent callers of
    [_connect_client] on one instance can reach, the calls made so far
    come in sections that follow one another: between the acquire of a
    caller and its release only that caller has looked up, scanned or
    tried to connect, nothing of the kind was done outside a section, and
    the section that is still open, if any, is that of the one caller
    that awaits the scanner or the connector. *)
Theorem sections_follow_one_another (self : SolemAPI) (n : nat)
        (s : Coroutine.state BleakClient) :
  reachable (Coroutine.spawn n (Coroutine._connect_client self)) s ->
  exists holder,
    sections None (Coroutine.trace s) = Some holder /\
    forall t,
      holder = Some t <->
      exists c, nth_error (Coroutine.tasks s) t = Some c /\
                in_flight c = true.
Proof.
  intros Hreach.
  destruct (reachable_sections self n s Hreach)
    as (so & holder & Hat & Hinv & Hsec & Hopen).
  exists holder. split; [exact Hsec |].
  intros t. split.
  - intros ->. destruct Hopen as (pt & Hnth & Hc).
    exists (code_at self pt). destruct Hat as [_ Htasks].
    rewrite Htasks, nth_error_map, Hnth, in_flight_code. auto.
  - intros (c & Hnth & Hc).
    destruct (task_point self so s t c Hat Hnth) as (pt & Hpt & ->).
    rewrite in_flight_code in Hc.
    now apply (section_open_unique so t pt holder).
Qed.

(** X18, with two callers, once the first has taken the lock and the
    second has arrived: the one open section is that of the first. *)
Lemma sections_follow_one_another_two_callers :
  reachable (Coroutine.spawn 2 (Coroutine._connect_client api0)) two_callers /\
  exists holder,
    sections None (Coroutine.trace two_callers) = Some holder /\
    forall t,
      holder = Some t <->
      exists c, nth_error (Coroutine.tasks two_callers) t = Some c /\
                in_flight c = true.
Proof.
  assert (Hreach : reachable (Coroutine.spawn 2 (Coroutine._connect_client api0))
                             two_callers).
  { apply (reachable_step _
             {| Coroutine.lock := {| asyncio.locked := true;
                                     asyncio.waiters := [] |};
                Coroutine.tasks :=
                  [holding api0 (Coroutine._resolve_ble_device api0);
                   Coroutine._connect_client api0];
                Coroutine.trace := [(0%nat, EvAcquire)] |} 1 Go);
      [| reflexivity].
    apply (reachable_step _ (Coroutine.spawn 2 (Coroutine._connect_client api0))
             0 Go); [| reflexivity].
    apply reachable_start. }
  split; [exact Hreach |].
  exact (sections_follow_one_another api0 2 two_callers Hreach).
Defined.

(** * Further properties of the API *)

(** ** The arguments of the platform calls *)

Section ApiEvents.

Variable p : Platform.
Variable self : SolemAPI.

Lemma api_event_resolve : only (api_event self) (_resolve_ble_device p self).
Proof.
  unfold _resolve_ble_device.
  apply only_bind; [apply only_find_device_by_address; simpl; auto |].
  intros [d |]; [apply only_ret |].
  apply only_bind; [apply only_discover; reflexivity |].
  intros devices. destruct (scan_match self devices);
    [apply only_ret | apply only_raise].
Qed.

Lemma api_event_connect_client : only (api_event self) (_connect_client p self).
Proof.
  unfold _connect_client.
  apply only_async_with_lock; try exact I.
  apply only_bind; [apply api_event_resolve |].
  intros d. apply only_try_except; [| apply only_connect_handler].
  apply only_establish_connection. reflexivity.
Qed.

Lemma api_event_write_attempt client payload :
  only (api_event self) (write_attempt p self client payload).
Proof.
  unfold write_attempt.
  apply only_bind; [apply only_is_connected; simpl; auto |].
  intros b. destruct (negb b); [apply only_raise |].
  apply only_write_gatt_char. simpl. auto.
Qed.

(** A retried call sleeps only the delays of the attempts it has left. *)
Lemma only_retrying_delays {A} (P : event -> Prop) wait (f : M A) :
  only P f ->
  forall remaining n,
    (forall k, (k < remaining)%nat -> P (EvSleep (wait (n + k)%nat))) ->
    only P (tenacity.retrying wait remaining n f).
Proof.
  intros Hf. induction remaining as [| remaining IH]; intros n Hs h; simpl.
  - destruct (Hf h) as (evs & Heq & Hall).
    destruct (f h) as [[a | e] h1]; simpl in Heq; subst h1; exists evs; auto.
  - destruct (Hf h) as (evs & Heq & Hall).
    destruct (f h) as [[a | e] h1]; simpl in Heq; subst h1;
      [exists evs; auto |].
    assert (Hs' : forall k, (k < remaining)%nat ->
                            P (EvSleep (wait (S n + k)%nat))).
    { intros k Hk. replace (S n + k)%nat with (n + S k)%nat by lia.
      apply Hs. lia. }
    destruct (IH (S n) Hs' ((h ++ evs) ++ [EvSleep (wait n)]))
      as (evs' & Heq' & Hall').
    exists (evs ++ EvSleep (wait n) :: evs').
    rewrite Heq'. rewrite <- !app_assoc. simpl.
    split; [reflexivity |].
    apply Forall_app. split; [assumption |]. constructor; [| assumption].
    replace n with (n + 0)%nat by lia. apply Hs. lia.
Qed.

(** The three attempts of a retried write are separated by sleeps of
    0.4 s and 0.8 s. *)
Lemma api_event_write_with_auth_retry client payload :
  only (api_event self) (_write_with_auth_retry p self client payload).
Proof.
  unfold _write_with_auth_retry, tenacity.retry.
  apply only_retrying_delays; [apply api_event_write_attempt |].
  intros [| [| k]] Hk; simpl in Hk; [left | right | lia]; reflexivity.
Qed.

Lemma api_event_best_effort_disconnect client :
  only (api_event self) (best_effort_disconnect p client).
Proof.
  unfold best_effort_disconnect.
  apply only_try_except; [apply only_disconnect; simpl; auto |].
  intros e. apply only_ret.
Qed.

Lemma api_event_write_and_commit command :
  only (api_event self) (_write_and_commit p self command).
Proof.
  unfold _write_and_commit.
  apply only_bind; [apply api_event_connect_client |].
  intros client. apply only_try_finally;
    [| apply api_event_best_effort_disconnect].
  unfold write_and_commit_body.
  apply only_bind; [apply only_is_connected; simpl; auto |].
  intros b. destruct (negb b); [apply only_raise |].
  apply only_bind; [apply api_event_write_with_auth_retry |].
  intros _. apply only_bind; [apply only_lift |].
  intros commit. apply api_event_write_with_auth_retry.
Qed.

Lemma api_event_list_characteristics :
  only (api_event self) (list_characteristics p self).
Proof.
  unfold list_characteristics.
  apply only_bind; [apply api_event_connect_client |].
  intros client. apply only_try_finally;
    [| apply api_event_best_effort_disconnect].
  unfold list_characteristics_body.
  apply only_bind; [apply only_is_connected; simpl; auto |].
  intros b. destruct (negb b); [apply only_raise |].
  apply only_bind; [| intros svcs; apply only_ret].
  destruct (services client); [apply only_ret |].
  destruct (_client client) as [[[r |]] |].
  - apply only_bind; [now apply only_emit | intros _; apply only_lift].
  - apply only_raise.
  - destruct (_bleak_client client) as [[[r |]] |].
    + apply only_bind; [now apply only_emit | intros _; apply only_lift].
    + apply only_raise.
    + apply only_raise.
Qed.

Lemma api_event_perform a : only (api_event self) (perform p self a).
Proof.
  destruct a; cbn [perform];
    unfold turn_on, turn_off_permanent, turn_off_x_days,
      sprinkle_station_x_for_y_minutes, sprinkle_all_stations_for_y_minutes,
      run_program_x, stop_manual_sprinkle;
    (apply only_bind; [apply only_lift |]); intros command;
    apply api_event_write_and_commit.
Qed.

End ApiEvents.

(** X4. Whatever the platform does, every call that a control method or
    the topology reader makes into it has these arguments: the direct
    lookup is by the configured address, lookup and scan take 5 s whatever
    the configured timeout, each try of the connector gets the configured
    timeout, every write goes to the instance's characteristic without
    response, and a back-off sleep lasts 0.4 s or 0.8 s. *)
Theorem platform_calls_have_fixed_arguments (p : Platform) (self : SolemAPI)
        (a : action) (h : history) :
  Forall (api_event self) (new_events (perform p self a) h) /\
  Forall (api_event self) (new_events (list_characteristics p self) h).
Proof.
  split.
  - apply (only_new_events _ _ h (api_event_perform p self a)).
  - apply (only_new_events _ _ h (api_event_list_characteristics p self)).
Qed.

(** ** Outcomes and effort of a control method *)

Lemma total_sleep_app evs evs' :
  total_sleep (evs ++ evs') = total_sleep evs + total_sleep evs'.
Proof.
  induction evs as [| e evs IH]; simpl; [reflexivity |].
  destruct e; rewrite ?IH; lia.
Qed.

Lemma backoff_nonneg wait remaining n : 0 <= backoff wait remaining n.
Proof.
  revert n. induction remaining as [| r IH]; intros n; simpl; [lia |].
  specialize (IH (S n)). lia.
Qed.

Section Outcomes.

Variable p : Platform.
Variable self : SolemAPI.

Lemma write_attempt_cases client payload h :
  write_attempt p self client payload h =
  if on_is_connected p h client
  then let r := on_write_gatt_char p (h ++ [EvIsConnected true]) client
                  (characteristic_uuid self) payload in
       (match r with None => Ok tt | Some e => Raise (Transport e) end,
        h ++ [EvIsConnected true;
              EvWrite (characteristic_uuid self) payload false r])
  else (Raise (APIConnectionError "Client not connected"),
        h ++ [EvIsConnected false]).
Proof.
  unfold write_attempt, bind, is_connected, write_gatt_char, raise.
  destruct (on_is_connected p h client); cbn [negb]; cbv beta iota zeta;
    [| reflexivity].
  now rewrite <- app_assoc.
Qed.

(** What a retried write does, attempt by attempt. *)
Lemma retrying_write_summary wait client payload remaining :
  forall n h,
  let run := tenacity.retrying wait remaining n
               (write_attempt p self client payload) h in
  exists evs,
    snd run = h ++ evs /\
    (count is_write evs <= S remaining)%nat /\
    (count is_sleep evs <= remaining)%nat /\
    total_sleep evs <= backoff wait remaining n /\
    (fst run = Ok tt <->
     In (EvWrite (characteristic_uuid self) payload false None) evs) /\
    (forall e, fst run = Raise e -> retry_failure e).
Proof.
  induction remaining as [| remaining IH]; intros n h; cbv zeta;
    cbn [tenacity.retrying]; rewrite write_attempt_cases; cbv zeta.
  - destruct (on_is_connected p h client).
    + destruct (on_write_gatt_char p _ client _ payload) as [t |].
      * eexists. split; [reflexivity |]. cbn. repeat split; try lia.
        -- discriminate.
        -- intros [H | [H | []]]; discriminate.
        -- intros e [= <-]. right. eauto.
      * eexists. split; [reflexivity |]. cbn. repeat split; try lia.
        -- auto.
        -- discriminate.
    + eexists. split; [reflexivity |]. cbn. repeat split; try lia.
      * discriminate.
      * intros [H | []]; discriminate.
      * intros e [= <-]. left. reflexivity.
  - pose proof (backoff_nonneg wait remaining (S n)) as Hnn.
    destruct (on_is_connected p h client).
    + destruct (on_write_gatt_char p _ client _ payload) as [t |].
      * match goal with
        | |- context [tenacity.retrying wait remaining (S n) _ ?h'] =>
            destruct (IH (S n) h')
              as (evs & Heq & Hw & Hs & Ht & Hok & Hraise)
        end.
        cbv zeta in *.
        eexists. split; [rewrite Heq; rewrite <- !app_assoc; reflexivity |].
        cbn [app].
        change (EvIsConnected true :: ?x :: ?y :: evs)
          with ([EvIsConnected true; x; y] ++ evs).
        rewrite !count_app, total_sleep_app. cbn.
        repeat split; try lia.
        -- intros H. right. right. right. now apply Hok.
        -- intros [H | [H | [H | H]]]; try discriminate. now apply Hok.
        -- exact Hraise.
      * eexists. split; [reflexivity |]. cbn. repeat split; try lia.
        -- auto.
        -- discriminate.
    + match goal with
      | |- context [tenacity.retrying wait remaining (S n) _ ?h'] =>
          destruct (IH (S n) h')
            as (evs & Heq & Hw & Hs & Ht & Hok & Hraise)
      end.
      cbv zeta in *.
      eexists. split; [rewrite Heq; rewrite <- !app_assoc; reflexivity |].
      cbn [app].
      change (EvIsConnected false :: ?y :: evs)
        with ([EvIsConnected false; y] ++ evs).
      rewrite !count_app, total_sleep_app. cbn.
      repeat split; try lia.
      * intros H. right. right. now apply Hok.
      * intros [H | [H | H]]; try discriminate. now apply Hok.
      * exact Hraise.
Qed.

End Outcomes.

Section Effort.

Variable p : Platform.
Variable self : SolemAPI.

(** A retried write: at most three writes, at most two sleeps and 1.2 s of
    back-off; it returns exactly when one write went through. *)
Lemma write_with_auth_retry_summary client payload h :
  let w := _write_with_auth_retry p self client payload in
  (count is_write (new_events w h) <= 3)%nat /\
  (count is_sleep (new_events w h) <= 2)%nat /\
  total_sleep (new_events w h) <= 1200 /\
  (outcome w h = Ok tt <->
   In (EvWrite (characteristic_uuid self) payload false None)
      (new_events w h)) /\
  (forall e, outcome w h = Raise e -> retry_failure e).
Proof.
  cbv zeta. unfold outcome, _write_with_auth_retry, tenacity.retry.
  destruct (retrying_write_summary p self
              (tenacity.wait_exponential 400 400 2000) client payload
              (3 - 1) 1 h) as (evs & Heq & Hw & Hs & Ht & Hok & Hraise).
  cbv zeta in *. rewrite (new_events_eq _ _ _ Heq).
  repeat split; auto; try apply Hok; auto.
Qed.

Lemma no_foreign_write evs uuid payload payload' :
  Forall (writing uuid payload) evs -> payload <> payload' ->
  forall u resp r, ~ In (EvWrite u payload' resp r) evs.
Proof.
  intros Hall Hne u resp r Hin. rewrite Forall_forall in Hall.
  specialize (Hall _ Hin). simpl in Hall. destruct Hall as (_ & Heq & _).
  congruence.
Qed.

(** The [try] block of [_write_and_commit], summed up. *)
Lemma write_and_commit_body_summary client command h :
  let body := write_and_commit_body p self client command in
  (count is_write (new_events body h) <= 6)%nat /\
  (count is_sleep (new_events body h) <= 4)%nat /\
  total_sleep (new_events body h) <= 2400 /\
  (command <> [0x3B; 0x00] ->
   (outcome body h = Ok tt <->
    In (EvWrite (characteristic_uuid self) [0x3B; 0x00] false None)
       (new_events body h))) /\
  (forall e, outcome body h = Raise e ->
             e = APIConnectionError "Failed connecting!" \/ retry_failure e).
Proof.
  cbv zeta. unfold outcome.
  pose proof (write_and_commit_body_unfold p self client command h) as Hrun.
  cbv zeta in Hrun.
  destruct (on_is_connected p h client).
  - set (h0 := h ++ [EvIsConnected true]) in *.
    set (w1 := _write_with_auth_retry p self client command) in *.
    set (w2 := _write_with_auth_retry p self client [0x3B; 0x00]) in *.
    destruct (write_with_auth_retry_summary client command h0)
      as (Hw1 & Hs1 & Ht1 & Hok1 & Hr1).
    destruct (only_new_events _ _ h0
                (writing_write_with_auth_retry p self client command))
      as [Hsnd1 Hall1].
    fold w1 in Hw1, Hs1, Ht1, Hok1, Hr1, Hsnd1, Hall1.
    unfold outcome in Hok1, Hr1.
    set (evs1 := new_events w1 h0) in *.
    destruct (w1 h0) as [[[] | e1] h2]; simpl in Hsnd1; subst h2.
    + destruct (write_with_auth_retry_summary client [0x3B; 0x00] (h0 ++ evs1))
        as (Hw2 & Hs2 & Ht2 & Hok2 & Hr2).
      destruct (only_new_events _ _ (h0 ++ evs1)
                  (writing_write_with_auth_retry p self client [0x3B; 0x00]))
        as [Hsnd2 _].
      fold w2 in Hw2, Hs2, Ht2, Hok2, Hr2, Hsnd2.
      unfold outcome in Hok2, Hr2.
      set (evs2 := new_events w2 (h0 ++ evs1)) in *.
      assert (Hev : new_events (write_and_commit_body p self client command) h
                    = [EvIsConnected true] ++ evs1 ++ evs2).
      { apply new_events_eq. rewrite Hrun, Hsnd2. unfold h0.
        now rewrite <- !app_assoc. }
      rewrite Hev, Hrun, !count_app, !total_sleep_app. cbn [count filter
        is_write is_sleep List.length total_sleep].
      split; [lia |]. split; [lia |]. split; [lia |]. split.
      * intros Hne. split.
        -- intros Hok. apply in_or_app. right. apply in_or_app. right.
           now apply Hok2.
        -- intros Hin. apply Hok2.
           apply in_app_or in Hin as [[H | []] | Hin]; [discriminate |].
           apply in_app_or in Hin as [Hin | Hin]; [| exact Hin].
           now apply (no_foreign_write _ _ _ _ Hall1 Hne) in Hin.
      * intros e He. right. now apply Hr2.
    + assert (Hev : new_events (write_and_commit_body p self client command) h
                    = [EvIsConnected true] ++ evs1).
      { apply new_events_eq. rewrite Hrun. unfold h0.
        now rewrite <- !app_assoc. }
      rewrite Hev, Hrun, !count_app, !total_sleep_app. cbn [count filter
        is_write is_sleep List.length total_sleep fst].
      split; [lia |]. split; [lia |]. split; [lia |]. split.
      * intros Hne. split; [discriminate |].
        intros Hin. exfalso.
        apply in_app_or in Hin as [[H0 | []] | Hin]; [discriminate |].
        now apply (no_foreign_write _ _ _ _ Hall1 Hne) in Hin.
      * intros e [= <-]. right. now apply Hr1.
  - assert (Hev : new_events (write_and_commit_body p self client command) h
                  = [EvIsConnected false]).
    { apply new_events_eq. now rewrite Hrun. }
    rewrite Hev, Hrun. cbn.
    split; [lia |]. split; [lia |]. split; [lia |]. split.
    + intros Hne. split; [discriminate |]. intros [H0 | []]. discriminate.
    + intros e [= <-]. left. reflexivity.
Qed.

End Effort.

Section ControlMethod.

Variable p : Platform.
Variable self : SolemAPI.

Lemma connect_client_raises h e :
  outcome (_connect_client p self) h = Raise e ->
  (exists m, e = APIConnectionError m /\ In m control_messages) \/
  scanner_raised p (mac_address self) h e.
Proof.
  rewrite connect_client_outcome.
  pose proof (resolve_raises p self (h ++ [EvAcquire])) as Hres.
  unfold outcome in Hres.
  destruct (_resolve_ble_device p self (h ++ [EvAcquire])) as [[d | e0] h1].
  - destruct (concluded (connector_call p self d h1)) as [c | t];
      [discriminate |].
    intros [= <-]. left. eexists. split; [reflexivity |].
    destruct t; simpl; auto 10.
  - intros [= <-].
    destruct (Hres e0 eq_refl) as [-> | (t & -> & Hscanner)].
    + left. eexists. split; [reflexivity |]. simpl. auto.
    + right. exists t. split; [reflexivity |].
      rewrite <- app_assoc in Hscanner. exact Hscanner.
Qed.

Lemma connecting_quiet evs :
  Forall connecting evs ->
  count is_write evs = 0%nat /\ count is_sleep evs = 0%nat /\
  total_sleep evs = 0 /\
  forall u pl resp r, ~ In (EvWrite u pl resp r) evs.
Proof.
  intros Hall. repeat split.
  - apply count_none. eapply Forall_impl; [| exact Hall].
    intros [] Hc; simpl in Hc; try contradiction; reflexivity.
  - apply count_none. eapply Forall_impl; [| exact Hall].
    intros [] Hc; simpl in Hc; try contradiction; reflexivity.
  - induction Hall as [| e evs He _ IH]; [reflexivity |].
    destruct e; simpl in *; try contradiction; exact IH.
  - intros u pl resp r Hin. rewrite Forall_forall in Hall.
    exact (Hall _ Hin).
Qed.

Lemma in_session_counts evs :
  Forall in_session evs ->
  count is_connect evs = 0%nat /\ count is_find evs = 0%nat /\
  count is_discover evs = 0%nat.
Proof.
  intros Hall. repeat split; apply count_none;
    (eapply Forall_impl; [| exact Hall]);
    intros [] Hc; simpl in Hc; try contradiction; reflexivity.
Qed.

Lemma count_connect_repeat d t k :
  count is_connect (repeat (EvConnect d t) k) = k.
Proof.
  unfold count. induction k as [| k IH]; simpl; [reflexivity |].
  now rewrite IH.
Qed.

Lemma connect_client_counts h :
  let evs := new_events (_connect_client p self) h in
  count is_connect evs = connector_tries p self h /\
  count is_find evs = 1%nat /\ (count is_discover evs <= 1)%nat.
Proof.
  cbv zeta. unfold connector_tries.
  destruct (connect_client_events p self h) as (connects & Hsnd & Hconnects).
  rewrite (new_events_eq _ _ _ Hsnd).
  change (EvAcquire :: ?l) with ([EvAcquire] ++ l).
  rewrite !count_app.
  assert (Ht : count is_connect connects =
               match _resolve_ble_device p self (h ++ [EvAcquire]) with
               | (Ok d, h1) => tries (connector_call p self d h1)
               | (Raise _, _) => 0%nat
               end /\
               count is_find connects = 0%nat /\
               count is_discover connects = 0%nat).
  { destruct (_resolve_ble_device p self (h ++ [EvAcquire])) as [[d | e] h1].
    - rewrite Hconnects, count_connect_repeat.
      rewrite !count_repeat_connect by reflexivity. auto.
    - subst connects. cbn. auto. }
  destruct Ht as (Hc & Hf & Hd). rewrite Hc, Hf, Hd.
  destruct (resolve_events p self (h ++ [EvAcquire])) as [_ [-> | ->]];
    cbn; repeat split; lia.
Qed.

End ControlMethod.

Section ControlSummary.

Variable p : Platform.
Variable self : SolemAPI.

Lemma write_and_commit_summary command h :
  command <> [0x3B; 0x00] ->
  let m := _write_and_commit p self command in
  let evs := new_events m h in
  ((count is_write evs <= 6)%nat /\ (count is_sleep evs <= 4)%nat /\
   total_sleep evs <= 2400 /\
   count is_connect evs = connector_tries p self h /\
   count is_find evs = 1%nat /\ (count is_discover evs <= 1)%nat /\
   (count is_disconnect evs <= 1)%nat) /\
  (outcome m h = Ok tt <->
   In (EvWrite (characteristic_uuid self) [0x3B; 0x00] false None) evs) /\
  (forall e, outcome m h = Raise e ->
     (exists msg, e = APIConnectionError msg /\ In msg control_messages) \/
     retry_failure e \/ scanner_raised p (mac_address self) h e).
Proof.
  intros Hne. cbv zeta.
  pose proof (scoped_session p self
                (fun client => write_and_commit_body p self client command) h
                (fun c => in_session_write_and_commit_body p self c command))
    as Hrel.
  unfold released_once in Hrel.
  fold (_write_and_commit p self command) in Hrel.
  destruct (only_new_events _ _ h (connecting_connect_client p self))
    as [_ HallC].
  destruct (connect_client_counts p self h) as (HcC & HfC & HdC).
  pose proof (connect_client_raises p self h) as HraiseC.
  unfold outcome at 1 in HraiseC.
  set (evsC := new_events (_connect_client p self) h) in *.
  destruct (connecting_quiet evsC HallC) as (HwC & HsC & HtC & HnoC).
  destruct (_connect_client p self h) as [[c | e] h1].
  - destruct Hrel as (Hout & Hnew & Hcount).
    destruct (write_and_commit_body_summary p self c command h1)
      as (HwB & HsB & HtB & HokB & HrB).
    destruct (only_new_events _ _ h1
                (in_session_write_and_commit_body p self c command))
      as [_ HallB].
    set (evsB := new_events (write_and_commit_body p self c command) h1) in *.
    destruct (in_session_counts evsB HallB) as (HcB & HfB & HdB).
    rewrite Hout. split; [| split].
    + rewrite Hcount, Hnew, !count_app, !total_sleep_app. cbn. lia.
    + rewrite (HokB Hne), Hnew. split.
      * intros Hin. apply in_or_app. right. apply in_or_app. now left.
      * intros Hin. apply in_app_or in Hin as [Hin | Hin];
          [now apply HnoC in Hin |].
        apply in_app_or in Hin as [Hin | [Hin | []]];
          [exact Hin | discriminate].
    + intros e He.
      destruct (HrB e He) as [-> | Hretry]; [left | right; now left].
      eexists. split; [reflexivity |]. simpl. auto 10.
  - destruct Hrel as (Hout & Hnew & Hcount).
    rewrite Hout. split; [| split].
    + rewrite Hcount, Hnew. lia.
    + rewrite Hnew. split; [discriminate |].
      intros Hin. now apply HnoC in Hin.
    + intros e0 [= <-].
      destruct (HraiseC e eq_refl) as [Hmsg | Hscanner]; auto.
Qed.

End ControlSummary.

(** X5. A control method that raises does so in one of four ways: with
    [struct.error], before any platform call, when the action is a pause
    of more than 255 days; with [APIConnectionError] and one of the five
    messages of the connect and of the check before the write; with the
    retry library's [RetryError] around the failure of the last write
    attempt; or with the exception that the scanner raised on the lookup
    or on the scan of the resolution, passed on as it is. The message
    "Client not connected" never reaches the caller as an
    [APIConnectionError]. *)
Theorem control_method_failures (p : Platform) (self : SolemAPI) (a : action)
        (h : history) (e : exn) :
  outcome (perform p self a) h = Raise e ->
  (e = struct_error /\ (exists days, a = TurnOffXDays days /\ 255 < days) /\
   new_events (perform p self a) h = []) \/
  (exists msg, e = APIConnectionError msg /\ In msg control_messages) \/
  retry_failure e \/
  scanner_raised p (mac_address self) h e.
Proof.
  unfold outcome. intros Hraise.
  pose proof (perform_unfold p self a h) as Hrun.
  destruct (encode_table_or_error a) as [[Henc _] | (d & Ha & Hd & Henc)].
  - right. rewrite Henc in Hrun.
    assert (Hne : frame_table a <> [0x3B; 0x00])
      by (apply (frame_is_not_commit a); exact Henc).
    destruct (write_and_commit_summary p self (frame_table a) h Hne)
      as (_ & _ & Hr).
    apply Hr. unfold outcome. now rewrite <- Hrun.
  - left. rewrite Henc in Hrun. rewrite Hrun in Hraise.
    injection Hraise as <-. split; [reflexivity |].
    split; [now exists d |].
    apply new_events_eq. rewrite Hrun. simpl. now rewrite app_nil_r.
Qed.

(** X5, when the adapter is not ready: the error of the bus that the
    lookup raises is what the caller of [turn_on] gets. *)
Lemma control_method_failures_adapter_not_ready :
  outcome (perform adapter_not_ready api0 TurnOn) [] =
    Raise (Transport BleakDBusError) /\
  scanner_raised adapter_not_ready (mac_address api0) []
                 (Transport BleakDBusError).
Proof.
  split; [reflexivity |].
  destruct (control_method_failures adapter_not_ready api0 TurnOn []
              (Transport BleakDBusError) eq_refl)
    as [(Hs & _) | [(msg & Hmsg & _) | [[Hr | (t & Hr)] | Hscanner]]];
    try discriminate.
  exact Hscanner.
Defined.

(** X6. A control method returns normally exactly when a write of the
    commit frame went through; every other run ends in an exception,
    whatever was written before. *)
Theorem success_iff_commit_written (p : Platform) (self : SolemAPI)
        (a : action) (h : history) :
  outcome (perform p self a) h = Ok tt <->
  In (EvWrite (characteristic_uuid self) [0x3B; 0x00] false None)
     (new_events (perform p self a) h).
Proof.
  pose proof (perform_unfold p self a h) as Hrun.
  destruct (encode_table_or_error a) as [[Henc _] | (d & Ha & Hd & Henc)];
    rewrite Henc in Hrun.
  - assert (Hne : frame_table a <> [0x3B; 0x00])
      by (apply (frame_is_not_commit a); exact Henc).
    destruct (write_and_commit_summary p self (frame_table a) h Hne)
      as (_ & Hok & _).
    unfold outcome, new_events in *. rewrite Hrun. exact Hok.
  - assert (Hnil : new_events (perform p self a) h = []).
    { apply new_events_eq. rewrite Hrun. simpl. now rewrite app_nil_r. }
    unfold outcome. rewrite Hnil, Hrun. simpl.
    split; [discriminate | contradiction].
Qed.

(** X7. The effort of a control method is bounded whatever the platform
    does, but for the tries that the connector makes inside its one call:
    one address lookup and one scan at most, no connection try but those
    of that one call of the connector (none when the resolution fails),
    six characteristic writes, four back-off sleeps that add up to 2.4 s,
    and one disconnect. *)
Theorem control_method_effort (p : Platform) (self : SolemAPI) (a : action)
        (h : history) :
  let evs := new_events (perform p self a) h in
  (count is_find evs <= 1)%nat /\ (count is_discover evs <= 1)%nat /\
  (count is_connect evs = 0%nat \/
   count is_connect evs = connector_tries p self h) /\
  (count is_write evs <= 6)%nat /\
  (count is_sleep evs <= 4)%nat /\ total_sleep evs <= 2400 /\
  (count is_disconnect evs <= 1)%nat.
Proof.
  cbv zeta.
  pose proof (perform_unfold p self a h) as Hrun.
  destruct (encode_table_or_error a) as [[Henc _] | (d & Ha & Hd & Henc)];
    rewrite Henc in Hrun.
  - assert (Hne : frame_table a <> [0x3B; 0x00])
      by (apply (frame_is_not_commit a); exact Henc).
    destruct (write_and_commit_summary p self (frame_table a) h Hne)
      as (Hcounts & _ & _).
    unfold new_events in *. rewrite Hrun. cbv zeta in Hcounts.
    destruct Hcounts as (Hw & Hs & Ht & Hc & Hf & Hd & Hx).
    repeat split; auto; lia.
  - assert (Hnil : new_events (perform p self a) h = []).
    { apply new_events_eq. rewrite Hrun. simpl. now rewrite app_nil_r. }
    rewrite Hnil. cbn. repeat split; auto; lia.
Qed.

(** ** Frames and actions *)

Lemma clamp_twice lo hi x :
  lo <= hi -> Z.max lo (Z.min (Z.max lo (Z.min x hi)) hi) = Z.max lo (Z.min x hi).
Proof. lia. Qed.

(** X1. Every control action but a pause of more than 255 days is encoded
    exactly as the encoding table says, in seven bytes (eight for one
    station), each in [0, 255]; a pause of more than 255 days makes
    [struct.pack] raise. *)
Theorem encode_follows_table (a : action) :
  (encode a = Ok (frame_table a) /\ Forall is_byte (frame_table a) /\
   (List.length (frame_table a) = 7%nat \/
    (exists station minutes, a = SprinkleStation station minutes) /\
    List.length (frame_table a) = 8%nat)) \/
  (exists days, a = TurnOffXDays days /\ 255 < days /\
                encode a = Raise struct_error).
Proof.
  destruct (encode_table_or_error a) as [[Henc Hbytes] | Herr];
    [left | now right].
  split; [exact Henc |]. split; [exact Hbytes |].
  destruct a; simpl; eauto.
Qed.

(** X8. The encoding loses nothing but what the clamping removes: an
    action is encoded as its clamped self, and two actions that give the
    same frame are the same action with the same clamped parameters. *)
Theorem encode_injective_up_to_clamping (a b : action) (frame : list Z) :
  encode a = Ok frame -> encode b = Ok frame ->
  normalize a = normalize b /\ encode (normalize a) = Ok frame.
Proof.
  intros Ha Hb.
  assert (Hnorm : encode (normalize a) = encode a).
  { destruct a; cbn [normalize encode]; try reflexivity;
      unfold turn_off_x_days_command,
        sprinkle_station_x_for_y_minutes_command,
        sprinkle_all_stations_for_y_minutes_command, run_program_x_command;
      cbv zeta; rewrite ?clamp_twice by lia; reflexivity. }
  split; [| congruence].
  destruct (encode_table_or_error a) as [[Ha' _] | (d & _ & _ & Ha')];
    [| congruence].
  destruct (encode_table_or_error b) as [[Hb' _] | (d & _ & _ & Hb')];
    [| congruence].
  assert (Heq : frame_table a = frame_table b) by congruence.
  destruct a, b; cbn [frame_table normalize] in *; try discriminate;
    try reflexivity; unfold clamp in Heq; injection Heq; intros;
    f_equal; assumption.
Qed.

(** X8, on two calls that differ before clamping only. *)
Lemma encode_injective_up_to_clamping_example :
  normalize (SprinkleStation 99 500) = normalize (SprinkleStation 16 240) /\
  encode (SprinkleStation 16 240) =
    Ok [0x31; 0x05; 0x22; 16; 0x00; 240; 0xFF; 0xFF].
Proof.
  exact (encode_injective_up_to_clamping
           (SprinkleStation 99 500) (SprinkleStation 16 240)
           [0x31; 0x05; 0x22; 16; 0x00; 240; 0xFF; 0xFF] eq_refl eq_refl).
Defined.

(** ** The topology dictionary *)

Lemma dict_get_set_same {V} k (v : V) d : dict_get k (dict_set k v d) = Some v.
Proof.
  induction d as [| [k' v'] rest IH]; simpl.
  - now rewrite String.eqb_refl.
  - destruct (String.eqb k k') eqn:Hk; simpl; rewrite ?String.eqb_refl, ?Hk;
      auto.
Qed.

Lemma dict_get_set_other {V} k k' (v : V) d :
  k <> k' -> dict_get k' (dict_set k v d) = dict_get k' d.
Proof.
  intros Hne. induction d as [| [k0 v0] rest IH]; simpl.
  - destruct (String.eqb_spec k' k); [congruence | reflexivity].
  - destruct (String.eqb_spec k k0) as [<- | Hk]; simpl.
    + destruct (String.eqb_spec k' k); [congruence | reflexivity].
    + destruct (String.eqb k' k0); [reflexivity | exact IH].
Qed.

Lemma dict_set_keys {V} k (v : V) d k' :
  In k' (map fst (dict_set k v d)) <-> k' = k \/ In k' (map fst d).
Proof.
  induction d as [| [k0 v0] rest IH]; simpl.
  - intuition auto.
  - destruct (String.eqb_spec k k0) as [<- | Hk]; simpl.
    + intuition auto.
    + rewrite IH. intuition auto.
Qed.

Lemma dict_set_NoDup {V} k (v : V) d :
  NoDup (map fst d) -> NoDup (map fst (dict_set k v d)).
Proof.
  induction d as [| [k0 v0] rest IH]; simpl; intros Hnd.
  - constructor; [intros [] | constructor].
  - inversion Hnd as [| ? ? Hnotin Hrest]; subst.
    destruct (String.eqb_spec k k0) as [<- | Hk]; simpl.
    + constructor; assumption.
    + constructor; [| auto].
      rewrite dict_set_keys. intros [-> | Hin]; [congruence | auto].
Qed.

(** The dictionary that the loop of [list_characteristics] builds on top
    of [acc]. *)
Lemma topology_spec svcs :
  forall acc, NoDup (map fst acc) ->
  NoDup (map fst (topology svcs acc)) /\
  (forall k, In k (map fst (topology svcs acc)) <->
             In k (map svc_uuid svcs) \/ In k (map fst acc)) /\
  (forall k, dict_get k (topology svcs acc) =
             match last_service k svcs with
             | Some svc => Some (map characteristic_entry (characteristics svc))
             | None => dict_get k acc
             end).
Proof.
  induction svcs as [| svc rest IH]; intros acc Hnd; simpl.
  - repeat split; auto. intros [[] | H]; exact H.
  - destruct (IH (dict_set (svc_uuid svc)
                    (map characteristic_entry (characteristics svc)) acc)
                 (dict_set_NoDup _ _ _ Hnd)) as (Hnd' & Hkeys & Hget).
    split; [exact Hnd' |]. split.
    + intros k. rewrite Hkeys, dict_set_keys. intuition auto.
    + intros k. rewrite Hget.
      destruct (last_service k rest); [reflexivity |].
      destruct (String.eqb_spec k (svc_uuid svc)) as [-> | Hk].
      * apply dict_get_set_same.
      * apply dict_get_set_other. congruence.
Qed.

Section Topology.

Variable p : Platform.
Variable self : SolemAPI.

Lemma list_characteristics_body_ok client h result :
  outcome (list_characteristics_body p client) h = Ok result ->
  exists svcs, client_services client = Some svcs /\ result = topology svcs [].
Proof.
  unfold outcome, list_characteristics_body, bind, is_connected, raise, ret,
    client_services, emit, lift.
  destruct (on_is_connected p h client); cbn [negb]; cbv beta iota;
    [| discriminate].
  destruct (services client) as [svcs |].
  - simpl. intros [= <-]. eauto.
  - destruct (match _client client with
              | Some i => Some i
              | None => _bleak_client client
              end) as [[[[svcs | e] |]] |]; simpl; try discriminate.
    intros [= <-]. eauto.
Qed.

End Topology.

(** X9. The dictionary that [list_characteristics] returns is keyed by the
    uuids of the services that the connected client exposes, each once;
    under a uuid it holds the characteristics of the last service with
    that uuid, so that of two services with one uuid only the later one
    is reported. *)
Theorem topology_keeps_last_service (p : Platform) (self : SolemAPI)
        (h : history) (result : list (string * list char_info)) :
  outcome (list_characteristics p self) h = Ok result ->
  exists client svcs,
    outcome (_connect_client p self) h = Ok client /\
    client_services client = Some svcs /\
    NoDup (map fst result) /\
    (forall k, In k (map fst result) <-> In k (map svc_uuid svcs)) /\
    (forall k, dict_get k result =
               option_map (fun svc => map characteristic_entry
                                          (characteristics svc))
                          (last_service k svcs)).
Proof.
  intros Hok.
  pose proof (scoped_session p self (list_characteristics_body p) h
                (in_session_list_characteristics_body p)) as Hrel.
  unfold released_once in Hrel.
  fold (list_characteristics p self) in Hrel.
  unfold outcome at 1.
  destruct (_connect_client p self h) as [[c | e] h1].
  - destruct Hrel as (Hout & _ & _). rewrite Hout in Hok.
    destruct (list_characteristics_body_ok p c h1 result Hok)
      as (svcs & Hsvcs & ->).
    exists c, svcs. split; [reflexivity |]. split; [exact Hsvcs |].
    destruct (topology_spec svcs [] (NoDup_nil _)) as (Hnd & Hkeys & Hget).
    split; [exact Hnd |]. split.
    + intros k. rewrite Hkeys. simpl. intuition auto.
    + intros k. rewrite Hget. destruct (last_service k svcs); reflexivity.
  - destruct Hrel as (Hout & _ & _). rewrite Hout in Hok. discriminate.
Qed.

(** X9, on a client with two services of one uuid: the entry of the uuid
    is that of the later service. *)
Lemma topology_keeps_last_service_twins :
  outcome (list_characteristics twin_platform api0) [] =
    Ok [("180f", [characteristic_entry command_char]); ("108b0001", [])] /\
  dict_get "180f"
    [("180f", [characteristic_entry command_char]); ("108b0001", [])]
  = Some [characteristic_entry command_char].
Proof.
  split; [reflexivity |].
  destruct (topology_keeps_last_service twin_platform api0 []
              [("180f", [characteristic_entry command_char]); ("108b0001", [])]
              eq_refl)
    as (client & svcs & Hc & Hs & _ & _ & Hget).
  injection Hc as <-. injection Hs as <-.
  exact (Hget "180f").
Defined.

(** * Properties of the service handlers *)

Section Handlers.

Variable p : Platform.
Variable str_to_int : string -> option Z.

Lemma py_int_cases v :
  (exists z, py_int str_to_int v = Return z) \/
  (exists e, py_int str_to_int v = HRaise e /\
             (e = TypeError \/ e = ValueError \/ e = OverflowError)).
Proof.
  destruct v as [| b | z | s | []]; simpl; eauto 6.
  destruct (str_to_int s); eauto 6.
Qed.

Lemma get_timeout_cases call :
  (exists t, _get_timeout str_to_int call = Return t /\ 5 <= t) \/
  (exists e, _get_timeout str_to_int call = HRaise e /\
             (e = HomeAssistantError "Invalid bluetooth_timeout" \/
              e = OverflowError)).
Proof.
  unfold _get_timeout. cbv zeta.
  destruct (py_int_cases (get (data call) "bluetooth_timeout"
                              (PyInt DEFAULT_BLUETOOTH_TIMEOUT)))
    as [(z & ->) | (e & -> & [-> | [-> | ->]])]; [left | right ..]; eauto.
  eexists. split; [reflexivity |]. unfold MIN_BLUETOOTH_TIMEOUT. lia.
Qed.

Lemma rejected_int e :
  e = TypeError \/ e = ValueError \/ e = OverflowError -> rejected e.
Proof. unfold rejected. intuition auto. Qed.

Lemma rejected_timeout e :
  e = HomeAssistantError "Invalid bluetooth_timeout" \/ e = OverflowError ->
  rejected e.
Proof. unfold rejected. intuition auto. Qed.

(** What every handler does: it turns the payload down before any
    platform call, or it runs the API method of its service on a fresh
    instance whose timeout is at least 5 s. *)
Lemma handler_runs domain name handler call h :
  In (domain, name, handler) (async_setup_services p str_to_int) ->
  (exists e, rejected e /\ handler call h = (HRaise e, h)) \/
  (exists t, 5 <= t /\
     let api := SolemAPI_init (device_mac call) t in
     (name = "list_characteristics" /\
      handler call h =
        hbind (api_try (list_characteristics p api))
              (fun _ => hpure (Return tt)) h) \/
     (exists a, serves name a /\
                handler call h = api_try (perform p api a) h)).
Proof.
  intros Hin. simpl in Hin.
  repeat match type of Hin with
  | _ \/ _ => destruct Hin as [Hin | Hin]
  end; try contradiction; injection Hin as <- <- <-;
  unfold async_list_characteristics, async_turn_off_permanent,
    async_turn_off_x_days, async_turn_on,
    async_sprinkle_station_x_for_y_minutes,
    async_sprinkle_all_stations_for_y_minutes, async_run_program_x,
    async_stop_manual_sprinkle, new_api, hbind, hpure;
  repeat match goal with
  | |- context [py_int str_to_int ?v] =>
      destruct (py_int_cases v) as [(? & ->) | (? & -> & ?)];
        [| left; eexists; split; [apply rejected_int; eassumption
                                 | reflexivity]]
  end;
  (destruct (get_timeout_cases call) as [(t & -> & Ht) | (e & -> & He)];
   [right; exists t; split; [exact Ht |]; cbv zeta
   | left; exists e; split; [now apply rejected_timeout | reflexivity]]).
  - left. split; reflexivity.
  - right. exists TurnOffPermanent. split; reflexivity.
  - right. eexists (TurnOffXDays _). split; reflexivity.
  - right. exists TurnOn. split; reflexivity.
  - right. eexists (SprinkleStation _ _). split; reflexivity.
  - right. eexists (SprinkleAllStations _). split; reflexivity.
  - right. eexists (RunProgram _). split; reflexivity.
  - right. exists StopManualSprinkle. split; reflexivity.
Qed.

End Handlers.

Lemma host_events_eq {A} (m : HM A) h evs :
  snd (m h) = h ++ evs -> host_events m h = evs.
Proof. intros Heq. unfold host_events. now rewrite Heq, skipn_length_app. Qed.

Lemma host_events_api_try {A} (m : M A) h :
  host_events (api_try m) h = new_events m h.
Proof.
  unfold host_events, new_events, api_try.
  destruct (m h) as [[a | []] h1]; reflexivity.
Qed.

Lemma host_events_logged {A} (m : M A) h :
  host_events (hbind (api_try m) (fun _ => hpure (Return tt))) h
  = new_events m h.
Proof.
  unfold host_events, new_events, api_try, hbind, hpure.
  destruct (m h) as [[a | []] h1]; reflexivity.
Qed.

(** X10. The timeout of a service call is never below 5 s: a missing
    [bluetooth_timeout] gives 15, a value that [int] converts gives the
    larger of 5 and the converted value, and the call fails only on a
    field that is present and that [int] refuses, with
    [HomeAssistantError] for [TypeError] and [ValueError] (an explicit
    [None] among them) and with the uncaught [OverflowError] otherwise. *)
Theorem timeout_is_floored (str_to_int : string -> option Z)
        (call : ServiceCall) :
  match _get_timeout str_to_int call with
  | Return t =>
      5 <= t /\
      match dict_get "bluetooth_timeout" (data call) with
      | None => t = 15
      | Some v => exists z, py_int str_to_int v = Return z /\ t = Z.max 5 z
      end
  | HRaise e =>
      exists v,
        dict_get "bluetooth_timeout" (data call) = Some v /\
        ((e = HomeAssistantError "Invalid bluetooth_timeout" /\
          (py_int str_to_int v = HRaise TypeError \/
           py_int str_to_int v = HRaise ValueError)) \/
         (e = OverflowError /\ py_int str_to_int v = HRaise OverflowError))
  end.
Proof.
  unfold _get_timeout, get. cbv zeta.
  destruct (dict_get "bluetooth_timeout" (data call)) as [v |].
  - destruct (py_int_cases str_to_int v)
      as [(z & Hz) | (e & He & [-> | [-> | ->]])]; rewrite ?Hz, ?He.
    + split; [unfold MIN_BLUETOOTH_TIMEOUT; lia | eauto].
    + exists v. auto.
    + exists v. auto.
    + exists v. auto.
  - simpl. unfold MIN_BLUETOOTH_TIMEOUT, DEFAULT_BLUETOOTH_TIMEOUT.
    split; [lia | reflexivity].
Qed.

Section HandlerProperties.

Variable p : Platform.
Variable str_to_int : string -> option Z.

(** X11. For a call that carries its [device_mac], a control service
    that fails does so in one of five ways: the payload is turned down
    ([TypeError], [ValueError] or [OverflowError] of [int], or the
    invalid-timeout error) before any platform call; [struct.error]
    escapes, again before any platform call, from the pause service; the
    API's connection error comes back as [HomeAssistantError] with one of
    its five messages; the retry library's error of a failed write
    escapes as it is; or the exception that the scanner raised during the
    resolution escapes as it is. *)
Theorem service_failures domain name handler call h e h' :
  In (domain, name, handler) (async_setup_services p str_to_int) ->
  name <> "list_characteristics" ->
  handler call h = (HRaise e, h') ->
  (rejected e /\ h' = h) \/
  (e = Uncaught struct_error /\ h' = h /\ name = "turn_off_x_days") \/
  (exists msg, e = HomeAssistantError msg /\ In msg control_messages) \/
  (exists e0, e = Uncaught e0 /\ retry_failure e0) \/
  (exists e0, e = Uncaught e0 /\ scanner_raised p (device_mac call) h e0).
Proof.
  intros Hin Hname Hrun.
  destruct (handler_runs p str_to_int domain name handler call h Hin)
    as [(e1 & Hrej & Hh) | (t & Ht & [[Hlc _] | (a & Hserves & Hh)])].
  - rewrite Hh in Hrun. injection Hrun as <- <-. auto.
  - contradiction.
  - rewrite Hh in Hrun. unfold api_try in Hrun.
    set (api := SolemAPI_init (device_mac call) t) in *.
    assert (Hfail : forall e0, outcome (perform p api a) h = Raise e0 ->
              (e0 = struct_error /\
               (exists days, a = TurnOffXDays days /\ 255 < days) /\
               new_events (perform p api a) h = []) \/
              (exists msg, e0 = APIConnectionError msg /\
                           In msg control_messages) \/
              retry_failure e0 \/
              scanner_raised p (device_mac call) h e0).
    { unfold outcome. intros e0 Hraise.
      pose proof (perform_unfold p api a h) as Hp.
      destruct (encode_table_or_error a) as [[Henc _] | (d & Ha & Hd & Henc)].
      - right. rewrite Henc in Hp.
        assert (Hne : frame_table a <> [0x3B; 0x00])
          by (apply (frame_is_not_commit a); exact Henc).
        destruct (write_and_commit_summary p api (frame_table a) h Hne)
          as (_ & _ & Hr).
        apply Hr. unfold outcome. now rewrite <- Hp.
      - left. rewrite Henc in Hp. rewrite Hp in Hraise.
        injection Hraise as <-. split; [reflexivity |].
        split; [now exists d |].
        apply new_events_eq. rewrite Hp. simpl. now rewrite app_nil_r. }
    assert (Hev : snd (perform p api a h) = h ++ new_events (perform p api a) h)
      by apply (only_new_events _ _ h (api_event_perform p api a)).
    unfold outcome in Hfail.
    destruct (perform p api a h) as [[[] | e0] h1]; [discriminate |].
    simpl in Hev.
    destruct (Hfail e0 eq_refl)
      as [(-> & (d & -> & _) & Hnil)
         | [(msg & -> & Hmsg) | [Hretry | Hscanner]]].
    + injection Hrun as <- <-. right. left.
      rewrite Hnil, app_nil_r in Hev. simpl in Hserves. auto.
    + injection Hrun as <- <-. right. right. left. eauto.
    + right. right. right. left. exists e0.
      destruct Hretry as [-> | (t0 & ->)]; injection Hrun as <- <-;
        (split; [reflexivity |]); [now left | right; eauto].
    + right. right. right. right. exists e0.
      pose proof Hscanner as (t0 & -> & _).
      injection Hrun as <- <-. auto.
Qed.

(** X12. Whatever its payload, a service calls the platform with these
    arguments only: the lookup is by the call's [device_mac], lookup and
    scan take 5 s, every try of the connector gets a timeout of at least
    5 s, and every write goes to the command characteristic without
    response. *)
Theorem service_platform_calls domain name handler call h :
  In (domain, name, handler) (async_setup_services p str_to_int) ->
  Forall (service_event call) (host_events (handler call) h).
Proof.
  intros Hin.
  assert (Himpl : forall t evs, 5 <= t ->
            Forall (api_event (SolemAPI_init (device_mac call) t)) evs ->
            Forall (service_event call) evs).
  { intros t evs Ht Hall. eapply Forall_impl; [| exact Hall].
    intros [] He; simpl in *; auto. lia. }
  destruct (handler_runs p str_to_int domain name handler call h Hin)
    as [(e1 & Hrej & Hh) | (t & Ht & [[_ Hh] | (a & _ & Hh)])].
  - rewrite (host_events_eq _ h []); [constructor |].
    rewrite Hh. simpl. now rewrite app_nil_r.
  - unfold host_events. rewrite Hh.
    change (Forall (service_event call)
              (host_events (hbind (api_try (list_characteristics p
                                    (SolemAPI_init (device_mac call) t)))
                                  (fun _ => hpure (Return tt))) h)).
    rewrite host_events_logged. apply (Himpl t); [exact Ht |].
    apply (only_new_events _ _ h (api_event_list_characteristics p _)).
  - unfold host_events. rewrite Hh.
    change (Forall (service_event call)
              (host_events (api_try (perform p
                              (SolemAPI_init (device_mac call) t) a)) h)).
    rewrite host_events_api_try. apply (Himpl t); [exact Ht |].
    apply (only_new_events _ _ h (api_event_perform p _ a)).
Qed.

End HandlerProperties.

Section HandlerWrites.

Variable p : Platform.
Variable str_to_int : string -> option Z.

Lemma list_characteristics_writes_nothing self :
  only (fun e => is_write e = false) (list_characteristics p self).
Proof.
  unfold list_characteristics.
  apply only_bind.
  { eapply only_weaken; [| apply connecting_connect_client].
    intros [] Hc; simpl in Hc; try contradiction; reflexivity. }
  intros client. apply only_try_finally.
  - unfold list_characteristics_body.
    apply only_bind; [apply only_is_connected; reflexivity |].
    intros b. destruct (negb b); [apply only_raise |].
    apply only_bind; [| intros svcs; apply only_ret].
    destruct (services client); [apply only_ret |].
    destruct (_client client) as [[[r |]] |].
    + apply only_bind; [now apply only_emit | intros _; apply only_lift].
    + apply only_raise.
    + destruct (_bleak_client client) as [[[r |]] |].
      * apply only_bind; [now apply only_emit | intros _; apply only_lift].
      * apply only_raise.
      * apply only_raise.
  - unfold best_effort_disconnect.
    apply only_try_except; [apply only_disconnect; reflexivity |].
    intros e. apply only_ret.
Qed.

(** The payloads that a control method writes. *)
Lemma perform_writes self a h u pl resp r :
  In (EvWrite u pl resp r) (new_events (perform p self a) h) ->
  pl = [0x3B; 0x00] \/ (pl = frame_table a /\ Forall is_byte pl).
Proof.
  intros Hin. pose proof (perform_unfold p self a h) as Hrun.
  destruct (encode_table_or_error a) as [[Henc Hbytes] | (d & _ & _ & Henc)];
    rewrite Henc in Hrun.
  - assert (Hev : new_events (perform p self a) h =
                  new_events (_write_and_commit p self (frame_table a)) h)
      by (unfold new_events; now rewrite Hrun).
    rewrite Hev in Hin. apply in_split in Hin as (pre & post & Hsplit).
    destruct (write_and_commit_writes p self _ h pre u pl resp r post Hsplit)
      as (_ & _ & [-> | [-> _]]); auto.
  - assert (Hnil : new_events (perform p self a) h = []).
    { apply new_events_eq. rewrite Hrun. simpl. now rewrite app_nil_r. }
    rewrite Hnil in Hin. destruct Hin.
Qed.

(** X13. Whatever its payload, the topology service writes nothing to
    the device, and a control service writes nothing but the frame of
    the action that its name stands for and the commit frame, the
    action's frame with the parameters clamped as the encoding table says
    and every byte in [0, 255]: station in 1..16, minutes in 1..240,
    program in 1..3. *)
Theorem service_writes_its_action domain name handler call h :
  In (domain, name, handler) (async_setup_services p str_to_int) ->
  (name = "list_characteristics" ->
   count is_write (host_events (handler call) h) = 0%nat) /\
  (forall u pl resp r,
      In (EvWrite u pl resp r) (host_events (handler call) h) ->
      exists a,
        serves name a /\
        (pl = [0x3B; 0x00] \/ (pl = frame_table a /\ Forall is_byte pl))).
Proof.
  intros Hreg.
  destruct (handler_runs p str_to_int domain name handler call h Hreg)
    as [(e1 & Hrej & Hh) | (t & Ht & [[Hname Hh] | (a & Hserves & Hh)])].
  - assert (Hnil : host_events (handler call) h = []).
    { apply host_events_eq. rewrite Hh. simpl. now rewrite app_nil_r. }
    rewrite Hnil. split; [reflexivity |]. intros u pl resp r [].
  - assert (Hev : host_events (handler call) h =
                  new_events (list_characteristics p
                                (SolemAPI_init (device_mac call) t)) h).
    { unfold host_events. rewrite Hh. apply host_events_logged. }
    destruct (only_new_events _ _ h (list_characteristics_writes_nothing
                (SolemAPI_init (device_mac call) t))) as [_ Hall].
    rewrite Hev. split.
    + intros _. now apply count_none.
    + intros u pl resp r Hin. exfalso.
      rewrite Forall_forall in Hall. specialize (Hall _ Hin). discriminate.
  - assert (Hev : host_events (handler call) h =
                  new_events (perform p (SolemAPI_init (device_mac call) t) a)
                             h).
    { unfold host_events. rewrite Hh. apply host_events_api_try. }
    rewrite Hev. split.
    + intros ->. destruct a; discriminate Hserves.
    + intros u pl resp r Hin. exists a. split; [exact Hserves |].
      destruct (perform_writes _ a h u pl resp r Hin) as [-> | [-> Hb]]; auto.
Qed.

End HandlerWrites.

Lemma dict_get_cons {V} k' k (v : V) d :
  dict_get k' ((k, v) :: d) = if String.eqb k' k then Some v else dict_get k' d.
Proof. reflexivity. Qed.

(** X14. A field that a payload leaves out acts as its default: days,
    station, minutes and program as 1 and [bluetooth_timeout] as 15. Every
    service does on the call what it does on the call with the default
    written out. *)
Theorem missing_field_is_its_default (p : Platform)
        (str_to_int : string -> option Z) domain name handler k v call h :
  In (domain, name, handler) (async_setup_services p str_to_int) ->
  In (k, v) service_defaults ->
  dict_get k (data call) = None ->
  handler (with_field k v call) h = handler call h.
Proof.
  intros Hreg Hdef Hnone. simpl in Hreg, Hdef.
  repeat match type of Hreg with
  | _ \/ _ => destruct Hreg as [Hreg | Hreg]
  end; try contradiction; injection Hreg as <- <- <-;
  repeat match type of Hdef with
  | _ \/ _ => destruct Hdef as [Hdef | Hdef]
  end; try contradiction; injection Hdef as <- <-;
  unfold async_list_characteristics, async_turn_off_permanent,
    async_turn_off_x_days, async_turn_on,
    async_sprinkle_station_x_for_y_minutes,
    async_sprinkle_all_stations_for_y_minutes, async_run_program_x,
    async_stop_manual_sprinkle, new_api, _get_timeout, get, with_field;
  cbn [data device_mac]; rewrite !dict_get_cons;
  repeat match goal with
  | |- context [String.eqb ?a ?b] =>
      let c := eval vm_compute in (String.eqb a b) in
      change (String.eqb a b) with c
  end;
  cbv iota; rewrite ?Hnone; reflexivity.
Qed.

(** X14, on a call that names the station only. *)
Lemma missing_field_is_its_default_minutes :
  async_sprinkle_station_x_for_y_minutes healthy two_literals
    (with_field "minutes" (PyInt 1)
       {| device_mac := "c8:b9:61:aa:bb:cc";
          data := [("station", PyStr "3")] |}) []
  = async_sprinkle_station_x_for_y_minutes healthy two_literals
      {| device_mac := "c8:b9:61:aa:bb:cc";
         data := [("station", PyStr "3")] |} [].
Proof.
  apply (missing_field_is_its_default healthy two_literals
           DOMAIN "sprinkle_station_x_for_y_minutes").
  - simpl. auto 10.
  - simpl. auto 10.
  - reflexivity.
Defined.

(** X11, on a pause of 300 days: [struct.error] escapes the handler
    before any platform call. *)
Lemma service_failures_pause :
  async_turn_off_x_days healthy two_literals pause_call [] =
    (HRaise (Uncaught struct_error), []) /\
  ((rejected (Uncaught struct_error) /\ @nil event = []) \/
   (Uncaught struct_error = Uncaught struct_error /\ @nil event = [] /\
    "turn_off_x_days" = "turn_off_x_days") \/
   (exists msg, Uncaught struct_error = HomeAssistantError msg /\
                In msg control_messages) \/
   (exists e0, Uncaught struct_error = Uncaught e0 /\ retry_failure e0) \/
   (exists e0, Uncaught struct_error = Uncaught e0 /\
               scanner_raised healthy (device_mac pause_call) [] e0)).
Proof.
  split; [reflexivity |].
  apply (service_failures healthy two_literals DOMAIN "turn_off_x_days"
           (async_turn_off_x_days healthy two_literals) pause_call []).
  - simpl. auto 10.
  - discriminate.
  - reflexivity.
Defined.

(** X12, on a call that asks for a timeout of 2 s: the connector gets 5. *)
Lemma service_platform_calls_station :
  host_events
    (async_sprinkle_station_x_for_y_minutes healthy two_literals station_call)
    [] =
    [EvAcquire; EvFind "c8:b9:61:aa:bb:cc" 5; EvConnect solem_device 5;
     EvRelease; EvIsConnected true; EvIsConnected true;
     EvWrite CHARACTERISTIC_UUID [0x31; 0x05; 0x22; 3; 0x00; 240; 0xFF; 0xFF]
             false None;
     EvIsConnected true;
     EvWrite CHARACTERISTIC_UUID [0x3B; 0x00] false None;
     EvDisconnect None] /\
  Forall (service_event station_call)
    (host_events
       (async_sprinkle_station_x_for_y_minutes healthy two_literals
          station_call) []).
Proof.
  split; [reflexivity |].
  apply (service_platform_calls healthy two_literals DOMAIN
           "sprinkle_station_x_for_y_minutes").
  simpl. auto 10.
Defined.

(** X13, on a call for station "3" and 500 minutes: the frame on the wire
    is that of station 3 for 240 minutes. *)
Lemma service_writes_its_action_station :
  In (EvWrite CHARACTERISTIC_UUID
              [0x31; 0x05; 0x22; 3; 0x00; 240; 0xFF; 0xFF] false None)
     (host_events
        (async_sprinkle_station_x_for_y_minutes healthy two_literals
           station_call) []) /\
  exists a,
    serves "sprinkle_station_x_for_y_minutes" a /\
    ([0x31; 0x05; 0x22; 3; 0x00; 240; 0xFF; 0xFF] = [0x3B; 0x00] \/
     ([0x31; 0x05; 0x22; 3; 0x00; 240; 0xFF; 0xFF] = frame_table a /\
      Forall is_byte [0x31; 0x05; 0x22; 3; 0x00; 240; 0xFF; 0xFF])).
Proof.
  assert (Hin : In (EvWrite CHARACTERISTIC_UUID
                      [0x31; 0x05; 0x22; 3; 0x00; 240; 0xFF; 0xFF] false None)
                   (host_events
                      (async_sprinkle_station_x_for_y_minutes healthy
                         two_literals station_call) []))
    by (vm_compute; auto 10).
  split; [exact Hin |].
  refine (proj2 (service_writes_its_action healthy two_literals DOMAIN
                   "sprinkle_station_x_for_y_minutes"
                   (async_sprinkle_station_x_for_y_minutes healthy two_literals)
                   station_call [] _)
                CHARACTERISTIC_UUID _ false None Hin).
  simpl. auto 10.
Defined.

(** * The topology reader and the scans *)

(** X15. The topology reader fails in one of four ways: with an
    [APIConnectionError] of the connect or of the check of the
    connection; with the exception that the scanner raised during the
    resolution, passed on as it is; with the services-not-available
    error, when the client has no [services] attribute and the wrapped
    client that is looked at ([_client] if there is one, [_bleak_client]
    only otherwise) is absent or has no [get_services]; or with whatever
    [get_services] raised, passed on as it is. *)
Theorem topology_reader_failures (p : Platform) (self : SolemAPI)
        (h : history) (e : exn) :
  outcome (list_characteristics p self) h = Raise e ->
  (exists msg, e = APIConnectionError msg /\ In msg control_messages) \/
  scanner_raised p (mac_address self) h e \/
  exists client,
    outcome (_connect_client p self) h = Ok client /\
    services client = None /\
    ((e = APIConnectionError "Services not available on this platform/client"
      /\ (wrapped_client client = None \/
          wrapped_client client = Some {| get_services := None |})) \/
     wrapped_client client = Some {| get_services := Some (Raise e) |}).
Proof.
  intros Hraise.
  pose proof (scoped_session p self (list_characteristics_body p) h
                (in_session_list_characteristics_body p)) as Hrel.
  unfold released_once in Hrel.
  fold (list_characteristics p self) in Hrel.
  pose proof (connect_client_raises p self h) as HraiseC.
  unfold outcome at 1 in HraiseC. unfold outcome.
  destruct (_connect_client p self h) as [[c | e0] h1].
  - destruct Hrel as (Hout & _ & _). rewrite Hout in Hraise. clear Hout.
    unfold outcome, list_characteristics_body, bind, is_connected, raise, ret,
      emit, lift in Hraise.
    destruct (on_is_connected p h1 c); cbn [negb] in Hraise;
      cbv beta iota in Hraise.
    + right. right. exists c. split; [reflexivity |].
      unfold wrapped_client.
      destruct (services c) as [svcs |]; [discriminate |].
      split; [reflexivity |].
      destruct (match _client c with
                | Some i => Some i
                | None => _bleak_client c
                end) as [[[[svcs | e1] |]] |]; simpl in Hraise;
        try discriminate; injection Hraise as <-; auto.
    + left. injection Hraise as <-. eexists. split; [reflexivity |].
      simpl. auto 10.
  - destruct Hrel as (Hout & _ & _). rewrite Hout in Hraise.
    injection Hraise as <-.
    destruct (HraiseC e0 eq_refl) as [Hmsg | Hscanner]; auto.
Qed.

(** X15, on a client whose [_client] has no [get_services]: the reader
    fails although [_bleak_client] could list the services. *)
Lemma topology_reader_failures_shadowed :
  outcome (list_characteristics shadowed_platform api0) [] =
    Raise (APIConnectionError
             "Services not available on this platform/client") /\
  wrapped_client shadowed_client = Some {| get_services := None |}.
Proof.
  split; [reflexivity |].
  destruct (topology_reader_failures shadowed_platform api0 []
              (APIConnectionError
                 "Services not available on this platform/client") eq_refl)
    as [(msg & Hmsg & Hin) | [(t & Ht & _) | (c & Hc & _ & _)]].
  - injection Hmsg as <-. simpl in Hin.
    repeat (destruct Hin as [Hin | Hin]; [discriminate |]). destruct Hin.
  - discriminate.
  - reflexivity.
Defined.

(** [async_scan_devices] scans only when the host has no discovery to
    offer, and then as [SolemAPI.scan_bluetooth] does when given the same
    5 s. *)
Lemma scan_only_without_host_discovery (p : Platform)
      (host_discovery : option (list BLEDevice)) (timeout : Z) (h : history) :
  match host_discovery with
  | Some devices =>
      async_scan_devices p host_discovery timeout h = (Ok devices, h)
  | None =>
      async_scan_devices p host_discovery timeout h =
        (of_reply (on_discover p h), h ++ [EvDiscover timeout]) /\
      (timeout = 5 ->
       async_scan_devices p host_discovery timeout h = scan_bluetooth p h)
  end.
Proof.
  destruct host_discovery as [devices |]; [reflexivity |].
  split; [reflexivity |]. intros ->. reflexivity.
Qed.

(** * The lock and the session *)

Lemma split_unique {X} (P Q : X -> Prop) (A rest pre post : list X) (e : X) :
  Forall P A -> Forall Q rest -> ~ P e -> ~ Q e ->
  pre ++ e :: post = A ++ e :: rest -> pre = A /\ post = rest.
Proof.
  intros HA Hrest HP HQ Heq.
  apply split_at_app in Heq as [(post' & -> & _) | (pre' & -> & Heq)].
  - exfalso. apply Forall_app in HA as [_ HA].
    inversion HA as [| ? ? He _]. now apply HP.
  - destruct pre' as [| x pre']; simpl in Heq.
    + injection Heq as ->. now rewrite app_nil_r.
    + exfalso. injection Heq as <- ->.
      apply Forall_app in Hrest as [_ Hrest].
      inversion Hrest as [| ? ? He _]. now apply HQ.
Qed.

Section LockScope.

Variable p : Platform.
Variable self : SolemAPI.

Lemma connect_client_under_lock h :
  exists held,
    new_events (_connect_client p self) h = held ++ [EvRelease] /\
    Forall under_lock held.
Proof.
  destruct (connect_client_events p self h) as (connects & Hsnd & Hconnects).
  rewrite (new_events_eq _ _ _ Hsnd).
  exists (EvAcquire :: new_events (_resolve_ble_device p self) (h ++ [EvAcquire])
            ++ connects).
  split; [simpl; now rewrite <- app_assoc |].
  constructor; [exact I |]. apply Forall_app. split.
  - destruct (resolve_events p self (h ++ [EvAcquire])) as [_ [-> | ->]];
      repeat constructor.
  - destruct (_resolve_ble_device p self (h ++ [EvAcquire])) as [[d | e] h1].
    + rewrite Hconnects. apply Forall_forall.
      intros e He. apply repeat_spec in He. now subst e.
    + subst connects. constructor.
Qed.

(** In a call that connects, runs a body and disconnects, the one release
    of the lock parts what the connect did from the rest. *)
Lemma release_parts_scoped {A} (body : BleakClient -> M A) (call : M A) h
      pre post :
  (forall c, only in_session (body c)) ->
  released_once p (_connect_client p self) body call h ->
  new_events call h = pre ++ EvRelease :: post ->
  Forall under_lock pre /\ Forall after_release post.
Proof.
  intros Hbody Hrel Hsplit. unfold released_once in Hrel.
  destruct (connect_client_under_lock h) as (held & HevC & Hheld).
  destruct (_connect_client p self h) as [[c | e] h1].
  - destruct Hrel as (_ & Hnew & _).
    destruct (only_new_events _ _ h1 (Hbody c)) as [_ HallB].
    rewrite Hnew, HevC, <- app_assoc in Hsplit. simpl in Hsplit.
    symmetry in Hsplit.
    assert (Hrest : Forall after_release
              (new_events (body c) h1
                 ++ [EvDisconnect (on_disconnect p (snd (body c h1)) c)])).
    { apply Forall_app. split; [| repeat constructor].
      eapply Forall_impl; [| exact HallB].
      intros [] Hs; simpl in *; auto. }
    destruct (split_unique under_lock after_release _ _ _ _ EvRelease
                Hheld Hrest (fun H => H) (fun H => H) Hsplit) as [-> ->].
    auto.
  - destruct Hrel as (_ & Hnew & _).
    rewrite Hnew, HevC in Hsplit. symmetry in Hsplit.
    destruct (split_unique under_lock after_release held [] pre post EvRelease
                Hheld (Forall_nil _) (fun H => H) (fun H => H) Hsplit)
      as [-> ->].
    auto.
Qed.

End LockScope.

(** X16. The lock of the instance is held for the resolution and the
    connect only. In every run of a control method or of the topology
    reader there is at most one release of the lock; before it come the
    acquire, the lookup, the scan and the tries of the connector, and
    every check of the connection, write, sleep and disconnect comes
    after it, when the lock is free again. *)
Theorem lock_is_released_before_the_session (p : Platform) (self : SolemAPI)
        (a : action) (h : history) (pre post : list event) :
  (new_events (perform p self a) h = pre ++ EvRelease :: post ->
   Forall under_lock pre /\ Forall after_release post) /\
  (new_events (list_characteristics p self) h = pre ++ EvRelease :: post ->
   Forall under_lock pre /\ Forall after_release post).
Proof.
  split.
  - intros Hsplit. pose proof (perform_unfold p self a h) as Hrun.
    destruct (encode a) as [frame | e].
    + apply (release_parts_scoped p self
               (fun client => write_and_commit_body p self client frame)
               (_write_and_commit p self frame) h pre post).
      * intros c. apply in_session_write_and_commit_body.
      * apply (scoped_session p self
                 (fun client => write_and_commit_body p self client frame)).
        intros c. apply in_session_write_and_commit_body.
      * rewrite <- Hsplit. unfold new_events. now rewrite Hrun.
    + exfalso.
      assert (Hnil : new_events (perform p self a) h = []).
      { apply new_events_eq. rewrite Hrun. simpl. now rewrite app_nil_r. }
      rewrite Hnil in Hsplit. now destruct pre.
  - intros Hsplit.
    apply (release_parts_scoped p self (list_characteristics_body p)
             (list_characteristics p self) h pre post).
    + apply in_session_list_characteristics_body.
    + apply (scoped_session p self (list_characteristics_body p)).
      apply in_session_list_characteristics_body.
    + exact Hsplit.
Qed.

(** X16, on a run of [turn_on] in which everything works. *)
Lemma lock_is_released_before_the_session_turn_on :
  new_events (perform healthy api0 TurnOn) [] =
    [EvAcquire; EvFind "c8:b9:61:aa:bb:cc" 5; EvConnect solem_device 15]
      ++ EvRelease
      :: [EvIsConnected true; EvIsConnected true;
          EvWrite CHARACTERISTIC_UUID
                  [0x31; 0x05; 0x12; 0xFF; 0x00; 0xFF; 0xFF] false None;
          EvIsConnected true;
          EvWrite CHARACTERISTIC_UUID [0x3B; 0x00] false None;
          EvDisconnect None] /\
  Forall under_lock
    [EvAcquire; EvFind "c8:b9:61:aa:bb:cc" 5; EvConnect solem_device 15] /\
  Forall after_release
    [EvIsConnected true; EvIsConnected true;
     EvWrite CHARACTERISTIC_UUID
             [0x31; 0x05; 0x12; 0xFF; 0x00; 0xFF; 0xFF] false None;
     EvIsConnected true;
     EvWrite CHARACTERISTIC_UUID [0x3B; 0x00] false None;
     EvDisconnect None].
Proof.
  split; [reflexivity |].
  exact (proj1 (lock_is_released_before_the_session healthy api0 TurnOn []
                  [EvAcquire; EvFind "c8:b9:61:aa:bb:cc" 5;
                   EvConnect solem_device 15]
                  [EvIsConnected true; EvIsConnected true;
                   EvWrite CHARACTERISTIC_UUID
                           [0x31; 0x05; 0x12; 0xFF; 0x00; 0xFF; 0xFF]
                           false None;
                   EvIsConnected true;
                   EvWrite CHARACTERISTIC_UUID [0x3B; 0x00] false None;
                   EvDisconnect None])
               eq_refl).
Defined.
